(** * Surebet detection and consolidation of [surebet_scraper.py]

    A shallow embedding of [SureBetDetector] (methods [find_surebets],
    [_analyze_market], [_calculate_margin], [_calculate_stakes],
    [_calculate_profit]) and of the consolidation loop of [main]; further
    of the simulated extraction of [BookmakerScraper], of
    [simulate_surebet_example] and of the live mode of [main], from the
    league option to the call of the detector.

    Numbers.  The source computes on Python floats.  Here a number is an
    exact rational ([Q]); the binary rounding of float arithmetic is not
    modelled, the decimal rounding done by [round(x, 2)] is.  Equality of
    numbers is [Qeq] ([==]).  Properties of amounts after [round(x, 2)]
    are stated as bounds against the amount before rounding, not as a
    particular cent: at a tie between two cents the float computation can
    store the neighbour of the cent computed here.

    Errors.  Python exceptions that the modelled code can raise are the
    constructors of [PyErr]; a computation returns [Raise e] or [Ok v].

    Dictionaries.  A Python [dict] keeps insertion order, and the order is
    visible in the results (the order of the stake rows, [stakes[0]]), so a
    dict is an association list with unique keys in insertion order. *)

From Stdlib Require Import List Permutation String Ascii Bool ZArith QArith Qround Qabs
  Lia Lqa.
Import ListNotations.
Open Scope Q_scope.

Set Implicit Arguments.

(** ** Python runtime: exceptions *)

Module Py.

Inductive PyErr : Type :=
| ZeroDivisionError
| IndexError
| KeyError
| ValueError.

Inductive result (A : Type) : Type :=
| Ok (v : A)
| Raise (e : PyErr).
Arguments Ok {A} v.
Arguments Raise {A} e.

Definition bind {A B} (c : result A) (k : A -> result B) : result B :=
  match c with
  | Ok v => k v
  | Raise e => Raise e
  end.

Definition raises {A} (c : result A) : Prop :=
  match c with
  | Ok _ => False
  | Raise _ => True
  end.

Definition returns {A} (c : result A) : Prop :=
  match c with
  | Ok _ => True
  | Raise _ => False
  end.

(** [a / b] on floats: a zero divisor raises. *)
Definition truediv (a b : Q) : result Q :=
  if Qeq_bool b 0 then Raise ZeroDivisionError else Ok (a / b).

(** [sum(xs)]: starts from 0 and adds from the left. *)
Definition sum (xs : list Q) : Q := fold_left Qplus xs 0.

(** [for x in xs: ys.append(f(x))] where [f] may raise. *)
Fixpoint mapM {A B} (f : A -> result B) (xs : list A) : result (list B) :=
  match xs with
  | [] => Ok []
  | x :: xs' =>
      bind (f x) (fun y => bind (mapM f xs') (fun ys => Ok (y :: ys)))
  end.

(** [for x in xs: s = f(s, x)] where [f] may raise. *)
Fixpoint foldM {A S} (f : S -> A -> result S) (xs : list A) (s : S) : result S :=
  match xs with
  | [] => Ok s
  | x :: xs' => bind (f s x) (fun s' => foldM f xs' s')
  end.

(** [round(x)] to an integer, ties to the even neighbour. *)
Definition round_half_even (x : Q) : Z :=
  let f := Qfloor x in
  match Qcompare (x - inject_Z f) (1 # 2) with
  | Lt => f
  | Gt => (f + 1)%Z
  | Eq => if Z.even f then f else (f + 1)%Z
  end.

(** [round(x, 2)]. *)
Definition round2 (x : Q) : Q := inject_Z (round_half_even (x * 100)) / 100.

(** [max(xs, key=k)]: the first element whose key no later element
    exceeds; the running best is replaced only by a strictly larger key.
    An empty argument raises [ValueError]. *)
Definition max_by {A} (k : A -> Q) (xs : list A) : result A :=
  match xs with
  | [] => Raise ValueError
  | x :: xs' =>
      Ok (fold_left (fun best y => if Qlt_le_dec (k best) (k y) then y else best)
                    xs' x)
  end.

End Py.

Import Py.

Declare Scope py_scope.
Notation "x <- c ;; k" := (Py.bind c (fun x => k))
  (at level 61, c at next level, right associativity) : py_scope.
Open Scope py_scope.

(** ** Insertion-ordered dictionaries with string keys *)

Module Dict.

Section Defs.
Variable V : Type.

Definition t := list (string * V).

Fixpoint get (k : string) (d : t) : option V :=
  match d with
  | [] => None
  | (k', v) :: d' => if String.eqb k k' then Some v else get k d'
  end.

Definition mem (k : string) (d : t) : bool :=
  match get k d with Some _ => true | None => false end.

(** [d[k] = v]: an existing key keeps its position, a new one goes last. *)
Fixpoint set (k : string) (v : V) (d : t) : t :=
  match d with
  | [] => [(k, v)]
  | (k', v') :: d' =>
      if String.eqb k k' then (k', v) :: d' else (k', v') :: set k v d'
  end.

(** [d[k].append(..)] and the like: the value under [k] changes in place.
    The source only does this for a key that is present. *)
Fixpoint update (k : string) (f : V -> V) (d : t) : t :=
  match d with
  | [] => []
  | (k', v') :: d' =>
      if String.eqb k k' then (k', f v') :: d' else (k', v') :: update k f d'
  end.

Definition keys (d : t) : list string := map fst d.
Definition values (d : t) : list V := map snd d.

End Defs.

(** [{k: f(v) for k, v in d.items()}] where [f] may raise: same keys, same
    order. *)
Definition mapM {V W} (f : V -> Py.result W) (d : t V) : Py.result (t W) :=
  Py.mapM (fun kv : string * V =>
             Py.bind (f (snd kv)) (fun w => Py.Ok (fst kv, w))) d.

End Dict.

(** ** Data model (the dataclasses of the source) *)

Record Odd : Type := mkOdd {
  bookmaker : string;
  outcome : string;
  value : Q;
  timestamp : Z
}.

Record Match : Type := mkMatch {
  home_team : string;
  away_team : string;
  league : string;
  country : string;
  match_time : option string;
  odds : Dict.t (list Odd)
}.

(** One entry of [SureBet.stakes] (a dict with these five keys). *)
Record StakeRow : Type := mkStakeRow {
  row_outcome : string;
  row_bookmaker : string;
  row_odds : Q;
  row_stake : Q;
  row_expected_return : Q
}.

(** The field [timestamp] ([datetime.now] at creation) is left out. *)
Record SureBet : Type := mkSureBet {
  sb_match : Match;
  sb_market : string;
  sb_margin : Q;
  sb_roi : Q;
  sb_stakes : list StakeRow;
  sb_total_stake : Q;
  sb_guaranteed_profit : Q
}.

(** The two entries of [SUREBET_CONFIG] that the detector reads. *)
Record Config : Type := mkConfig {
  margen_minimo : Q;
  margen_maximo : Q
}.

Definition SUREBET_CONFIG : Config := mkConfig 1 10.

(** ** The detector: class [SureBetDetector] *)

Module Detector.

(** Lines 342-347: group the quotes of a market by outcome.  A new outcome
    gets an empty list first; the quote is then appended in place. *)
Definition group_step (outcomes : Dict.t (list Odd)) (odd : Odd) : Dict.t (list Odd) :=
  let outcomes1 :=
    if negb (Dict.mem (outcome odd) outcomes)
    then Dict.set (outcome odd) [] outcomes
    else outcomes in
  Dict.update (outcome odd) (fun l => l ++ [odd]) outcomes1.

Definition group_by_outcome (odds_list : list Odd) : Dict.t (list Odd) :=
  fold_left group_step odds_list [].

(** Lines 349-353: [best_odds[outcome] = max(odds, key=lambda x: x.value)]
    for every item of [outcomes].  The keys of [outcomes] are distinct, so
    [best_odds] gets the same keys in the same order. *)
Definition select_best (outcomes : Dict.t (list Odd)) : result (Dict.t Odd) :=
  Dict.mapM (fun odds => max_by value odds) outcomes.

(** Lines 382-391. *)
Definition sum_inverse (best_odds : Dict.t Odd) : result Q :=
  invs <- mapM (fun odd => truediv 1 (value odd)) (Dict.values best_odds) ;;
  Ok (Py.sum invs).

Definition _calculate_margin (best_odds : Dict.t Odd) : result Q :=
  s <- sum_inverse best_odds ;;
  if Qle_bool 1 s then Ok 0 else Ok ((1 - s) * 100).

(** Lines 393-415.  [stake_row] is the body of the loop. *)
Definition stake_row (weights : Dict.t Q) (total_weight total_stake : Q)
    (item : string * Odd) : result StakeRow :=
  let (outcome, odd) := item in
  match Dict.get outcome weights with
  | None => Raise KeyError
  | Some weight =>
      q <- truediv weight total_weight ;;
      let stake := q * total_stake in
      let expected_return := stake * value odd in
      Ok (mkStakeRow outcome (bookmaker odd) (value odd)
                     (round2 stake) (round2 expected_return))
  end.

Definition _calculate_stakes (best_odds : Dict.t Odd) (total_stake : Q)
    : result (list StakeRow) :=
  weights <- Dict.mapM (fun odd => truediv 1 (value odd)) best_odds ;;
  let total_weight := Py.sum (Dict.values weights) in
  mapM (stake_row weights total_weight total_stake) best_odds.

(** Lines 417-420: [stakes[0]] is evaluated first; [best_odds] is not
    read. *)
Definition _calculate_profit (stakes : list StakeRow) (best_odds : Dict.t Odd)
    : result Q :=
  match stakes with
  | [] => Raise IndexError
  | s0 :: _ => Ok (row_expected_return s0 - Py.sum (map row_stake stakes))
  end.

(** Lines 338-380. *)
Definition _analyze_market (config : Config) (m : Match) (market : string)
    (odds_list : list Odd) (total_stake : Q) : result (option SureBet) :=
  let outcomes := group_by_outcome odds_list in
  best_odds <- select_best outcomes ;;
  margin <- _calculate_margin best_odds ;;
  if Qlt_le_dec margin (margen_minimo config) then Ok None
  else if Qlt_le_dec (margen_maximo config) margin then Ok None
  else
    stakes <- _calculate_stakes best_odds total_stake ;;
    guaranteed_profit <- _calculate_profit stakes best_odds ;;
    q <- truediv guaranteed_profit total_stake ;;
    let roi := q * 100 in
    Ok (Some (mkSureBet m market margin roi stakes total_stake guaranteed_profit)).

(** Lines 326-336: the two nested loops; an exception leaves both. *)
Definition market_step (config : Config) (m : Match) (total_stake : Q)
    (surebets : list SureBet) (item : string * list Odd) : result (list SureBet) :=
  let (market, odds_list) := item in
  surebet <- _analyze_market config m market odds_list total_stake ;;
  match surebet with
  | Some sb => Ok (surebets ++ [sb])
  | None => Ok surebets
  end.

Definition match_step (config : Config) (total_stake : Q)
    (surebets : list SureBet) (m : Match) : result (list SureBet) :=
  foldM (market_step config m total_stake) (odds m) surebets.

Definition find_surebets (config : Config) (matches : list Match)
    (total_stake : Q) : result (list SureBet) :=
  foldM (match_step config total_stake) matches [].

End Detector.

(** ** Consolidation: the loop of [main], lines 712-726

    [consolidated_matches[key] = match] stores the [Match] object itself,
    not a copy, and the merge branch appends to the lists of that object.
    Whether the input is changed therefore depends on object identity: a
    [Match] is a reference into a heap of [Match] objects.  Every [Match]
    owns its [odds] dict and the quote lists in it (they are built per
    object by [_get_sample_data]), so these are values inside the object. *)

Module Consolidation.

Definition ref := nat.
Definition heap := list Match.

Definition deref (h : heap) (r : ref) : option Match := nth_error h r.

(** The object at [r] is overwritten; no object is created or removed. *)
Fixpoint store (h : heap) (r : ref) (m : Match) : heap :=
  match h, r with
  | [], _ => []
  | _ :: h', O => m :: h'
  | x :: h', S r' => x :: store h' r' m
  end.

Definition set_odds (m : Match) (o : Dict.t (list Odd)) : Match :=
  mkMatch (home_team m) (away_team m) (league m) (country m) (match_time m) o.

(** Line 716: [f"{match.home_team}|{match.away_team}"]. *)
Definition key (m : Match) : string :=
  (home_team m ++ "|" ++ away_team m)%string.

(** Lines 721-724, one market of the incoming match. *)
Definition merge_step (target : Dict.t (list Odd)) (item : string * list Odd)
    : Dict.t (list Odd) :=
  let (market, odds) := item in
  let target1 :=
    if negb (Dict.mem market target) then Dict.set market [] target else target in
  Dict.update market (fun l => l ++ odds) target1.

(** Lines 715-724, one match.  A reference outside the heap is not a
    [Match] of the input and is passed over. *)
Definition consolidate_step (st : heap * Dict.t ref) (r : ref) : heap * Dict.t ref :=
  let (h, consolidated_matches) := st in
  match deref h r with
  | None => st
  | Some m =>
      let k := key m in
      match Dict.get k consolidated_matches with
      | None => (h, Dict.set k r consolidated_matches)
      | Some r0 =>
          match deref h r0 with
          | None => st
          | Some m0 =>
              (store h r0 (set_odds m0 (fold_left merge_step (odds m) (odds m0))),
               consolidated_matches)
          end
      end
  end.

(** Lines 713-724: [all_matches] maps a bookmaker name to its matches. *)
Definition consolidate (h : heap) (all_matches : Dict.t (list ref))
    : heap * Dict.t ref :=
  fold_left (fun st item => fold_left consolidate_step (snd item) st)
            all_matches (h, []).

(** Line 726: [list(consolidated_matches.values())], read from the heap. *)
Definition match_list (st : heap * Dict.t ref) : list Match :=
  flat_map (fun r => match deref (fst st) r with Some m => [m] | None => [] end)
           (Dict.values (snd st)).

(** [DataExporter.export_odds], lines 435-450: the rows written to the
    odds file, reduced to the columns bookmaker (the key of [all_matches]),
    market and the quote. *)
Definition export_odds_rows (h : heap) (all_matches : Dict.t (list ref))
    : list (string * string * Odd) :=
  flat_map (fun item : string * list ref =>
    flat_map (fun r =>
      match deref h r with
      | None => []
      | Some m =>
          flat_map (fun mk : string * list Odd =>
                      map (fun odd => (fst item, fst mk, odd)) (snd mk))
                   (odds m)
      end) (snd item)) all_matches.

(** All matches of the input, in the order the loop visits them. *)
Definition all_refs (all_matches : Dict.t (list ref)) : list ref :=
  flat_map snd all_matches.

End Consolidation.

(** ** Quantities the properties are stated with *)

Module Spec.

(** The sum of reciprocal best odds, read off the stake rows. *)
Definition inverse_sum (rows : list StakeRow) : Q :=
  Py.sum (map (fun r => 1 / row_odds r) rows).

(** The stake of a row before [round(_, 2)]. *)
Definition exact_stake (sb : SureBet) (r : StakeRow) : Q :=
  (1 / row_odds r) / inverse_sum (sb_stakes sb) * sb_total_stake sb.

(** The payout every outcome gives before rounding. *)
Definition common_return (sb : SureBet) : Q :=
  sb_total_stake sb / inverse_sum (sb_stakes sb).

(** The sum of reciprocal odds of a dict of best quotes. *)
Definition reciprocal_sum (best_odds : Dict.t Odd) : Q :=
  Py.sum (map (fun kv : string * Odd => 1 / value (snd kv)) best_odds).

(** The margin that belongs to a sum of reciprocals. *)
Definition margin_of (s : Q) : Q :=
  if Qle_bool 1 s then 0 else (1 - s) * 100.

(** The stake row of one best quote, given the total weight and stake. *)
Definition row_of (W T : Q) (kv : string * Odd) : StakeRow :=
  mkStakeRow (fst kv) (bookmaker (snd kv)) (value (snd kv))
             (round2 (1 / value (snd kv) / W * T))
             (round2 (1 / value (snd kv) / W * T * value (snd kv))).

(** The profit computed from a non-empty list of stake rows. *)
Definition profit_of (rows : list StakeRow) : Q :=
  match rows with
  | [] => 0
  | s0 :: _ => row_expected_return s0 - Py.sum (map row_stake rows)
  end.

(** The opportunity built from the best quotes of an accepted market. *)
Definition surebet_of (m : Match) (market : string) (best_odds : Dict.t Odd)
    (T : Q) : SureBet :=
  let rows := map (row_of (reciprocal_sum best_odds) T) best_odds in
  mkSureBet m market (margin_of (reciprocal_sum best_odds))
            (profit_of rows / T * 100) rows T (profit_of rows).

(** No best quote has odds value zero. *)
Definition nonzero_odds (best_odds : Dict.t Odd) : Prop :=
  forall kv, In kv best_odds -> ~ value (snd kv) == 0.

(** Some market of match [m] yields the opportunity [sb]. *)
Definition yields (config : Config) (T : Q) (m : Match) (sb : SureBet) : Prop :=
  exists market odds_list,
    In (market, odds_list) (odds m) /\
    Detector._analyze_market config m market odds_list T = Ok (Some sb).

(** What holds of the heap and of [consolidated_matches] after the
    matches [seen] of the heap [h0] went through the loop: objects keep
    everything but their quotes, the keys are distinct, every entry is a
    match with that key, and every match seen has an entry for its key. *)
Definition consolidation_inv (h0 : Consolidation.heap)
    (st : Consolidation.heap * Dict.t Consolidation.ref)
    (seen : list Consolidation.ref) : Prop :=
  (forall r m0, Consolidation.deref h0 r = Some m0 ->
     exists o, Consolidation.deref (fst st) r = Some (Consolidation.set_odds m0 o)) /\
  (forall r, Consolidation.deref h0 r = None ->
     Consolidation.deref (fst st) r = None) /\
  NoDup (Dict.keys (snd st)) /\
  (forall k r, In (k, r) (snd st) ->
     exists m0, Consolidation.deref h0 r = Some m0 /\ Consolidation.key m0 = k) /\
  (forall r m0, In r seen -> Consolidation.deref h0 r = Some m0 ->
     exists e, Dict.get (Consolidation.key m0) (snd st) = Some e).

(** The quotes of a market for one outcome, in list order. *)
Definition quotes_of (o : string) (odds_list : list Odd) : list Odd :=
  filter (fun q => String.eqb (outcome q) o) odds_list.

(** Observation times never decrease along the list. *)
Fixpoint time_ordered (odds_list : list Odd) : Prop :=
  match odds_list with
  | [] => True
  | q :: rest =>
      (forall q', In q' rest -> (timestamp q <= timestamp q')%Z) /\ time_ordered rest
  end.

(** A name without the separator of the consolidation key. *)
Fixpoint no_bar (s : string) : Prop :=
  match s with
  | EmptyString => True
  | String c s' => c <> "|"%char /\ no_bar s'
  end.

End Spec.

(** ** Concrete inputs *)

Module Examples.

Local Open Scope string_scope.

(** The market of [simulate_surebet_example] (lines 588-601), the quotes
    numbered by arrival. *)
Definition demo_odds : list Odd :=
  [ mkOdd "BetWarrior" "1" (250 # 100) 1; mkOdd "BetWarrior" "X" (310 # 100) 2;
    mkOdd "BetWarrior" "2" (300 # 100) 3; mkOdd "Codere" "1" (235 # 100) 4;
    mkOdd "Codere" "X" (360 # 100) 5; mkOdd "Codere" "2" (315 # 100) 6;
    mkOdd "Bplay" "1" (240 # 100) 7; mkOdd "Bplay" "X" (320 # 100) 8;
    mkOdd "Bplay" "2" (330 # 100) 9; mkOdd "Betsson" "1" (238 # 100) 10;
    mkOdd "Betsson" "X" (325 # 100) 11; mkOdd "Betsson" "2" (320 # 100) 12 ].

Definition match_with (markets : Dict.t (list Odd)) : Match :=
  mkMatch "Boca Juniors" "River Plate" "Primera Division" "Argentina"
          (Some "2024-01-20 20:00") markets.

Definition demo_match : Match := match_with [("1X2", demo_odds)].

(** The best quotes of [demo_odds]: 2.50, 3.60 and 3.30. *)
Definition demo_best : Dict.t Odd :=
  [ ("1", mkOdd "BetWarrior" "1" (250 # 100) 1);
    ("X", mkOdd "Codere" "X" (360 # 100) 5);
    ("2", mkOdd "Bplay" "2" (330 # 100) 9) ].

Definition demo_surebet : SureBet :=
  Spec.surebet_of demo_match "1X2" demo_best 10000.

(** A margin range that starts at zero, as [--margen 0] sets it. *)
Definition config_from_zero : Config := mkConfig 0 10.

(** Two outcomes at 1.50: the reciprocals add up to 4/3. *)
Definition overround_odds : list Odd :=
  [ mkOdd "BetWarrior" "1" (150 # 100) 1; mkOdd "Codere" "2" (150 # 100) 2 ].
Definition overround_best : Dict.t Odd :=
  [ ("1", mkOdd "BetWarrior" "1" (150 # 100) 1);
    ("2", mkOdd "Codere" "2" (150 # 100) 2) ].
Definition overround_match : Match := match_with [("1X2", overround_odds)].

(** Two outcomes at 2.00: the reciprocals add up to exactly 1. *)
Definition fair_odds : list Odd :=
  [ mkOdd "BetWarrior" "1" 2 1; mkOdd "Codere" "2" 2 2 ].
Definition fair_best : Dict.t Odd :=
  [ ("1", mkOdd "BetWarrior" "1" 2 1); ("2", mkOdd "Codere" "2" 2 2) ].
Definition fair_match : Match := match_with [("1X2", fair_odds)].


(** A market with a single outcome. *)
Definition single_odds : list Odd := [ mkOdd "BetWarrior" "1" (105 # 100) 1 ].
Definition single_best : Dict.t Odd := [ ("1", mkOdd "BetWarrior" "1" (105 # 100) 1) ].
Definition single_match : Match := match_with [("1X2", single_odds)].

(** The demo market with a fourth outcome quoted at -100. *)
Definition negative_odds : list Odd :=
  [ mkOdd "BetWarrior" "1" (250 # 100) 1; mkOdd "Codere" "X" (360 # 100) 2;
    mkOdd "Bplay" "2" (330 # 100) 3; mkOdd "Betsson" "Z" (-100) 4 ].
Definition negative_best : Dict.t Odd :=
  [ ("1", mkOdd "BetWarrior" "1" (250 # 100) 1);
    ("X", mkOdd "Codere" "X" (360 # 100) 2);
    ("2", mkOdd "Bplay" "2" (330 # 100) 3);
    ("Z", mkOdd "Betsson" "Z" (-100) 4) ].
Definition negative_match : Match := match_with [("1X2", negative_odds)].

(** A market whose only quote for the draw has odds value zero. *)
Definition zero_odds : list Odd :=
  [ mkOdd "BetWarrior" "1" (250 # 100) 1; mkOdd "Codere" "X" 0 2;
    mkOdd "Bplay" "2" (330 # 100) 3 ].
Definition zero_best : Dict.t Odd :=
  [ ("1", mkOdd "BetWarrior" "1" (250 # 100) 1); ("X", mkOdd "Codere" "X" 0 2);
    ("2", mkOdd "Bplay" "2" (330 # 100) 3) ].
Definition zero_match : Match := match_with [("1X2", zero_odds)].

(** Two quotes that tie on 2.00; the first in the list was seen later. *)
Definition tie_late : Odd := mkOdd "Codere" "1" 2 5.
Definition tie_early : Odd := mkOdd "BetWarrior" "1" 2 3.
Definition tie_odds : list Odd := [ tie_late; tie_early ].

(** The same fixture as seen by two bookmakers, and once more under
    another league label. *)
Definition betwarrior_quotes : list Odd :=
  [ mkOdd "BetWarrior" "1" (245 # 100) 1; mkOdd "BetWarrior" "X" (320 # 100) 1;
    mkOdd "BetWarrior" "2" (310 # 100) 1 ].
Definition codere_quotes : list Odd :=
  [ mkOdd "Codere" "1" (245 # 100) 2; mkOdd "Codere" "X" (320 # 100) 2;
    mkOdd "Codere" "2" (310 # 100) 2 ].
Definition betwarrior_match : Match := match_with [("1X2", betwarrior_quotes)].
Definition codere_match : Match := match_with [("1X2", codere_quotes)].
Definition codere_cup_match : Match :=
  mkMatch "Boca Juniors" "River Plate" "Copa Argentina" "Argentina" None
          [("1X2", codere_quotes)].

Definition two_sources : Dict.t (list Consolidation.ref) :=
  [ ("BetWarrior", [0%nat]); ("Codere", [1%nat]) ].
Definition league_heap : Consolidation.heap := [ betwarrior_match; codere_cup_match ].
Definition fixture_heap : Consolidation.heap := [ betwarrior_match; codere_match ].

End Examples.


(** ** Strings: [str.split] with a one-character separator *)

Module Str.

(** [s.split(sep)] for a separator of one character: the fields between
    the separators, in order; a string without separator (the empty
    string too) is a single field. *)
Fixpoint split (sep : ascii) (s : string) : list string :=
  match s with
  | EmptyString => [EmptyString]
  | String c s' =>
      if Ascii.eqb c sep then EmptyString :: split sep s'
      else match split sep s' with
           | [] => [String c EmptyString]
           | field :: fields => String c field :: fields
           end
  end.

(** [c in s]. *)
Fixpoint contains (c : ascii) (s : string) : bool :=
  match s with
  | EmptyString => false
  | String c' s' => Ascii.eqb c' c || contains c s'
  end.

End Str.

(** ** The simulated extraction: class [BookmakerScraper] *)

Module Scraper.

Local Open Scope string_scope.

(** The dict literals of [sample_data] (lines 254-294): a quote with the
    keys bookmaker, outcome and value, a match with the keys home, away,
    league, country and odds. *)
Record RawOdd : Type := mkRawOdd {
  raw_bookmaker : string;
  raw_outcome : string;
  raw_value : Q
}.

Record RawMatch : Type := mkRawMatch {
  raw_home : string;
  raw_away : string;
  raw_league : string;
  raw_country : string;
  raw_odds : Dict.t (list RawOdd)
}.

(** [name] is [self.config["name"]]. *)
Definition sample_data (name : string) : list RawMatch :=
  [ mkRawMatch "Boca Juniors" "River Plate" "Primera Division" "Argentina"
      [("1X2", [ mkRawOdd name "1" (245 # 100); mkRawOdd name "X" (320 # 100);
                 mkRawOdd name "2" (310 # 100) ])];
    mkRawMatch "Racing Club" "Independiente" "Primera Division" "Argentina"
      [("1X2", [ mkRawOdd name "1" (210 # 100); mkRawOdd name "X" (340 # 100);
                 mkRawOdd name "2" (380 # 100) ])];
    mkRawMatch "San Lorenzo" "Huracán" "Primera Division" "Argentina"
      [("1X2", [ mkRawOdd name "1" (230 # 100); mkRawOdd name "X" (310 # 100);
                 mkRawOdd name "2" (350 # 100) ])] ].

(** Lines 306-313: [Odd(...)] takes its timestamp from the clock; the
    [n]-th quote created reads [now n]. *)
Fixpoint odds_from (now : nat -> Z) (n : nat) (odds_list : list RawOdd) : list Odd :=
  match odds_list with
  | [] => []
  | o :: rest =>
      mkOdd (raw_bookmaker o) (raw_outcome o) (raw_value o) (now n)
      :: odds_from now (S n) rest
  end.

(** Lines 305-313, one market: [match.odds[market] = [...]]. *)
Definition fill_market (now : nat -> Z) (st : Dict.t (list Odd) * nat)
    (item : string * list RawOdd) : Dict.t (list Odd) * nat :=
  let (odds, n) := st in
  (Dict.set (fst item) (odds_from now n (snd item)) odds,
   (n + List.length (snd item))%nat).

(** Lines 298-313: a [Match] without a match time, its markets filled. *)
Definition match_from (now : nat -> Z) (n : nat) (data : RawMatch) : Match * nat :=
  let (odds, n') := fold_left (fill_market now) (raw_odds data) ([], n) in
  (mkMatch (raw_home data) (raw_away data) (raw_league data) (raw_country data)
           None odds, n').

(** Lines 296-317. *)
Fixpoint matches_from (now : nat -> Z) (n : nat) (sample : list RawMatch)
    : list Match :=
  match sample with
  | [] => []
  | data :: rest =>
      let (m, n') := match_from now n data in
      m :: matches_from now n' rest
  end.

Definition _get_sample_data (name : string) (now : nat -> Z) : list Match :=
  matches_from now 0 (sample_data name).

(** Lines 244-249.  [if league_filter:] is false for [None] and for an
    empty list; [m.league in league_filter] compares whole strings. *)
Definition _extract_matches (name : string) (now : nat -> Z)
    (league_filter : option (list string)) : list Match :=
  let sample_matches := _get_sample_data name now in
  match league_filter with
  | Some (l :: ls) =>
      filter (fun m => existsb (String.eqb (league m)) (l :: ls)) sample_matches
  | _ => sample_matches
  end.

(** Line 667 of [main]: [args.ligas.split(",") if args.ligas else None];
    [args.ligas] is [None] without the option, and the empty string is
    false as well. *)
Definition league_filter (ligas : option string) : option (list string) :=
  match ligas with
  | None => None
  | Some s => if String.eqb s "" then None else Some (Str.split "," s)
  end.

End Scraper.

(** ** The demo: [simulate_surebet_example], lines 574-606 *)

Module Demo.

Local Open Scope string_scope.

Definition demo_quotes : list Scraper.RawOdd :=
  [ Scraper.mkRawOdd "BetWarrior" "1" (250 # 100);
    Scraper.mkRawOdd "BetWarrior" "X" (310 # 100);
    Scraper.mkRawOdd "BetWarrior" "2" (300 # 100);
    Scraper.mkRawOdd "Codere" "1" (235 # 100);
    Scraper.mkRawOdd "Codere" "X" (360 # 100);
    Scraper.mkRawOdd "Codere" "2" (315 # 100);
    Scraper.mkRawOdd "Bplay" "1" (240 # 100);
    Scraper.mkRawOdd "Bplay" "X" (320 # 100);
    Scraper.mkRawOdd "Bplay" "2" (330 # 100);
    Scraper.mkRawOdd "Betsson" "1" (238 # 100);
    Scraper.mkRawOdd "Betsson" "X" (325 # 100);
    Scraper.mkRawOdd "Betsson" "2" (320 # 100) ].

(** The match of the demo; its quotes read the clock in list order. *)
Definition demo_match_at (now : nat -> Z) : Match :=
  mkMatch "Boca Juniors" "River Plate" "Primera Division" "Argentina"
          (Some "2024-01-20 20:00")
          (Dict.set "1X2" (Scraper.odds_from now 0 demo_quotes) []).

(** [SureBetDetector()] takes the default [SUREBET_CONFIG]; the result is
    [surebets[0] if surebets else None]. *)
Definition simulate_surebet_example (now : nat -> Z) (total_stake : Q)
    : result (option SureBet) :=
  surebets <- Detector.find_surebets SUREBET_CONFIG [demo_match_at now] total_stake ;;
  Ok (match surebets with
      | sb :: _ => Some sb
      | [] => None
      end).

End Demo.

(** ** The live mode of [main], lines 667-669 and 694-732

    What the run does with the browser is outside the model: whether
    Playwright is installed and whether the football page of a bookmaker
    could be loaded are inputs.  Launching the browser is taken to
    succeed (an exception there ends the run). *)

Module Main.

Local Open Scope string_scope.

(** [BOOKMAKERS] of [config.py] in the order of the dict: the id, the
    name and the flag [enabled] of each. *)
Definition BOOKMAKERS : list (string * (string * bool)) :=
  [ ("betwarrior", ("BetWarrior", true)); ("codere", ("Codere", true));
    ("bplay", ("Bplay", true)); ("betsson", ("Betsson", true)) ].

(** [scrape_football_odds], lines 208-232: an exception while the page
    is loaded is caught and leaves [matches] empty. *)
Definition scrape_football_odds (page_loaded : bool) (name : string)
    (now : nat -> Z) (league_filter : option (list string)) : list Match :=
  if page_loaded then Scraper._extract_matches name now league_filter else [].

(** New [Match] objects go to the end of the heap. *)
Definition alloc (h : Consolidation.heap) (ms : list Match)
    : Consolidation.heap * list Consolidation.ref :=
  ((h ++ ms)%list, seq (List.length h) (List.length ms)).

(** Lines 699-707, one bookmaker; [now bookmaker_id] is the clock its
    quotes read. *)
Definition scrape_step (page_loaded : string -> bool) (now : string -> nat -> Z)
    (league_filter : option (list string))
    (st : Consolidation.heap * Dict.t (list Consolidation.ref))
    (bm : string * (string * bool))
    : Consolidation.heap * Dict.t (list Consolidation.ref) :=
  let (h, all_matches) := st in
  let (bookmaker_id, bm_config) := bm in
  let (name, enabled) := bm_config in
  if negb enabled then st
  else
    let matches := scrape_football_odds (page_loaded bookmaker_id) name
                                        (now bookmaker_id) league_filter in
    let (h', refs) := alloc h matches in
    (h', Dict.set name refs all_matches).

(** [all_surebets] of line 732: the league filter of line 667, the
    config of lines 668-669 ([margen_minimo] from [--margen]), the
    scraping loop, the consolidation and the detector. *)
Definition all_surebets (playwright : bool) (page_loaded : string -> bool)
    (now : string -> nat -> Z) (ligas : option string) (margen stake : Q)
    : result (list SureBet) :=
  let league_filter := Scraper.league_filter ligas in
  let config := mkConfig margen (margen_maximo SUREBET_CONFIG) in
  let scraped :=
    if playwright
    then fold_left (scrape_step page_loaded now league_filter) BOOKMAKERS ([], [])
    else ([], []) in
  let st := Consolidation.consolidate (fst scraped) (snd scraped) in
  Detector.find_surebets config (Consolidation.match_list st) stake.

End Main.

(** ** Relations the further properties are stated with *)

Module Relations.

(** What one market adds to the result list of a call. *)
Definition market_result (config : Config) (T : Q) (m : Match)
    (item : string * list Odd) : list SureBet :=
  match Detector._analyze_market config m (fst item) (snd item) T with
  | Ok (Some sb) => [sb]
  | _ => []
  end.

(** The opportunities of all markets, matches first, markets second. *)
Definition scan (config : Config) (T : Q) (matches : list Match) : list SureBet :=
  flat_map (fun m => flat_map (market_result config T m) (odds m)) matches.

(** What an opportunity selects: the match, the market, the margin and
    for every outcome the bookmaker and the odds. *)
Definition selection (sb : SureBet)
    : Match * string * Q * list (string * string * Q) :=
  (sb_match sb, sb_market sb, sb_margin sb,
   map (fun r => (row_outcome r, row_bookmaker r, row_odds r)) (sb_stakes sb)).

(** Every quote list of [d] is a list of [d'] with quotes appended. *)
Definition extends (d d' : Dict.t (list Odd)) : Prop :=
  forall k l, Dict.get k d = Some l -> exists l2, Dict.get k d' = Some (l ++ l2).

(** Every quote list of [d] is a segment of the list of [d'] under the
    same market. *)
Definition included (d d' : Dict.t (list Odd)) : Prop :=
  forall k l, Dict.get k d = Some l ->
    exists l1 l2, Dict.get k d' = Some (l1 ++ l ++ l2).

(** The first match of [refs] that has the key [k]. *)
Fixpoint first_with_key (h : Consolidation.heap) (k : string)
    (refs : list Consolidation.ref) : option Consolidation.ref :=
  match refs with
  | [] => None
  | r :: rest =>
      match Consolidation.deref h r with
      | Some m => if String.eqb (Consolidation.key m) k then Some r
                  else first_with_key h k rest
      | None => first_with_key h k rest
      end
  end.

(** What the loop keeps for the quotes, after the matches [seen] of the
    heap [h0]: the quote lists of an object only grow at the end, an object
    that is no entry of [consolidated_matches] is as it was, the entry of
    a key is the first match seen with that key, and the quote lists of
    every match seen are segments of the lists of its entry. *)
Definition quotes_inv (h0 : Consolidation.heap)
    (st : Consolidation.heap * Dict.t Consolidation.ref)
    (seen : list Consolidation.ref) : Prop :=
  (forall r m0, Consolidation.deref h0 r = Some m0 ->
     exists m, Consolidation.deref (fst st) r = Some m /\
               extends (odds m0) (odds m)) /\
  (forall r, ~ In r (Dict.values (snd st)) ->
     Consolidation.deref (fst st) r = Consolidation.deref h0 r) /\
  (forall k, Dict.get k (snd st) = first_with_key h0 k seen) /\
  (forall r m0, In r seen -> Consolidation.deref h0 r = Some m0 ->
     exists e me,
       Dict.get (Consolidation.key m0) (snd st) = Some e /\
       Consolidation.deref (fst st) e = Some me /\
       included (odds m0) (odds me)).

End Relations.

(** ** Two bookmakers with different fixtures *)

Module Fixtures.

Local Open Scope string_scope.

(** The first two matches of the sample data as BetWarrior's, the third
    as Codere's; no clock is read. *)
Definition fixtures_heap : Consolidation.heap :=
  (firstn 2 (Scraper._get_sample_data "BetWarrior" (fun _ => 0%Z))
   ++ skipn 2 (Scraper._get_sample_data "Codere" (fun _ => 0%Z)))%list.

Definition fixtures_sources : Dict.t (list Consolidation.ref) :=
  [ ("BetWarrior", [0%nat; 1%nat]); ("Codere", [2%nat]) ].

End Fixtures.
Unset Implicit Arguments.

(** * Properties *)

(** ** The runtime model *)

Module PyFacts.

Lemma bind_Ok {A B} (c : result A) (k : A -> result B) (v : B) :
  Py.bind c k = Ok v -> exists a, c = Ok a /\ k a = Ok v.
Proof.
  destruct c as [a|e]; simpl; intros H; [eauto | discriminate].
Qed.

Lemma truediv_Ok (a b q : Q) :
  truediv a b = Ok q -> ~ b == 0 /\ q = a / b.
Proof.
  unfold truediv. destruct (Qeq_bool b 0) eqn:E; intros H; [discriminate|].
  injection H as <-. split; [|reflexivity].
  intros Hb. apply Qeq_bool_iff in Hb. congruence.
Qed.

Lemma truediv_nonzero (a b : Q) : ~ b == 0 -> truediv a b = Ok (a / b).
Proof.
  intros Hb. unfold truediv. destruct (Qeq_bool b 0) eqn:E; [|reflexivity].
  apply Qeq_bool_iff in E. contradiction.
Qed.

Lemma truediv_zero (a b : Q) : b == 0 -> truediv a b = Raise ZeroDivisionError.
Proof.
  intros Hb. unfold truediv. apply Qeq_bool_iff in Hb. now rewrite Hb.
Qed.

Lemma mapM_Ok {A B} (f : A -> result B) (xs : list A) (ys : list B) :
  mapM f xs = Ok ys -> Forall2 (fun x y => f x = Ok y) xs ys.
Proof.
  revert ys. induction xs as [|x xs IH]; simpl; intros ys H.
  - injection H as <-. constructor.
  - apply bind_Ok in H as (y & Hy & H). apply bind_Ok in H as (ys' & Hys & H).
    injection H as <-. constructor; auto.
Qed.

Lemma mapM_total {A B} (f : A -> result B) (g : A -> B) (xs : list A) :
  (forall x, In x xs -> f x = Ok (g x)) -> mapM f xs = Ok (map g xs).
Proof.
  induction xs as [|x xs IH]; simpl; intros H; [reflexivity|].
  rewrite (H x) by now left. simpl. rewrite IH; [reflexivity|].
  intros y Hy. apply H. now right.
Qed.

(** A loop whose body can only raise [e] returns or raises [e]; it raises
    as soon as one element does. *)
Lemma mapM_raises {A B} (f : A -> result B) (e : PyErr) (xs : list A) (x : A) :
  (forall y v, In y xs -> f y = Raise v -> v = e) ->
  In x xs -> f x = Raise e -> mapM f xs = Raise e.
Proof.
  induction xs as [|y xs IH]; simpl; intros Honly Hin Hx; [contradiction|].
  destruct (f y) as [b|v] eqn:Ey; simpl.
  - destruct Hin as [->|Hin]; [congruence|].
    rewrite IH; auto. intros z v Hz. apply Honly. now right.
  - f_equal. apply (Honly y v); [now left | exact Ey].
Qed.

(** What [max] returns: an element with the largest key, and the first
    such in the order of the list. *)
Lemma max_by_spec {A} (k : A -> Q) (xs : list A) (b : A) :
  max_by k xs = Ok b ->
  (forall y, In y xs -> k y <= k b) /\
  exists pre post, xs = pre ++ b :: post /\ forall y, In y pre -> k y < k b.
Proof.
  destruct xs as [|x l]; intros H; [discriminate|].
  unfold max_by in H. injection H as H. revert b H.
  induction l as [|y l IH] using rev_ind; intros b H.
  - simpl in H. subst b. split.
    + intros y [->|[]]. apply Qle_refl.
    + exists [], []. split; [reflexivity|]. intros y [].
  - rewrite fold_left_app in H. simpl in H.
    destruct (IH _ eq_refl) as (Hmax & pre & post & Hdec & Hpre).
    set (b0 := fold_left _ l x) in *.
    destruct (Qlt_le_dec (k b0) (k y)) as [Hlt|Hle]; subst b.
    + split.
      * intros z Hz. change (x :: l ++ [y]) with ((x :: l) ++ [y]) in Hz.
        apply in_app_or in Hz as [Hz|[->|[]]].
        -- apply Qlt_le_weak. eapply Qle_lt_trans; [apply Hmax, Hz|exact Hlt].
        -- apply Qle_refl.
      * exists (x :: l), []. split; [reflexivity|].
        intros z Hz. eapply Qle_lt_trans; [apply Hmax, Hz|exact Hlt].
    + split.
      * intros z Hz. change (x :: l ++ [y]) with ((x :: l) ++ [y]) in Hz.
        apply in_app_or in Hz as [Hz|[->|[]]]; auto.
      * exists pre, (post ++ [y]). split; [|exact Hpre].
        change (x :: l ++ [y]) with ((x :: l) ++ [y]).
        rewrite Hdec, <- app_assoc. reflexivity.
Qed.

Lemma max_by_total {A} (k : A -> Q) (xs : list A) :
  xs <> [] -> exists b, max_by k xs = Ok b.
Proof.
  destruct xs; [congruence|]. simpl. eauto.
Qed.

Lemma fold_Qplus_acc (l : list Q) (a : Q) :
  fold_left Qplus l a == a + Py.sum l.
Proof.
  unfold Py.sum. revert a. induction l as [|x l IH]; intros a; simpl.
  - ring.
  - rewrite (IH (a + x)), (IH (0 + x)). ring.
Qed.

Lemma sum_nil : Py.sum [] == 0.
Proof. reflexivity. Qed.

Lemma sum_cons (x : Q) (l : list Q) : Py.sum (x :: l) == x + Py.sum l.
Proof.
  unfold Py.sum at 1. simpl. rewrite fold_Qplus_acc. ring.
Qed.

(** A sum of scaled terms is the scaled sum. *)
Lemma sum_scale {A} (f : A -> Q) (c : Q) (l : list A) :
  Py.sum (map (fun x => f x * c) l) == Py.sum (map f l) * c.
Proof.
  induction l as [|x l IH]; simpl.
  - rewrite sum_nil. ring.
  - rewrite !sum_cons, IH. ring.
Qed.

Lemma sum_ext {A} (f g : A -> Q) (l : list A) :
  (forall x, In x l -> f x == g x) ->
  Py.sum (map f l) == Py.sum (map g l).
Proof.
  induction l as [|x l IH]; intros H; simpl.
  - reflexivity.
  - rewrite !sum_cons, IH, (H x); [reflexivity | now left |].
    intros y Hy. apply H. now right.
Qed.

Lemma sum_pos {A} (f : A -> Q) (l : list A) :
  l <> [] -> (forall x, In x l -> 0 < f x) -> 0 < Py.sum (map f l).
Proof.
  induction l as [|x l IH]; intros Hne H; [congruence|].
  simpl. rewrite sum_cons.
  assert (Hx : 0 < f x) by (apply H; now left).
  destruct l as [|y l].
  - simpl. rewrite sum_nil. lra.
  - assert (0 < Py.sum (map f (y :: l))).
    { apply IH; [discriminate|]. intros z Hz. apply H. now right. }
    lra.
Qed.

(** The distance of a sum of rounded terms to the sum of the terms. *)
Lemma sum_error {A} (f g : A -> Q) (eps : Q) (l : list A) :
  (forall x, In x l -> Qabs (f x - g x) <= eps) ->
  Qabs (Py.sum (map f l) - Py.sum (map g l)) <= inject_Z (Z.of_nat (List.length l)) * eps.
Proof.
  induction l as [|x l IH]; intros H.
  - cbn [map List.length]. change (inject_Z (Z.of_nat 0)) with 0.
    rewrite sum_nil. apply Qabs_Qle_condition. split; lra.
  - assert (Hx := H x (or_introl eq_refl)).
    assert (Hl : Qabs (Py.sum (map f l) - Py.sum (map g l))
                 <= inject_Z (Z.of_nat (List.length l)) * eps).
    { apply IH. intros y Hy. apply H. now right. }
    apply Qabs_Qle_condition in Hx. apply Qabs_Qle_condition in Hl.
    cbn [map List.length]. rewrite !sum_cons.
    rewrite Nat2Z.inj_succ. unfold Z.succ. rewrite inject_Z_plus.
    change (inject_Z 1) with 1.
    set (n := inject_Z (Z.of_nat (List.length l))) in *.
    assert (Hn : (n + 1) * eps == n * eps + eps) by ring.
    rewrite Hn. clear Hn IH. revert Hl. generalize (n * eps). intros b Hl.
    apply Qabs_Qle_condition. split; lra.
Qed.

Lemma round_half_even_error (x : Q) :
  Qabs (inject_Z (round_half_even x) - x) <= 1 # 2.
Proof.
  unfold round_half_even.
  assert (Hlo := Qfloor_le x). assert (Hhi := Qlt_floor x).
  rewrite inject_Z_plus in Hhi. change (inject_Z 1) with 1 in Hhi.
  apply Qabs_Qle_condition.
  destruct (Qcompare (x - inject_Z (Qfloor x)) (1 # 2)) eqn:E.
  - apply Qeq_alt in E.
    destruct (Z.even (Qfloor x));
      [|rewrite inject_Z_plus; change (inject_Z 1) with 1];
      revert E Hlo Hhi; generalize (inject_Z (Qfloor x)); intros; split; lra.
  - apply Qlt_alt in E.
    revert E Hlo Hhi; generalize (inject_Z (Qfloor x)); intros; split; lra.
  - apply Qgt_alt in E. rewrite inject_Z_plus. change (inject_Z 1) with 1.
    revert E Hlo Hhi; generalize (inject_Z (Qfloor x)); intros; split; lra.
Qed.

(** [round(x, 2)] moves a number by at most half a cent. *)
Lemma round2_error (x : Q) : Qabs (round2 x - x) <= 1 # 200.
Proof.
  unfold round2. assert (H := round_half_even_error (x * 100)).
  apply Qabs_Qle_condition in H. apply Qabs_Qle_condition.
  revert H. generalize (inject_Z (round_half_even (x * 100))). intros r H.
  unfold Qdiv. change (/ 100) with (1 # 100). split; lra.
Qed.

Lemma round2_comp (x y : Q) : x == y -> round2 x = round2 y.
Proof.
  intros H. unfold round2, round_half_even.
  assert (Hf : Qfloor (x * 100) = Qfloor (y * 100)) by (now rewrite H).
  rewrite Hf.
  assert (Hc : Qcompare (x * 100 - inject_Z (Qfloor (y * 100))) (1 # 2)
             = Qcompare (y * 100 - inject_Z (Qfloor (y * 100))) (1 # 2))
    by (now rewrite H).
  now rewrite Hc.
Qed.

End PyFacts.

(** ** Dictionaries *)

Module DictFacts.

Section Facts.
Variable V : Type.
Implicit Types (d : Dict.t V) (k : string) (v : V).

Lemma get_set_same k v d : Dict.get k (Dict.set k v d) = Some v.
Proof.
  induction d as [|[k' v'] d IH]; simpl.
  - now rewrite String.eqb_refl.
  - destruct (String.eqb k k') eqn:E; simpl; rewrite E; auto.
Qed.

Lemma get_set_other k k' v d :
  k' <> k -> Dict.get k' (Dict.set k v d) = Dict.get k' d.
Proof.
  intros Hne. induction d as [|[k0 v0] d IH]; simpl.
  - apply String.eqb_neq in Hne. now rewrite Hne.
  - destruct (String.eqb k k0) eqn:E; simpl.
    + apply String.eqb_eq in E. subst k0.
      apply String.eqb_neq in Hne. now rewrite Hne.
    + now rewrite IH.
Qed.

Lemma get_update_same k f d :
  Dict.get k (Dict.update k f d) = option_map f (Dict.get k d).
Proof.
  induction d as [|[k' v'] d IH]; simpl; [reflexivity|].
  destruct (String.eqb k k') eqn:E; simpl; rewrite E; auto.
Qed.

Lemma get_update_other k k' f d :
  k' <> k -> Dict.get k' (Dict.update k f d) = Dict.get k' d.
Proof.
  intros Hne. induction d as [|[k0 v0] d IH]; simpl; [reflexivity|].
  destruct (String.eqb k k0) eqn:E; simpl.
  - apply String.eqb_eq in E. subst k0.
    apply String.eqb_neq in Hne. now rewrite Hne.
  - now rewrite IH.
Qed.

Lemma keys_update k f d : Dict.keys (Dict.update k f d) = Dict.keys d.
Proof.
  induction d as [|[k' v'] d IH]; simpl; [reflexivity|].
  destruct (String.eqb k k'); simpl; [reflexivity | now rewrite IH].
Qed.

Lemma get_None_keys k d : Dict.get k d = None <-> ~ In k (Dict.keys d).
Proof.
  induction d as [|[k' v'] d IH]; simpl.
  - tauto.
  - destruct (String.eqb k k') eqn:E.
    + apply String.eqb_eq in E. subst. split; [discriminate | tauto].
    + apply String.eqb_neq in E. rewrite IH. split; [intros H [?|?]|]; intuition congruence.
Qed.

Lemma keys_set k v d :
  Dict.keys (Dict.set k v d)
  = if Dict.mem k d then Dict.keys d else Dict.keys d ++ [k].
Proof.
  unfold Dict.mem. induction d as [|[k' v'] d IH]; simpl; [reflexivity|].
  destruct (String.eqb k k') eqn:E; simpl; [reflexivity|].
  rewrite IH. now destruct (Dict.get k d).
Qed.

Lemma get_In k v d : Dict.get k d = Some v -> In (k, v) d.
Proof.
  induction d as [|[k' v'] d IH]; simpl; [discriminate|].
  destruct (String.eqb k k') eqn:E; intros H.
  - apply String.eqb_eq in E. injection H as ->. subst. now left.
  - right. auto.
Qed.

Lemma In_get k v d : NoDup (Dict.keys d) -> In (k, v) d -> Dict.get k d = Some v.
Proof.
  induction d as [|[k' v'] d IH]; simpl; intros Hnd Hin; [contradiction|].
  inversion Hnd as [|? ? Hnotin Hnd']; subst.
  destruct Hin as [Heq|Hin].
  - injection Heq as -> ->. now rewrite String.eqb_refl.
  - destruct (String.eqb k k') eqn:E.
    + apply String.eqb_eq in E. subst k'. exfalso. apply Hnotin.
      change k with (fst (k, v)). now apply in_map.
    + auto.
Qed.

End Facts.

(** A comprehension that returns keeps the keys and maps every value. *)
Lemma dict_mapM_Ok {V W} (f : V -> result W) (d : Dict.t V) (d' : Dict.t W) :
  Dict.mapM f d = Ok d' ->
  Forall2 (fun kv kw => fst kw = fst kv /\ f (snd kv) = Ok (snd kw)) d d'.
Proof.
  unfold Dict.mapM. intros H. apply PyFacts.mapM_Ok in H.
  induction H as [|kv kw d d' H1 H IH]; constructor; auto.
  apply PyFacts.bind_Ok in H1 as (w & Hw & Hk). injection Hk as <-. auto.
Qed.

Lemma dict_mapM_total {V W} (f : V -> result W) (g : V -> W) (d : Dict.t V) :
  (forall kv, In kv d -> f (snd kv) = Ok (g (snd kv))) ->
  Dict.mapM f d = Ok (map (fun kv => (fst kv, g (snd kv))) d).
Proof.
  intros H. unfold Dict.mapM. apply PyFacts.mapM_total.
  intros kv Hkv. now rewrite (H kv Hkv).
Qed.

End DictFacts.

(** ** Grouping and best-quote selection *)

Module GroupFacts.

Import Detector Spec.

Lemma mapM_exists {A B} (f : A -> result B) (xs : list A) :
  (forall x, In x xs -> exists y, f x = Ok y) -> exists ys, mapM f xs = Ok ys.
Proof.
  induction xs as [|x xs IH]; simpl; intros H; [eauto|].
  destruct (H x (or_introl eq_refl)) as (y & ->).
  destruct IH as (ys & ->); [intros z Hz; apply H; now right|].
  simpl. eauto.
Qed.

Lemma quotes_of_snoc (o : string) (l : list Odd) (q : Odd) :
  quotes_of o (l ++ [q])
  = quotes_of o l ++ (if String.eqb (outcome q) o then [q] else []).
Proof.
  unfold quotes_of. rewrite filter_app. reflexivity.
Qed.

Lemma group_snoc (l : list Odd) (q : Odd) :
  group_by_outcome (l ++ [q]) = group_step (group_by_outcome l) q.
Proof.
  unfold group_by_outcome. now rewrite fold_left_app.
Qed.

Lemma get_group_step (d : Dict.t (list Odd)) (q : Odd) (o : string) :
  Dict.get o (group_step d q)
  = if String.eqb (outcome q) o
    then Some (match Dict.get o d with Some g => g ++ [q] | None => [q] end)
    else Dict.get o d.
Proof.
  unfold group_step, Dict.mem.
  destruct (String.eqb (outcome q) o) eqn:E.
  - apply String.eqb_eq in E. subst o.
    rewrite DictFacts.get_update_same.
    destruct (Dict.get (outcome q) d) as [g|] eqn:G; simpl.
    + now rewrite G.
    + now rewrite DictFacts.get_set_same.
  - apply String.eqb_neq in E.
    rewrite DictFacts.get_update_other by congruence.
    destruct (Dict.get (outcome q) d); simpl; [reflexivity|].
    apply DictFacts.get_set_other. congruence.
Qed.

Lemma keys_group_step (d : Dict.t (list Odd)) (q : Odd) :
  Dict.keys (group_step d q)
  = if Dict.mem (outcome q) d then Dict.keys d else Dict.keys d ++ [outcome q].
Proof.
  unfold group_step. rewrite DictFacts.keys_update.
  destruct (Dict.mem (outcome q) d) eqn:E; simpl; [reflexivity|].
  now rewrite DictFacts.keys_set, E.
Qed.

(** The group of an outcome holds its quotes in list order; an outcome
    without quotes has no group. *)
Lemma get_group (l : list Odd) (o : string) :
  Dict.get o (group_by_outcome l)
  = match quotes_of o l with [] => None | g => Some g end.
Proof.
  induction l as [|q l IH] using rev_ind; [reflexivity|].
  rewrite group_snoc, get_group_step, quotes_of_snoc, IH.
  destruct (String.eqb (outcome q) o).
  - destruct (quotes_of o l); reflexivity.
  - now rewrite app_nil_r.
Qed.

Lemma NoDup_keys_group (l : list Odd) : NoDup (Dict.keys (group_by_outcome l)).
Proof.
  induction l as [|q l IH] using rev_ind; [constructor|].
  rewrite group_snoc, keys_group_step. unfold Dict.mem.
  destruct (Dict.get (outcome q) (group_by_outcome l)) eqn:E; [exact IH|].
  apply DictFacts.get_None_keys in E.
  apply NoDup_app; [exact IH | repeat constructor; intros [] |].
  intros a Ha [<-|[]]. contradiction.
Qed.

Lemma In_group (l : list Odd) (o : string) (g : list Odd) :
  In (o, g) (group_by_outcome l) -> g = quotes_of o l /\ g <> [].
Proof.
  intros H. apply DictFacts.In_get in H; [|apply NoDup_keys_group].
  rewrite get_group in H. destruct (quotes_of o l); [discriminate|].
  injection H as <-. split; [reflexivity | discriminate].
Qed.

Lemma In_keys_group (l : list Odd) (o : string) :
  In o (Dict.keys (group_by_outcome l)) <-> exists q, In q l /\ outcome q = o.
Proof.
  split.
  - intros H. destruct (Dict.get o (group_by_outcome l)) as [g|] eqn:E.
    + rewrite get_group in E. destruct (quotes_of o l) as [|q g'] eqn:F; [discriminate|].
      assert (Hq : In q (quotes_of o l)) by (rewrite F; now left).
      apply filter_In in Hq as (Hq & Ho). apply String.eqb_eq in Ho. eauto.
    + apply DictFacts.get_None_keys in E. contradiction.
  - intros (q & Hq & Ho).
    destruct (Dict.get o (group_by_outcome l)) as [g|] eqn:E.
    + apply DictFacts.get_In in E. change o with (fst (o, g)). now apply in_map.
    + rewrite get_group in E.
      assert (Hin : In q (quotes_of o l)).
      { apply filter_In. split; [exact Hq|]. now apply String.eqb_eq. }
      destruct (quotes_of o l); [contradiction | discriminate].
Qed.

(** Selection never raises: every group has a quote.  It keeps the
    outcomes, and the quote kept for an outcome is what [max] returns on
    the quotes of that outcome. *)
Lemma select_best_spec (l : list Odd) :
  exists best_odds,
    select_best (group_by_outcome l) = Ok best_odds /\
    Dict.keys best_odds = Dict.keys (group_by_outcome l) /\
    forall o b, In (o, b) best_odds -> max_by value (quotes_of o l) = Ok b.
Proof.
  unfold select_best.
  destruct (@mapM_exists _ _
              (fun kv : string * list Odd =>
                 Py.bind (max_by value (snd kv)) (fun w => Ok (fst kv, w)))
              (group_by_outcome l)) as (bo & Hbo).
  { intros [o g] Hin. apply In_group in Hin as (_ & Hne).
    destruct (PyFacts.max_by_total value g Hne) as (b & Hb).
    simpl. rewrite Hb. simpl. eauto. }
  exists bo. split; [exact Hbo|].
  apply DictFacts.dict_mapM_Ok in Hbo.
  assert (Hall : forall kv, In kv (group_by_outcome l) ->
                 snd kv = quotes_of (fst kv) l).
  { intros [o g] Hin. now apply In_group in Hin. }
  revert Hall. induction Hbo as [|[o g] [o' b] d d' (Ho & Hb) H IH]; intros Hall.
  - split; [reflexivity | intros ? ? []].
  - simpl in Ho, Hb. subst o'.
    destruct IH as (IHk & IHb); [intros kv Hkv; apply Hall; now right|].
    split.
    + unfold Dict.keys in *. simpl. now rewrite IHk.
    + intros o1 b1 [Heq|Hin]; [|now apply IHb].
      injection Heq as <- <-.
      assert (Hg := Hall (o, g) (or_introl eq_refl)). simpl in Hg.
      now rewrite <- Hg.
Qed.

Lemma NoDup_keys_best (l : list Odd) (best_odds : Dict.t Odd) :
  select_best (group_by_outcome l) = Ok best_odds -> NoDup (Dict.keys best_odds).
Proof.
  intros H. destruct (select_best_spec l) as (bo & Hbo & Hk & _).
  rewrite Hbo in H. injection H as <-. rewrite Hk. apply NoDup_keys_group.
Qed.

Lemma best_nil (l : list Odd) (best_odds : Dict.t Odd) :
  select_best (group_by_outcome l) = Ok best_odds -> best_odds = [] -> l = [].
Proof.
  intros H ->. destruct (select_best_spec l) as (bo & Hbo & Hk & _).
  rewrite Hbo in H. injection H as ->. simpl in Hk.
  destruct l as [|q l]; [reflexivity|].
  assert (Hin : In (outcome q) (Dict.keys (group_by_outcome (q :: l)))).
  { apply In_keys_group. exists q. split; [now left | reflexivity]. }
  rewrite <- Hk in Hin. contradiction.
Qed.

(** A selected quote is a quote of the market for that outcome. *)
Lemma best_In (l : list Odd) (best_odds : Dict.t Odd) (o : string) (b : Odd) :
  select_best (group_by_outcome l) = Ok best_odds ->
  In (o, b) best_odds -> In b l /\ outcome b = o.
Proof.
  intros H Hin. destruct (select_best_spec l) as (bo & Hbo & _ & Hb).
  rewrite Hbo in H. injection H as ->.
  apply Hb in Hin. apply PyFacts.max_by_spec in Hin as (_ & pre & post & Hdec & _).
  assert (Hq : In b (quotes_of o l)) by (rewrite Hdec; apply in_elt).
  apply filter_In in Hq as (Hq & Ho). apply String.eqb_eq in Ho. auto.
Qed.

End GroupFacts.

(** ** Margin and stake computation *)

Module DetectorFacts.

Import Detector Spec.

Ltac inv_bind H :=
  let a := fresh "a" in
  let Ha := fresh "Ha" in
  apply PyFacts.bind_Ok in H as (a & Ha & H).

Lemma weights_total (best_odds : Dict.t Odd) :
  nonzero_odds best_odds ->
  Dict.mapM (fun odd => truediv 1 (value odd)) best_odds
  = Ok (map (fun kv => (fst kv, 1 / value (snd kv))) best_odds).
Proof.
  intros H. apply (DictFacts.dict_mapM_total _ (fun odd => 1 / value odd)).
  intros kv Hkv. apply PyFacts.truediv_nonzero. now apply H.
Qed.

Lemma weights_Ok (best_odds : Dict.t Odd) (ws : Dict.t Q) :
  Dict.mapM (fun odd => truediv 1 (value odd)) best_odds = Ok ws ->
  nonzero_odds best_odds.
Proof.
  intros H. apply DictFacts.dict_mapM_Ok in H.
  induction H as [|kv kw d d' (_ & H1) H IH]; intros x Hx; [contradiction|].
  destruct Hx as [<-|Hx]; [|now apply IH].
  now apply PyFacts.truediv_Ok in H1.
Qed.

Lemma sum_inverse_total (best_odds : Dict.t Odd) :
  nonzero_odds best_odds -> sum_inverse best_odds = Ok (reciprocal_sum best_odds).
Proof.
  intros H. unfold sum_inverse, Dict.values, reciprocal_sum.
  rewrite (PyFacts.mapM_total _ (fun odd => 1 / value odd)).
  - simpl. now rewrite map_map.
  - intros odd Hodd. apply in_map_iff in Hodd as (kv & <- & Hkv).
    apply PyFacts.truediv_nonzero. now apply H.
Qed.

Lemma sum_inverse_Ok (best_odds : Dict.t Odd) (s : Q) :
  sum_inverse best_odds = Ok s ->
  nonzero_odds best_odds /\ s = reciprocal_sum best_odds.
Proof.
  intros H. assert (Hnz : nonzero_odds best_odds).
  { unfold sum_inverse in H. inv_bind H. clear H.
    apply PyFacts.mapM_Ok in Ha. unfold Dict.values in Ha.
    intros kv Hkv.
    assert (Hin : In (snd kv) (map snd best_odds)) by now apply in_map.
    revert Hin. generalize (snd kv). clear kv Hkv.
    induction Ha as [|x y xs ys H1 H IH]; intros odd Hodd; [contradiction|].
    destruct Hodd as [<-|Hodd]; [|now apply IH].
    now apply PyFacts.truediv_Ok in H1. }
  split; [exact Hnz|]. rewrite (sum_inverse_total _ Hnz) in H. congruence.
Qed.

(** A best quote with odds value zero makes the sum of reciprocals raise. *)
Lemma sum_inverse_zero (best_odds : Dict.t Odd) (kv : string * Odd) :
  In kv best_odds -> value (snd kv) == 0 ->
  sum_inverse best_odds = Raise ZeroDivisionError.
Proof.
  intros Hin Hz. unfold sum_inverse.
  rewrite (@PyFacts.mapM_raises _ _ (fun odd => truediv 1 (value odd))
             ZeroDivisionError (Dict.values best_odds) (snd kv)).
  - reflexivity.
  - intros y v _. unfold truediv. destruct (Qeq_bool (value y) 0); congruence.
  - unfold Dict.values. now apply in_map.
  - now apply PyFacts.truediv_zero.
Qed.

Lemma calculate_margin_total (best_odds : Dict.t Odd) :
  nonzero_odds best_odds ->
  _calculate_margin best_odds = Ok (margin_of (reciprocal_sum best_odds)).
Proof.
  intros H. unfold _calculate_margin, margin_of.
  rewrite (sum_inverse_total _ H). simpl.
  now destruct (Qle_bool 1 (reciprocal_sum best_odds)).
Qed.

Lemma calculate_margin_Ok (best_odds : Dict.t Odd) (margin : Q) :
  _calculate_margin best_odds = Ok margin ->
  nonzero_odds best_odds /\ margin = margin_of (reciprocal_sum best_odds).
Proof.
  intros H. assert (Hnz : nonzero_odds best_odds).
  { unfold _calculate_margin in H. inv_bind H.
    now apply sum_inverse_Ok in Ha. }
  split; [exact Hnz|]. rewrite (calculate_margin_total _ Hnz) in H. congruence.
Qed.

Lemma calculate_margin_zero (best_odds : Dict.t Odd) (kv : string * Odd) :
  In kv best_odds -> value (snd kv) == 0 ->
  _calculate_margin best_odds = Raise ZeroDivisionError.
Proof.
  intros Hin Hz. unfold _calculate_margin.
  now rewrite (sum_inverse_zero best_odds kv Hin Hz).
Qed.

Lemma total_weight_eq (best_odds : Dict.t Odd) :
  Py.sum (Dict.values (map (fun kv : string * Odd => (fst kv, 1 / value (snd kv)))
                           best_odds))
  = reciprocal_sum best_odds.
Proof.
  unfold Dict.values, reciprocal_sum. now rewrite map_map.
Qed.

Lemma get_weight (best_odds : Dict.t Odd) (o : string) (odd : Odd) :
  NoDup (Dict.keys best_odds) -> In (o, odd) best_odds ->
  Dict.get o (map (fun kv : string * Odd => (fst kv, 1 / value (snd kv))) best_odds)
  = Some (1 / value odd).
Proof.
  intros Hnd Hin. apply DictFacts.In_get.
  - unfold Dict.keys in *. now rewrite map_map.
  - apply in_map_iff. exists (o, odd). auto.
Qed.

(** The stake rows, one per best quote, when no division fails. *)
Lemma calculate_stakes_total (best_odds : Dict.t Odd) (T : Q) :
  NoDup (Dict.keys best_odds) -> nonzero_odds best_odds ->
  ~ reciprocal_sum best_odds == 0 ->
  _calculate_stakes best_odds T
  = Ok (map (row_of (reciprocal_sum best_odds) T) best_odds).
Proof.
  intros Hnd Hnz HW. unfold _calculate_stakes.
  rewrite (weights_total _ Hnz). simpl. rewrite total_weight_eq.
  apply PyFacts.mapM_total. intros [o odd] Hin. unfold stake_row.
  rewrite (get_weight _ _ _ Hnd Hin), (PyFacts.truediv_nonzero _ _ HW). reflexivity.
Qed.

Lemma calculate_stakes_nil (T : Q) : _calculate_stakes [] T = Ok [].
Proof. reflexivity. Qed.

(** With quotes present and a total weight of zero the first row raises. *)
Lemma calculate_stakes_zero_weight (best_odds : Dict.t Odd) (T : Q) :
  NoDup (Dict.keys best_odds) -> nonzero_odds best_odds -> best_odds <> [] ->
  reciprocal_sum best_odds == 0 ->
  _calculate_stakes best_odds T = Raise ZeroDivisionError.
Proof.
  intros Hnd Hnz Hne HW. unfold _calculate_stakes.
  rewrite (weights_total _ Hnz). simpl. rewrite total_weight_eq.
  destruct best_odds as [|[o odd] rest]; [congruence|].
  cbn [mapM]. unfold stake_row at 1.
  rewrite (get_weight _ _ _ Hnd (or_introl eq_refl)), (PyFacts.truediv_zero _ _ HW).
  reflexivity.
Qed.

Lemma calculate_stakes_Ok (best_odds : Dict.t Odd) (T : Q) (rows : list StakeRow) :
  NoDup (Dict.keys best_odds) ->
  _calculate_stakes best_odds T = Ok rows ->
  nonzero_odds best_odds /\
  (best_odds <> [] -> ~ reciprocal_sum best_odds == 0) /\
  rows = map (row_of (reciprocal_sum best_odds) T) best_odds.
Proof.
  intros Hnd H. assert (Hnz : nonzero_odds best_odds).
  { unfold _calculate_stakes in H. inv_bind H. now apply weights_Ok in Ha. }
  split; [exact Hnz|].
  destruct (Qeq_dec (reciprocal_sum best_odds) 0) as [HW|HW].
  - destruct best_odds as [|kv rest].
    + split; [congruence|]. rewrite calculate_stakes_nil in H.
      injection H as <-. reflexivity.
    + rewrite calculate_stakes_zero_weight in H; auto; discriminate.
  - split; [auto|]. rewrite calculate_stakes_total in H; auto. congruence.
Qed.

Lemma inverse_sum_rows (best_odds : Dict.t Odd) (W T : Q) :
  inverse_sum (map (row_of W T) best_odds) = reciprocal_sum best_odds.
Proof.
  unfold inverse_sum, reciprocal_sum. now rewrite map_map.
Qed.

End DetectorFacts.

(** ** One market and the whole call *)

Module AnalyzeFacts.

Import Detector Spec DetectorFacts.

Section Market.
Variables (config : Config) (m : Match) (market : string).
Variables (odds_list : list Odd) (T : Q) (best_odds : Dict.t Odd).
Hypothesis Hbest : select_best (group_by_outcome odds_list) = Ok best_odds.

Let W := reciprocal_sum best_odds.

Lemma analyze_zero_odd (kv : string * Odd) :
  In kv best_odds -> value (snd kv) == 0 ->
  _analyze_market config m market odds_list T = Raise ZeroDivisionError.
Proof.
  intros Hin Hz. unfold _analyze_market. rewrite Hbest. simpl.
  now rewrite (calculate_margin_zero best_odds kv Hin Hz).
Qed.

Lemma analyze_reject_low :
  nonzero_odds best_odds -> margin_of W < margen_minimo config ->
  _analyze_market config m market odds_list T = Ok None.
Proof.
  intros Hnz Hlow. unfold _analyze_market. rewrite Hbest. simpl.
  rewrite (calculate_margin_total _ Hnz). simpl.
  destruct (Qlt_le_dec _ _) as [_|Hge]; [reflexivity|].
  exfalso. apply (Qlt_not_le _ _ Hlow Hge).
Qed.

Lemma analyze_reject_high :
  nonzero_odds best_odds -> margen_maximo config < margin_of W ->
  _analyze_market config m market odds_list T = Ok None.
Proof.
  intros Hnz Hhigh. unfold _analyze_market. rewrite Hbest. simpl.
  rewrite (calculate_margin_total _ Hnz). simpl.
  destruct (Qlt_le_dec _ _) as [_|_]; [reflexivity|].
  destruct (Qlt_le_dec _ _) as [_|Hle]; [reflexivity|].
  exfalso. apply (Qlt_not_le _ _ Hhigh Hle).
Qed.

Lemma analyze_in_range :
  nonzero_odds best_odds ->
  margen_minimo config <= margin_of W <= margen_maximo config ->
  _analyze_market config m market odds_list T
  = (stakes <- _calculate_stakes best_odds T ;;
     guaranteed_profit <- _calculate_profit stakes best_odds ;;
     q <- truediv guaranteed_profit T ;;
     Ok (Some (mkSureBet m market (margin_of W) (q * 100) stakes T
                         guaranteed_profit))).
Proof.
  intros Hnz (Hlo & Hhi). unfold _analyze_market. rewrite Hbest. simpl.
  rewrite (calculate_margin_total _ Hnz). simpl. fold W.
  destruct (Qlt_le_dec _ _) as [Hlt|_].
  { exfalso. apply (Qlt_not_le _ _ Hlt Hlo). }
  destruct (Qlt_le_dec _ _) as [Hlt|_].
  { exfalso. apply (Qlt_not_le _ _ Hlt Hhi). }
  reflexivity.
Qed.

Lemma profit_rows (kv : string * Odd) (rest bo : Dict.t Odd) (W' : Q) :
  _calculate_profit (map (row_of W' T) (kv :: rest)) bo
  = Ok (profit_of (map (row_of W' T) (kv :: rest))).
Proof. reflexivity. Qed.

(** A market within the margin range, with quotes, non-zero odds, weight
    and stake, yields the opportunity [surebet_of]. *)
Lemma analyze_accepts :
  nonzero_odds best_odds -> best_odds <> [] -> ~ W == 0 -> ~ T == 0 ->
  margen_minimo config <= margin_of W <= margen_maximo config ->
  _analyze_market config m market odds_list T
  = Ok (Some (surebet_of m market best_odds T)).
Proof.
  intros Hnz Hne HW HT Hrange. rewrite (analyze_in_range Hnz Hrange).
  rewrite (calculate_stakes_total best_odds T
             (GroupFacts.NoDup_keys_best odds_list best_odds Hbest) Hnz HW).
  fold W. destruct best_odds as [|kv rest]; [congruence|].
  cbn [Py.bind]. rewrite profit_rows. cbn [Py.bind].
  rewrite (PyFacts.truediv_nonzero _ _ HT). reflexivity.
Qed.

(** Zero total stake on a market that passes the margin filter raises. *)
Lemma analyze_zero_stake :
  nonzero_odds best_odds -> best_odds <> [] -> ~ W == 0 -> T == 0 ->
  margen_minimo config <= margin_of W <= margen_maximo config ->
  _analyze_market config m market odds_list T = Raise ZeroDivisionError.
Proof.
  intros Hnz Hne HW HT Hrange. rewrite (analyze_in_range Hnz Hrange).
  rewrite (calculate_stakes_total best_odds T
             (GroupFacts.NoDup_keys_best odds_list best_odds Hbest) Hnz HW).
  fold W. destruct best_odds as [|kv rest]; [congruence|].
  cbn [Py.bind]. rewrite profit_rows. cbn [Py.bind].
  rewrite (PyFacts.truediv_zero _ _ HT). reflexivity.
Qed.

(** What an accepted market looks like. *)
Lemma analyze_accept_inv (sb : SureBet) :
  _analyze_market config m market odds_list T = Ok (Some sb) ->
  nonzero_odds best_odds /\ best_odds <> [] /\ ~ W == 0 /\ ~ T == 0 /\
  margen_minimo config <= margin_of W <= margen_maximo config /\
  sb = surebet_of m market best_odds T.
Proof.
  intros H. pose proof H as H0. unfold _analyze_market in H.
  rewrite Hbest in H. cbn [Py.bind] in H.
  inv_bind H. apply calculate_margin_Ok in Ha as (Hnz & ->). fold W in H.
  destruct (Qlt_le_dec _ _) as [_|Hlo]; [discriminate|].
  destruct (Qlt_le_dec _ _) as [_|Hhi]; [discriminate|].
  inv_bind H. rename a into rows.
  apply calculate_stakes_Ok in Ha as (_ & HW & ->);
    [|apply (GroupFacts.NoDup_keys_best odds_list); exact Hbest].
  inv_bind H. inv_bind H. apply PyFacts.truediv_Ok in Ha0 as (HT & _).
  assert (Hne : best_odds <> []).
  { intros E. rewrite E in Ha. discriminate. }
  specialize (HW Hne). fold W in HW.
  repeat (split; [assumption|]). split; [now split|].
  rewrite (analyze_accepts Hnz Hne HW HT (conj Hlo Hhi)) in H0. congruence.
Qed.

End Market.

(** Positive quotes give non-zero best odds and a positive weight. *)
Lemma positive_best (odds_list : list Odd) (best_odds : Dict.t Odd) :
  select_best (group_by_outcome odds_list) = Ok best_odds ->
  (forall q, In q odds_list -> 0 < value q) ->
  nonzero_odds best_odds /\ (best_odds <> [] -> 0 < reciprocal_sum best_odds).
Proof.
  intros Hbest Hpos.
  assert (Hp : forall kv, In kv best_odds -> 0 < value (snd kv)).
  { intros [o b] Hin. apply (GroupFacts.best_In _ _ _ _ Hbest) in Hin as (Hin & _).
    now apply Hpos. }
  split.
  - intros kv Hkv Hz. specialize (Hp kv Hkv). rewrite Hz in Hp.
    now apply Qlt_irrefl in Hp.
  - intros Hne. unfold reciprocal_sum. apply PyFacts.sum_pos; [exact Hne|].
    intros kv Hkv. specialize (Hp kv Hkv).
    unfold Qdiv. rewrite Qmult_1_l. now apply Qinv_lt_0_compat.
Qed.

Section Loops.
Variables (A B : Type) (f : list B -> A -> result (list B)).

Lemma foldM_In (R : A -> B -> Prop) :
  (forall s x s' b, f s x = Ok s' -> In b s' -> In b s \/ R x b) ->
  forall xs s s' b, foldM f xs s = Ok s' -> In b s' ->
    In b s \/ exists x, In x xs /\ R x b.
Proof.
  intros Hstep xs. induction xs as [|x xs IH]; simpl; intros s s' b H Hb.
  - injection H as <-. now left.
  - inv_bind H. destruct (IH _ _ _ H Hb) as [Hin|(y & Hy & HR)].
    + destruct (Hstep _ _ _ _ Ha Hin) as [?|?]; [now left|].
      right. exists x. auto.
    + right. exists y. auto.
Qed.


Lemma foldM_raises (xs : list A) (x : A) :
  In x xs -> (forall s, raises (f s x)) -> forall s, raises (foldM f xs s).
Proof.
  intros Hin Hx. induction xs as [|y xs IH]; [contradiction|]. intros s. simpl.
  destruct (f s y) as [s'|e] eqn:E; simpl; [|exact I].
  destruct Hin as [->|Hin]; [|now apply IH].
  specialize (Hx s). rewrite E in Hx. contradiction.
Qed.

Lemma foldM_returns (xs : list A) :
  (forall x s, In x xs -> returns (f s x)) -> forall s, returns (foldM f xs s).
Proof.
  induction xs as [|y xs IH]; intros H s; simpl; [exact I|].
  assert (Hy := H y s (or_introl eq_refl)).
  destruct (f s y) as [s'|e]; simpl; [|contradiction].
  apply IH. intros x s0 Hx. apply H. now right.
Qed.

End Loops.

Section Call.
Variables (config : Config) (T : Q).

Let yields := Spec.yields config T.

Lemma market_step_Ok (m : Match) (s s' : list SureBet) (item : string * list Odd) :
  market_step config m T s item = Ok s' ->
  exists r, _analyze_market config m (fst item) (snd item) T = Ok r /\
            s' = s ++ match r with Some sb => [sb] | None => [] end.
Proof.
  destruct item as [market ol]. unfold market_step. intros H. inv_bind H.
  exists a. split; [exact Ha|]. destruct a; injection H as <-; [reflexivity|].
  now rewrite app_nil_r.
Qed.

Lemma match_step_In (m : Match) (s s' : list SureBet) (sb : SureBet) :
  match_step config T s m = Ok s' -> In sb s' -> In sb s \/ yields m sb.
Proof.
  intros H Hin. unfold match_step in H.
  destruct (foldM_In _ _ (market_step config m T)
              (fun item sb => _analyze_market config m (fst item) (snd item) T
                              = Ok (Some sb))) with (xs := odds m) (s := s)
              (s' := s') (b := sb)
    as [?|([market ol] & Hitem & HR)]; auto.
  - intros s0 x s0' b Hs Hb. apply market_step_Ok in Hs as (r & Hr & ->).
    apply in_app_or in Hb as [?|Hb]; [now left|]. right.
    destruct r; [|contradiction]. destruct Hb as [<-|[]]. exact Hr.
  - right. exists market, ol. auto.
Qed.


(** Every opportunity of the result comes from a market of the input. *)
Lemma find_surebets_In (matches : list Match) (sbs : list SureBet) (sb : SureBet) :
  find_surebets config matches T = Ok sbs -> In sb sbs ->
  exists m, In m matches /\ yields m sb.
Proof.
  intros H Hin. unfold find_surebets in H.
  destruct (foldM_In _ _ (match_step config T) yields) with (xs := matches)
    (s := @nil SureBet) (s' := sbs) (b := sb) as [[]|?]; auto.
  intros s x s' b. apply match_step_In.
Qed.


(** One raising market makes the whole call raise. *)
Lemma find_surebets_raises (matches : list Match) (m : Match)
    (market : string) (odds_list : list Odd) :
  In m matches -> In (market, odds_list) (odds m) ->
  raises (_analyze_market config m market odds_list T) ->
  raises (find_surebets config matches T).
Proof.
  intros Hm Hitem Hr. unfold find_surebets.
  apply (foldM_raises _ _ _ matches m Hm). intros s. unfold match_step.
  apply (foldM_raises _ _ _ (odds m) (market, odds_list) Hitem). intros s0.
  unfold market_step.
  destruct (_analyze_market config m market odds_list T); [contradiction|exact I].
Qed.

(** If no market raises the call returns. *)
Lemma find_surebets_returns (matches : list Match) :
  (forall m market odds_list, In m matches -> In (market, odds_list) (odds m) ->
     returns (_analyze_market config m market odds_list T)) ->
  returns (find_surebets config matches T).
Proof.
  intros H. unfold find_surebets. apply foldM_returns. intros m s Hm.
  unfold match_step. apply foldM_returns. intros [market ol] s0 Hitem.
  unfold market_step. specialize (H m market ol Hm Hitem).
  destruct (_analyze_market config m market ol T) as [[sb|]|e];
    [exact I | exact I | contradiction].
Qed.

End Call.

End AnalyzeFacts.

(** ** The stake split of an accepted market *)

Module SplitFacts.

Import Detector Spec DetectorFacts.

Section Split.
Variables (m : Match) (market : string) (best_odds : Dict.t Odd) (T : Q).
Hypothesis Hnz : nonzero_odds best_odds.
Hypothesis HW : ~ reciprocal_sum best_odds == 0.

Let W := reciprocal_sum best_odds.
Let sb := surebet_of m market best_odds T.

Lemma row_in (r : StakeRow) :
  In r (sb_stakes sb) ->
  exists kv, In kv best_odds /\ r = row_of W T kv /\
             exact_stake sb r = 1 / value (snd kv) / W * T.
Proof.
  unfold sb, surebet_of. cbn [sb_stakes]. intros Hin.
  apply in_map_iff in Hin as (kv & <- & Hkv). exists kv.
  repeat split; [exact Hkv|]. unfold exact_stake. cbn [sb_stakes sb_total_stake].
  rewrite inverse_sum_rows. reflexivity.
Qed.

Lemma exact_stakes_eq :
  map (exact_stake sb) (sb_stakes sb)
  = map (fun kv : string * Odd => 1 / value (snd kv) / W * T) best_odds.
Proof.
  unfold sb, surebet_of. cbn [sb_stakes]. rewrite map_map.
  apply map_ext. intros kv. unfold exact_stake. cbn [sb_stakes sb_total_stake].
  rewrite inverse_sum_rows. reflexivity.
Qed.

(** The unrounded stakes add up to the total stake. *)
Lemma exact_stakes_sum : Py.sum (map (exact_stake sb) (sb_stakes sb)) == T.
Proof.
  rewrite exact_stakes_eq.
  rewrite (PyFacts.sum_ext _ (fun kv => 1 / value (snd kv) * (/ W * T))).
  - rewrite PyFacts.sum_scale. fold (reciprocal_sum best_odds). fold W.
    field. exact HW.
  - intros kv _. unfold Qdiv. ring.
Qed.

(** Every outcome pays the same before rounding. *)
Lemma exact_return (r : StakeRow) :
  In r (sb_stakes sb) -> exact_stake sb r * row_odds r == common_return sb.
Proof.
  intros Hin. destruct (row_in r Hin) as (kv & Hkv & -> & ->).
  unfold common_return, sb, surebet_of. cbn [sb_stakes sb_total_stake row_odds row_of].
  rewrite inverse_sum_rows. fold W. field. split; [exact HW | now apply Hnz].
Qed.

(** What the rows store is the rounding of the unrounded values. *)
Lemma stored_values (r : StakeRow) :
  In r (sb_stakes sb) ->
  row_stake r = round2 (exact_stake sb r) /\
  row_expected_return r = round2 (exact_stake sb r * row_odds r).
Proof.
  intros Hin. destruct (row_in r Hin) as (kv & Hkv & -> & ->). split; reflexivity.
Qed.

Lemma stored_stake_error (r : StakeRow) :
  In r (sb_stakes sb) -> Qabs (row_stake r - exact_stake sb r) <= 1 # 200.
Proof.
  intros Hin. destruct (stored_values r Hin) as (-> & _). apply PyFacts.round2_error.
Qed.

Lemma stored_sum_error :
  Qabs (Py.sum (map row_stake (sb_stakes sb)) - T)
  <= inject_Z (Z.of_nat (List.length (sb_stakes sb))) * (1 # 200).
Proof.
  rewrite <- exact_stakes_sum at 1.
  apply PyFacts.sum_error. intros r Hr. now apply stored_stake_error.
Qed.


End Split.

End SplitFacts.

(** ** Opportunities of a call *)

Module EmittedFacts.

Import Detector Spec.

(** An emitted opportunity is [surebet_of] the best quotes of one market
    of the input, and that market passed every division and the filter. *)
Lemma emitted_inv (config : Config) (matches : list Match) (T : Q)
    (sbs : list SureBet) (sb : SureBet) :
  find_surebets config matches T = Ok sbs -> In sb sbs ->
  exists m market odds_list best_odds,
    In m matches /\ In (market, odds_list) (odds m) /\
    select_best (group_by_outcome odds_list) = Ok best_odds /\
    nonzero_odds best_odds /\ best_odds <> [] /\
    ~ reciprocal_sum best_odds == 0 /\ ~ T == 0 /\
    margen_minimo config <= margin_of (reciprocal_sum best_odds)
                         <= margen_maximo config /\
    sb = surebet_of m market best_odds T.
Proof.
  intros H Hin.
  destruct (AnalyzeFacts.find_surebets_In config T matches sbs sb H Hin)
    as (m & Hm & market & ol & Hitem & Han).
  destruct (GroupFacts.select_best_spec ol) as (bo & Hbo & _).
  destruct (AnalyzeFacts.analyze_accept_inv config m market ol T bo Hbo sb Han)
    as (Hnz & Hne & HW & HT & Hrange & ->).
  exists m, market, ol, bo. repeat (split; [assumption|]). reflexivity.
Qed.

(** A market with a quote, positive odds and a non-zero stake never
    raises: it is accepted inside the margin range and rejected outside. *)
Lemma positive_market (config : Config) (m : Match) (market : string)
    (odds_list : list Odd) (T : Q) (best_odds : Dict.t Odd) :
  select_best (group_by_outcome odds_list) = Ok best_odds ->
  odds_list <> [] -> (forall q, In q odds_list -> 0 < value q) -> ~ T == 0 ->
  (margen_minimo config <= margin_of (reciprocal_sum best_odds)
                        <= margen_maximo config ->
   _analyze_market config m market odds_list T
   = Ok (Some (surebet_of m market best_odds T))) /\
  (~ margen_minimo config <= margin_of (reciprocal_sum best_odds)
                          <= margen_maximo config ->
   _analyze_market config m market odds_list T = Ok None) /\
  returns (_analyze_market config m market odds_list T).
Proof.
  intros Hbo Hne Hpos HT. set (bo := best_odds) in *.
  destruct (AnalyzeFacts.positive_best odds_list bo Hbo Hpos) as (Hnz & HWpos).
  assert (Hbne : bo <> []).
  { intros E. apply Hne. exact (GroupFacts.best_nil odds_list bo Hbo E). }
  assert (HW : ~ reciprocal_sum bo == 0).
  { intros E. specialize (HWpos Hbne). rewrite E in HWpos.
    now apply Qlt_irrefl in HWpos. }
  assert (Hin : margen_minimo config <= margin_of (reciprocal_sum bo)
                                     <= margen_maximo config ->
                _analyze_market config m market odds_list T
                = Ok (Some (surebet_of m market bo T))).
  { intros Hr. now apply AnalyzeFacts.analyze_accepts. }
  assert (Hout : ~ margen_minimo config <= margin_of (reciprocal_sum bo)
                                        <= margen_maximo config ->
                 _analyze_market config m market odds_list T = Ok None).
  { intros Hr.
    destruct (Qlt_le_dec (margin_of (reciprocal_sum bo)) (margen_minimo config))
      as [Hlow|Hlo].
    - now apply (AnalyzeFacts.analyze_reject_low config m market odds_list T bo).
    - destruct (Qlt_le_dec (margen_maximo config) (margin_of (reciprocal_sum bo)))
        as [Hhigh|Hhi].
      + now apply (AnalyzeFacts.analyze_reject_high config m market odds_list T bo).
      + exfalso. apply Hr. now split. }
  split; [exact Hin|]. split; [exact Hout|].
  destruct (Qlt_le_dec (margin_of (reciprocal_sum bo)) (margen_minimo config))
    as [Hlow|Hlo]; [rewrite Hout; [exact I|]|].
  - intros (Hlo & _). apply (Qlt_not_le _ _ Hlow Hlo).
  - destruct (Qlt_le_dec (margen_maximo config) (margin_of (reciprocal_sum bo)))
      as [Hhigh|Hhi]; [rewrite Hout; [exact I|]|].
    + intros (_ & Hhi). apply (Qlt_not_le _ _ Hhigh Hhi).
    + rewrite Hin; [exact I | now split].
Qed.

End EmittedFacts.

(** * The claims *)

(** ** Stored amounts against the exact ones *)

Module CentFacts.

Import Detector Spec.

Section Cents.
Variables (m : Match) (market : string) (best_odds : Dict.t Odd) (T : Q).
Hypothesis Hnz : nonzero_odds best_odds.
Hypothesis HW : ~ reciprocal_sum best_odds == 0.
Let sb := surebet_of m market best_odds T.

(** A stored amount is a whole number of cents. *)
Lemma stored_cents (r : StakeRow) :
  In r (sb_stakes sb) ->
  (exists z, row_stake r = inject_Z z / 100) /\
  (exists z, row_expected_return r = inject_Z z / 100).
Proof.
  intros Hr. destruct (SplitFacts.stored_values m market best_odds T r Hr)
    as (E1 & E2).
  split; eexists; [rewrite E1 | rewrite E2]; reflexivity.
Qed.

Lemma stored_expected_return_error (r : StakeRow) :
  In r (sb_stakes sb) ->
  Qabs (row_expected_return r - exact_stake sb r * row_odds r) <= 1 # 200.
Proof.
  intros Hr. destruct (SplitFacts.stored_values m market best_odds T r Hr)
    as (_ & ->).
  apply PyFacts.round2_error.
Qed.

Lemma stored_common_return_error (r : StakeRow) :
  In r (sb_stakes sb) ->
  Qabs (row_expected_return r - common_return sb) <= 1 # 200.
Proof.
  intros Hr.
  assert (E := SplitFacts.exact_return m market best_odds T Hnz HW r Hr).
  assert (H := stored_expected_return_error r Hr).
  fold sb in E. apply Qabs_Qle_condition in H. apply Qabs_Qle_condition.
  split; lra.
Qed.

End Cents.

End CentFacts.

Import Detector Spec Examples.



Ltac q_differs :=
  let H := fresh "H" in intros H; vm_compute in H; discriminate H.

(** C2.  With the minimum margin at 0, as [--margen 0] sets it, a market
    whose reciprocal best odds add up to more than 1 (two outcomes at
    1.50) is reported.  Its margin is computed on the branch of
    [_calculate_margin] that the source marks as no arbitrage: it is 0,
    not (1 - 4/3) * 100; 0 is not below the minimum, so the filter lets
    the market pass, and the opportunity carries a guaranteed profit of
    -25 on a stake of 100.  Under the default minimum of 1 the same
    market is rejected. *)
Theorem zero_minimum_reports_overround_market :
  margen_minimo config_from_zero == 0 /\
  select_best (group_by_outcome overround_odds) = Ok overround_best /\
  (exists s, sum_inverse overround_best = Ok s /\ 1 < s) /\
  _calculate_margin overround_best = Ok 0 /\
  exists sb,
    find_surebets config_from_zero [overround_match] 100 = Ok [sb] /\
    sb_margin sb == 0 /\
    (1 - inverse_sum (sb_stakes sb)) * 100 == - (100 # 3) /\
    ~ sb_margin sb == (1 - inverse_sum (sb_stakes sb)) * 100 /\
    sb_guaranteed_profit sb == - 25 /\
    find_surebets SUREBET_CONFIG [overround_match] 100 = Ok [].
Proof.
  split; [reflexivity|]. split; [vm_compute; reflexivity|].
  split.
  { eexists. split; [reflexivity | vm_compute; reflexivity]. }
  split; [vm_compute; reflexivity|].
  exists (surebet_of overround_match "1X2" overround_best 100).
  split; [vm_compute; reflexivity|].
  split; [vm_compute; reflexivity|].
  split; [vm_compute; reflexivity|].
  split; [q_differs|].
  split; vm_compute; reflexivity.
Qed.

(** C5.  With the minimum margin at 0 (a valid range: min >= 0,
    max > min) the market at the exact boundary, two outcomes at 2.00
    whose reciprocals add up to 1, is reported: its margin is computed as
    0 on the branch the source marks as no arbitrage, 0 is not below the
    minimum, and the opportunity comes out with margin 0 and a guaranteed
    profit of 0.  Under the default minimum of 1 the same market is
    rejected. *)
Theorem zero_minimum_reports_boundary_market :
  0 <= margen_minimo config_from_zero /\
  margen_minimo config_from_zero < margen_maximo config_from_zero /\
  select_best (group_by_outcome fair_odds) = Ok fair_best /\
  (exists s, sum_inverse fair_best = Ok s /\ s == 1) /\
  _calculate_margin fair_best = Ok 0 /\
  exists sb,
    find_surebets config_from_zero [fair_match] 100 = Ok [sb] /\
    sb_margin sb == 0 /\ sb_guaranteed_profit sb == 0 /\
    find_surebets SUREBET_CONFIG [fair_match] 100 = Ok [].
Proof.
  split; [vm_compute; discriminate|]. split; [reflexivity|].
  split; [vm_compute; reflexivity|].
  split; [eexists; split; [reflexivity | vm_compute; reflexivity]|].
  split; [vm_compute; reflexivity|].
  exists (surebet_of fair_match "1X2" fair_best 100).
  split; [vm_compute; reflexivity|].
  split; [vm_compute; reflexivity|].
  split; vm_compute; reflexivity.
Qed.

(** C10.  A market with an empty quote list: the sum of reciprocals over
    no outcome is 0, the margin is 100, and with a maximum margin below
    100 the analysis returns no opportunity instead of reaching
    [stakes[0]] on an empty list. *)
Theorem empty_market_is_rejected
    (config : Config) (m : Match) (market : string) (T : Q) :
  margen_maximo config < 100 ->
  sum_inverse [] = Ok 0 /\
  (exists margin, _calculate_margin [] = Ok margin /\ margin == 100) /\
  _analyze_market config m market [] T = Ok None.
Proof.
  intros Hmax. split; [reflexivity|]. split.
  - eexists. split; [reflexivity | vm_compute; reflexivity].
  - apply (AnalyzeFacts.analyze_reject_high config m market [] T []).
    + reflexivity.
    + intros kv [].
    + assert (E : margin_of (reciprocal_sum []) == 100) by (vm_compute; reflexivity).
      now rewrite E.
Qed.

Lemma empty_market_is_rejected_witness :
  _analyze_market SUREBET_CONFIG demo_match "1X2" [] 10000 = Ok None.
Proof.
  apply (empty_market_is_rejected SUREBET_CONFIG demo_match "1X2" 10000).
  reflexivity.
Defined.

(** C7, as stated: the guaranteed profit is the exact common payout minus
    the total stake.  On the market of the demo (2.50 / 3.60 / 3.30, stake
    10000) the detector reports 195.67, the exact value is 190000/971. *)
Lemma exact_profit_counterexample :
  find_surebets SUREBET_CONFIG [demo_match] 10000 = Ok [demo_surebet] /\
  sb_guaranteed_profit demo_surebet == 19567 # 100 /\
  common_return demo_surebet - sb_total_stake demo_surebet == 190000 # 971 /\
  ~ sb_guaranteed_profit demo_surebet
    == common_return demo_surebet - sb_total_stake demo_surebet.
Proof.
  split; [vm_compute; reflexivity|].
  split; [vm_compute; reflexivity|].
  split; [vm_compute; reflexivity | q_differs].
Qed.

(** C7, amended.  The stake rows already hold rounded amounts: every
    stored stake and expected return is a whole number of cents within
    half a cent of the amount before rounding.  The guaranteed profit is
    computed from the rows: it is the stored expected return of the first
    row minus the sum of the stored stakes.  It differs from the exact
    common payout minus the total stake by at most half a cent per row
    plus half a cent.  The ROI is the guaranteed profit divided by the
    total stake, times 100. *)
Theorem profit_from_rounded_rows
    (config : Config) (matches : list Match) (T : Q)
    (sbs : list SureBet) (sb : SureBet) :
  find_surebets config matches T = Ok sbs -> In sb sbs ->
  let rows := sb_stakes sb in
  (forall r, In r rows ->
     (exists z, row_stake r = inject_Z z / 100) /\
     (exists z, row_expected_return r = inject_Z z / 100) /\
     Qabs (row_stake r - exact_stake sb r) <= 1 # 200 /\
     Qabs (row_expected_return r - exact_stake sb r * row_odds r) <= 1 # 200) /\
  (exists s0 rest, rows = s0 :: rest /\
     sb_guaranteed_profit sb
     = row_expected_return s0 - Py.sum (map row_stake rows)) /\
  Qabs (sb_guaranteed_profit sb - (common_return sb - sb_total_stake sb))
    <= (inject_Z (Z.of_nat (List.length rows)) + 1) * (1 # 200) /\
  sb_roi sb = sb_guaranteed_profit sb / sb_total_stake sb * 100.
Proof.
  intros H Hin rows.
  destruct (EmittedFacts.emitted_inv config matches T sbs sb H Hin)
    as (m & market & ol & bo & _ & _ & _ & Hnz & Hne & HW & HT & _ & Hsb).
  subst sb rows.
  split.
  { intros r Hr.
    destruct (CentFacts.stored_cents m market bo T r Hr) as (Hc1 & Hc2).
    split; [exact Hc1|]. split; [exact Hc2|].
    split; [now apply SplitFacts.stored_stake_error|].
    now apply CentFacts.stored_expected_return_error. }
  assert (Hsum := SplitFacts.stored_sum_error m market bo T HW).
  assert (Hret := CentFacts.stored_common_return_error m market bo T Hnz HW).
  set (sb := surebet_of m market bo T) in *.
  assert (Hrows : exists s0 rest, sb_stakes sb = s0 :: rest /\
            sb_guaranteed_profit sb
            = row_expected_return s0 - Py.sum (map row_stake (sb_stakes sb))).
  { destruct bo as [|kv rest]; [congruence|].
    exists (row_of (reciprocal_sum (kv :: rest)) T kv),
           (map (row_of (reciprocal_sum (kv :: rest)) T) rest).
    split; reflexivity. }
  split; [exact Hrows|]. split; [|reflexivity].
  destruct Hrows as (s0 & rest & Hrows & ->).
  assert (Hs0 : In s0 (sb_stakes sb)) by (rewrite Hrows; now left).
  assert (Hr0 := Hret s0 Hs0).
  change (sb_total_stake sb) with T.
  apply Qabs_Qle_condition in Hr0. apply Qabs_Qle_condition in Hsum.
  revert Hsum. generalize (inject_Z (Z.of_nat (List.length (sb_stakes sb)))).
  intros n Hsum. apply Qabs_Qle_condition. split; lra.
Qed.

Lemma profit_from_rounded_rows_witness :
  find_surebets SUREBET_CONFIG [demo_match] 10000 = Ok [demo_surebet] /\
  sb_roi demo_surebet
  = sb_guaranteed_profit demo_surebet / sb_total_stake demo_surebet * 100.
Proof.
  assert (E : find_surebets SUREBET_CONFIG [demo_match] 10000 = Ok [demo_surebet])
    by (vm_compute; reflexivity).
  split; [exact E|].
  destruct (profit_from_rounded_rows
              SUREBET_CONFIG [demo_match] 10000 [demo_surebet] demo_surebet E
              (or_introl eq_refl)) as (_ & _ & _ & Hroi).
  exact Hroi.
Defined.




(** C4, as stated: a market with fewer than 2 outcomes, a zero or negative
    odds value or a non-positive total stake makes the call fail.  A
    single-outcome market, a market with an outcome quoted at -100 and a
    total stake of -100 each return an opportunity. *)
Lemma malformed_input_counterexample :
  find_surebets SUREBET_CONFIG [single_match] 100
  = Ok [surebet_of single_match "1X2" single_best 100] /\
  ((exists q, In q negative_odds /\ value q < 0) /\
   find_surebets SUREBET_CONFIG [negative_match] 100
   = Ok [surebet_of negative_match "1X2" negative_best 100]) /\
  find_surebets SUREBET_CONFIG [demo_match] (-100)
  = Ok [surebet_of demo_match "1X2" demo_best (-100)].
Proof.
  split; [vm_compute; reflexivity|]. split; [split|].
  - exists (mkOdd "Betsson" "Z" (-100) 4). split; [|reflexivity].
    right; right; right; now left.
  - vm_compute; reflexivity.
  - vm_compute; reflexivity.
Qed.

(** ** Order of the quotes of one outcome *)

Module OrderFacts.

(** A split of the filtered list comes from a split of the list. *)
Lemma filter_split {A} (p : A -> bool) (l pre' post' : list A) (b : A) :
  filter p l = pre' ++ b :: post' ->
  exists pre post, l = pre ++ b :: post /\ filter p pre = pre'.
Proof.
  revert pre'. induction l as [|x l IH]; intros pre' H; simpl in H.
  - destruct pre'; discriminate.
  - destruct (p x) eqn:E.
    + destruct pre' as [|y pre'].
      * injection H as -> _. exists [], l. split; reflexivity.
      * injection H as -> H. destruct (IH pre' H) as (pre & post & -> & Hf).
        exists (y :: pre), post. split; [reflexivity|].
        simpl. now rewrite E, Hf.
    + destruct (IH pre' H) as (pre & post & -> & Hf).
      exists (x :: pre), post. split; [reflexivity|].
      simpl. now rewrite E.
Qed.

Lemma time_ordered_after (pre post : list Odd) (b q : Odd) :
  time_ordered (pre ++ b :: post) -> In q post ->
  (timestamp b <= timestamp q)%Z.
Proof.
  induction pre as [|x pre IH]; simpl; intros (Hhd & Htl) Hq; auto.
Qed.

End OrderFacts.

(** C6, as stated: among the quotes that tie on the maximum the one with
    the earliest observation time is selected.  Of two quotes at 2.00 the
    first in the list is selected although it was observed later. *)
Lemma earliest_time_tie_break_counterexample :
  select_best (group_by_outcome tie_odds) = Ok [("1"%string, tie_late)] /\
  In tie_early tie_odds /\ outcome tie_early = outcome tie_late /\
  value tie_early == value tie_late /\
  (timestamp tie_early < timestamp tie_late)%Z.
Proof.
  split; [vm_compute; reflexivity|]. split; [right; now left|].
  repeat split.
Qed.

(** C6, amended.  The quote selected for an outcome is a quote of the
    market for that outcome with the maximum odds value, and among the
    quotes that tie on the maximum it is the one that comes first in the
    quote list of the market (arrival order): every quote of the outcome
    before it has a strictly smaller value.  The selection is a function
    of the list alone.  When observation times never decrease along the
    list, the selected quote is also an earliest observed one among the
    ties. *)
Theorem best_quote_is_first_maximum
    (odds_list : list Odd) (best_odds : Dict.t Odd) (o : string) (b : Odd) :
  select_best (group_by_outcome odds_list) = Ok best_odds ->
  In (o, b) best_odds ->
  In b odds_list /\ outcome b = o /\
  (forall q, In q odds_list -> outcome q = o -> value q <= value b) /\
  (exists pre post, odds_list = pre ++ b :: post /\
     forall q, In q pre -> outcome q = o -> value q < value b) /\
  (time_ordered odds_list ->
   forall q, In q odds_list -> outcome q = o -> value q == value b ->
     (timestamp b <= timestamp q)%Z).
Proof.
  intros Hbest Hin.
  destruct (GroupFacts.best_In odds_list best_odds o b Hbest Hin) as (Hb & Ho).
  destruct (GroupFacts.select_best_spec odds_list) as (bo & Hbo & _ & Hmax).
  rewrite Hbo in Hbest. injection Hbest as ->.
  apply Hmax in Hin. apply PyFacts.max_by_spec in Hin
    as (Hle & pre' & post' & Hdec & Hpre).
  assert (Hq : forall q, In q odds_list -> outcome q = o -> In q (quotes_of o odds_list)).
  { intros q Hq Hqo. apply filter_In. split; [exact Hq|]. now apply String.eqb_eq. }
  destruct (OrderFacts.filter_split _ odds_list pre' post' b Hdec)
    as (pre & post & Hl & Hf).
  assert (Hbefore : forall q, In q pre -> outcome q = o -> value q < value b).
  { intros q Hqp Hqo. apply Hpre. rewrite <- Hf. apply filter_In.
    split; [exact Hqp|]. now apply String.eqb_eq. }
  split; [exact Hb|]. split; [exact Ho|].
  split; [intros q Hin Hqo; apply Hle; now apply Hq|].
  split; [exists pre, post; split; assumption|].
  intros Hord q Hin Hqo Hv. rewrite Hl in Hin, Hord.
  apply in_app_or in Hin as [Hin|[<-|Hin]].
  - exfalso. specialize (Hbefore q Hin Hqo). rewrite Hv in Hbefore.
    now apply Qlt_irrefl in Hbefore.
  - apply Z.le_refl.
  - now apply (OrderFacts.time_ordered_after pre post).
Qed.

Lemma best_quote_is_first_maximum_witness :
  In tie_late tie_odds /\
  exists pre post, tie_odds = pre ++ tie_late :: post /\
    forall q, In q pre -> outcome q = "1"%string -> value q < value tie_late.
Proof.
  destruct (best_quote_is_first_maximum tie_odds [("1"%string, tie_late)]
              "1" tie_late) as (Hin & _ & _ & Hfirst & _).
  - vm_compute; reflexivity.
  - now left.
  - split; [exact Hin | exact Hfirst].
Defined.

(** ** Consolidation *)

Module ConsolidationFacts.

Import Consolidation.

Lemma deref_store_same (h : heap) (r : ref) (x m : Match) :
  deref h r = Some x -> deref (store h r m) r = Some m.
Proof.
  unfold deref. revert r. induction h as [|y h IH]; intros [|r]; simpl;
    try discriminate; auto.
Qed.

Lemma deref_store_other (h : heap) (r r' : ref) (m : Match) :
  r' <> r -> deref (store h r m) r' = deref h r'.
Proof.
  unfold deref. revert r r'.
  induction h as [|y h IH]; intros [|r] [|r'] Hne; simpl; auto; congruence.
Qed.

Lemma key_set_odds (m : Match) (o : Dict.t (list Odd)) :
  key (set_odds m o) = key m.
Proof. reflexivity. Qed.

(** The two nested loops visit the matches in the order of [all_refs]. *)
Lemma consolidate_flat (h : heap) (all_matches : Dict.t (list ref)) :
  consolidate h all_matches = fold_left consolidate_step (all_refs all_matches) (h, []).
Proof.
  unfold consolidate, all_refs. generalize (h, @nil (string * ref)).
  induction all_matches as [|item rest IH]; intros st; simpl; [reflexivity|].
  now rewrite fold_left_app, IH.
Qed.

Lemma deref_store_none (h : heap) (r r' : ref) (m : Match) :
  deref h r' = None -> deref (store h r m) r' = None.
Proof.
  unfold deref. revert r r'.
  induction h as [|y h IH]; intros [|r] [|r']; simpl; auto; discriminate.
Qed.

(** The entries of a dict after an assignment. *)
Lemma In_set {V} (k k' : string) (v v' : V) (d : Dict.t V) :
  In (k', v') (Dict.set k v d) -> In (k', v') d \/ (k', v') = (k, v).
Proof.
  induction d as [|[k0 v0] d IH]; simpl; intros Hin.
  - destruct Hin as [E|[]]. right. now symmetry.
  - destruct (String.eqb k k0) eqn:E.
    + apply String.eqb_eq in E. subst k0. destruct Hin as [E|Hin].
      * right. now symmetry.
      * left. now right.
    + destruct Hin as [E'|Hin]; [left; now left|].
      destruct (IH Hin) as [?|?]; [left; now right | now right].
Qed.

Lemma inv_step (h0 : heap) (st : heap * Dict.t ref) (seen : list ref) (r : ref) :
  Spec.consolidation_inv h0 st seen ->
  Spec.consolidation_inv h0 (consolidate_step st r) (seen ++ [r]).
Proof.
  destruct st as [h cons]. intros (Hobj & Hnone & Hnd & Hent & Hseen).
  unfold consolidate_step. simpl in *.
  destruct (deref h r) as [m|] eqn:Er.
  2:{ repeat split; auto. intros r1 m0 Hin Hr1.
      apply in_app_or in Hin as [Hin|[<-|[]]]; [eauto|].
      destruct (Hobj _ _ Hr1) as (o & Ho). congruence. }
  assert (Hr : exists m0, deref h0 r = Some m0 /\ key m0 = key m).
  { destruct (deref h0 r) as [m0|] eqn:E0.
    - exists m0. split; [reflexivity|]. destruct (Hobj _ _ E0) as (o & Ho).
      rewrite Er in Ho. injection Ho as ->. reflexivity.
    - rewrite (Hnone _ E0) in Er. discriminate. }
  destruct Hr as (mr & Hmr & Hkr).
  destruct (Dict.get (key m) cons) as [r0|] eqn:Eg.
  - assert (Hin0 := DictFacts.get_In _ _ _ _ Eg).
    destruct (Hent _ _ Hin0) as (m00 & Hr0 & Hk0).
    destruct (Hobj _ _ Hr0) as (o0 & Ho0). rewrite Ho0.
    split; [|split; [|split; [exact Hnd|split; [exact Hent|]]]]; simpl.
    + intros r1 m1 Hr1. destruct (Hobj _ _ Hr1) as (o1 & Ho1).
      destruct (Nat.eq_dec r1 r0) as [->|Hne].
      * rewrite (deref_store_same _ _ _ _ Ho0).
        assert (m1 = m00) by congruence. subst m1. eexists. reflexivity.
      * rewrite (deref_store_other _ _ _ _ Hne). eauto.
    + intros r1 Hr1. apply deref_store_none. auto.
    + intros r1 m1 Hin Hr1. apply in_app_or in Hin as [Hin|[<-|[]]]; [eauto|].
      assert (m1 = mr) by congruence. subst m1. rewrite Hkr. eauto.
  - split; [exact Hobj|split; [exact Hnone|split; [|split]]]; simpl.
    + rewrite DictFacts.keys_set. unfold Dict.mem. rewrite Eg.
      apply DictFacts.get_None_keys in Eg.
      apply NoDup_app; [exact Hnd | repeat constructor; intros [] |].
      intros a Ha [<-|[]]. contradiction.
    + intros k r1 Hin. apply In_set in Hin as [Hc|Hc]; [eauto|].
      injection Hc as -> ->. eauto.
    + intros r1 m1 Hin Hr1.
      destruct (String.eqb (key m1) (key m)) eqn:E.
      * apply String.eqb_eq in E. rewrite E, DictFacts.get_set_same. eauto.
      * apply String.eqb_neq in E. rewrite DictFacts.get_set_other by exact E.
        apply in_app_or in Hin as [Hin|[<-|[]]]; [eauto|].
        assert (m1 = mr) by congruence. subst m1. congruence.
Qed.

Lemma inv_init (h0 : heap) : Spec.consolidation_inv h0 (h0, []) [].
Proof.
  repeat split; simpl; auto.
  - intros r m0 Hr. exists (odds m0). rewrite Hr. now destruct m0.
  - constructor.
  - intros k r [].
  - intros r m0 [].
Qed.

Lemma inv_fold (h0 : heap) (refs seen : list ref) (st : heap * Dict.t ref) :
  Spec.consolidation_inv h0 st seen ->
  Spec.consolidation_inv h0 (fold_left consolidate_step refs st) (seen ++ refs).
Proof.
  revert seen st. induction refs as [|r refs IH]; intros seen st H; simpl.
  - now rewrite app_nil_r.
  - apply (inv_step h0 st seen r) in H. apply IH in H.
    now rewrite <- app_assoc in H.
Qed.

Lemma inv_consolidate (h0 : heap) (all_matches : Dict.t (list ref)) :
  Spec.consolidation_inv h0 (consolidate h0 all_matches) (all_refs all_matches).
Proof.
  rewrite consolidate_flat.
  apply (inv_fold h0 (all_refs all_matches) [] (h0, []) (inv_init h0)).
Qed.

(** Without the separator in the home names, equal keys are equal pairs. *)
Lemma key_pair (a1 b1 a2 b2 : string) :
  Spec.no_bar a1 -> Spec.no_bar a2 ->
  (a1 ++ "|" ++ b1 = a2 ++ "|" ++ b2)%string -> a1 = a2 /\ b1 = b2.
Proof.
  revert a2. induction a1 as [|c a1 IH]; intros [|c2 a2]; simpl.
  - intros _ _ E. injection E as ->. auto.
  - intros _ (Hc & _) E. injection E as E _. congruence.
  - intros (Hc & _) _ E. injection E as E _. congruence.
  - intros (_ & H1) (_ & H2) E. injection E as -> E.
    destruct (IH a2 H1 H2 E) as (-> & ->). auto.
Qed.

End ConsolidationFacts.

Import Consolidation.

(** C8, as stated: events with the same participant pair and different
    league labels are kept as distinct events.  The same fixture listed
    under "Primera Division" by one source and under "Copa Argentina" by
    another ends up as a single consolidated match: the one seen first,
    with its own league label and the quotes of both sources. *)
Lemma league_label_counterexample :
  home_team betwarrior_match = home_team codere_cup_match /\
  away_team betwarrior_match = away_team codere_cup_match /\
  league betwarrior_match <> league codere_cup_match /\
  snd (consolidate league_heap two_sources)
  = [("Boca Juniors|River Plate"%string, 0%nat)] /\
  match_list (consolidate league_heap two_sources)
  = [match_with [("1X2"%string, betwarrior_quotes ++ codere_quotes)]].
Proof.
  split; [reflexivity|]. split; [reflexivity|]. split; [discriminate|].
  split; reflexivity.
Qed.

(** C9.  The consolidation loop on the same fixture from two sources: the
    first source's [Match] object is the one stored under the key, and the
    merge appends the second source's quotes to its list in place.  After
    the loop the first input object holds the quotes of both sources, the
    second is as before, and the odds export that runs on [all_matches]
    afterwards writes a Codere quote under the bookmaker BetWarrior. *)
Theorem consolidation_changes_first_input :
  let st := consolidate fixture_heap two_sources in
  deref fixture_heap 0%nat = Some betwarrior_match /\
  deref (fst st) 0%nat
  = Some (match_with [("1X2"%string, betwarrior_quotes ++ codere_quotes)]) /\
  deref (fst st) 0%nat <> deref fixture_heap 0%nat /\
  deref (fst st) 1%nat = deref fixture_heap 1%nat /\
  snd st = [("Boca Juniors|River Plate"%string, 0%nat)] /\
  In ("BetWarrior"%string, "1X2"%string, mkOdd "Codere" "1" (245 # 100) 2)
     (export_odds_rows (fst st) two_sources) /\
  ~ In ("BetWarrior"%string, "1X2"%string, mkOdd "Codere" "1" (245 # 100) 2)
       (export_odds_rows fixture_heap two_sources).
Proof.
  cbv zeta. split; [reflexivity|]. split; [reflexivity|].
  split; [discriminate|]. split; [reflexivity|]. split; [reflexivity|].
  split.
  - vm_compute. do 3 right. now left.
  - vm_compute. intros H.
    repeat (destruct H as [H|H]; [discriminate H|]). exact H.
Qed.

(** * Further properties of the detector *)

Module ScanFacts.

Import Relations.

Section Accumulator.
Variables (A B : Type) (f : list B -> A -> result (list B)).
Hypothesis Hf : forall s x, f s x = (r <- f [] x ;; Ok (s ++ r)).

(** A loop that only appends gives the same elements from any start. *)
Lemma foldM_acc (xs : list A) (s : list B) :
  foldM f xs s = (r <- foldM f xs [] ;; Ok (s ++ r)).
Proof.
  revert s. induction xs as [|x xs IH]; intros s; simpl.
  - now rewrite app_nil_r.
  - rewrite (Hf s x). destruct (f [] x) as [r|e]; simpl; [|reflexivity].
    rewrite (IH (s ++ r)), (IH r).
    destruct (foldM f xs []) as [r2|e]; simpl; [|reflexivity].
    now rewrite app_assoc.
Qed.

Lemma foldM_app (xs ys : list A) (s : list B) :
  foldM f (xs ++ ys) s = (s' <- foldM f xs s ;; foldM f ys s').
Proof.
  revert s. induction xs as [|x xs IH]; intros s; simpl; [reflexivity|].
  destruct (f s x) as [s'|e]; simpl; [apply IH | reflexivity].
Qed.

End Accumulator.

Lemma market_step_acc (config : Config) (m : Match) (T : Q)
    (s : list SureBet) (item : string * list Odd) :
  market_step config m T s item
  = (r <- market_step config m T [] item ;; Ok (s ++ r)).
Proof.
  destruct item as [market odds_list]. unfold market_step.
  destruct (_analyze_market config m market odds_list T) as [[sb|]|e]; simpl;
    try reflexivity.
  now rewrite app_nil_r.
Qed.

Lemma match_step_acc (config : Config) (T : Q) (s : list SureBet) (m : Match) :
  match_step config T s m = (r <- match_step config T [] m ;; Ok (s ++ r)).
Proof.
  unfold match_step. apply foldM_acc. apply market_step_acc.
Qed.

(** The markets of one match, from an empty list. *)
Lemma markets_scan (config : Config) (T : Q) (m : Match)
    (items : Dict.t (list Odd)) (s : list SureBet) :
  foldM (market_step config m T) items [] = Ok s ->
  s = flat_map (market_result config T m) items.
Proof.
  revert s. induction items as [|[market odds_list] items IH]; intros s; simpl.
  - now intros [= <-].
  - cbn [foldM flat_map]. unfold market_step at 1, market_result at 1.
    cbn [fst snd].
    destruct (_analyze_market config m market odds_list T) as [[sb|]|e];
      cbn [Py.bind]; try discriminate.
    + rewrite (foldM_acc _ _ _ (market_step_acc config m T)).
      destruct (foldM (market_step config m T) items []) as [r|e] eqn:E;
        cbn [Py.bind]; [|discriminate].
      intros [= <-]. now rewrite (IH r eq_refl).
    + apply IH.
Qed.

Lemma matches_scan (config : Config) (T : Q) (matches : list Match)
    (s : list SureBet) :
  find_surebets config matches T = Ok s -> s = scan config T matches.
Proof.
  unfold find_surebets, scan. revert s.
  induction matches as [|m matches IH]; intros s; simpl.
  - now intros [= <-].
  - destruct (match_step config T [] m) as [r|e] eqn:Em; simpl; [|discriminate].
    rewrite (foldM_acc _ _ _ (match_step_acc config T)).
    destruct (foldM (match_step config T) matches []) as [r2|e] eqn:E;
      simpl; [|discriminate].
    intros [= <-]. rewrite (IH r2 eq_refl).
    now rewrite (markets_scan config T m (odds m) r Em).
Qed.

Lemma market_result_length (config : Config) (T : Q) (m : Match)
    (item : string * list Odd) :
  (List.length (market_result config T m item) <= 1)%nat.
Proof.
  unfold market_result.
  destruct (_analyze_market config m (fst item) (snd item) T) as [[sb|]|e];
    simpl; lia.
Qed.

Lemma scan_length (config : Config) (T : Q) (matches : list Match) :
  (List.length (scan config T matches)
   <= List.length (flat_map (fun m => odds m) matches))%nat.
Proof.
  unfold scan. induction matches as [|m matches IH]; simpl; [lia|].
  rewrite !length_app.
  assert (H : (List.length (flat_map (market_result config T m) (odds m))
               <= List.length (odds m))%nat).
  { induction (odds m) as [|item items IHi]; simpl; [lia|].
    rewrite length_app.
    pose proof (market_result_length config T m item). lia. }
  lia.
Qed.

End ScanFacts.

Import Relations.

(** X1.  The opportunities of a call are listed in the order the loops visit
    the markets (matches in list order, the markets of a match in the
    order of its [odds] dict), each market giving at most one. *)
Theorem opportunities_follow_scan_order
    (config : Config) (matches : list Match) (T : Q) (sbs : list SureBet) :
  find_surebets config matches T = Ok sbs ->
  sbs = scan config T matches /\
  (List.length sbs <= List.length (flat_map (fun m => odds m) matches))%nat.
Proof.
  intros H. pose proof (ScanFacts.matches_scan config T matches sbs H) as E.
  split; [exact E|]. rewrite E. apply ScanFacts.scan_length.
Qed.

Lemma opportunities_follow_scan_order_witness :
  [demo_surebet] = scan SUREBET_CONFIG 10000 [demo_match; fair_match] /\
  (List.length [demo_surebet]
   <= List.length (flat_map (fun m => odds m) [demo_match; fair_match]))%nat.
Proof.
  apply (opportunities_follow_scan_order
           SUREBET_CONFIG [demo_match; fair_match] 10000 [demo_surebet]).
  vm_compute. reflexivity.
Defined.

(** X2.  A call on a list of matches put together from two lists is the call
    on the first followed by the call on the second, the results
    appended; an exception in the first part is the exception of the
    whole, and the second part is then not looked at. *)
Theorem find_surebets_distributes_over_append
    (config : Config) (ms1 ms2 : list Match) (T : Q) :
  find_surebets config (ms1 ++ ms2) T
  = (a <- find_surebets config ms1 T ;;
     b <- find_surebets config ms2 T ;;
     Ok (a ++ b)).
Proof.
  unfold find_surebets. rewrite ScanFacts.foldM_app.
  destruct (foldM (match_step config T) ms1 []) as [a|e]; simpl; [|reflexivity].
  apply ScanFacts.foldM_acc. apply ScanFacts.match_step_acc.
Qed.

(** ** What an opportunity is made of *)

Module RowFacts.

(** The best quote of an outcome bounds every quote of that outcome. *)
Lemma best_bounds (odds_list : list Odd) (best_odds : Dict.t Odd)
    (o : string) (b : Odd) :
  select_best (group_by_outcome odds_list) = Ok best_odds ->
  In (o, b) best_odds ->
  forall q, In q odds_list -> outcome q = o -> value q <= value b.
Proof.
  intros Hbest Hin q Hq Ho.
  destruct (GroupFacts.select_best_spec odds_list) as (bo & E & _ & Hmax).
  rewrite Hbest in E. injection E as <-.
  destruct (PyFacts.max_by_spec value (quotes_of o odds_list) b (Hmax o b Hin))
    as (Hle & _).
  apply Hle. unfold quotes_of. apply filter_In. split; [exact Hq|].
  now apply String.eqb_eq.
Qed.

Lemma best_keys (odds_list : list Odd) (best_odds : Dict.t Odd) :
  select_best (group_by_outcome odds_list) = Ok best_odds ->
  Dict.keys best_odds = Dict.keys (group_by_outcome odds_list).
Proof.
  intros Hbest.
  destruct (GroupFacts.select_best_spec odds_list) as (bo & E & Hk & _).
  rewrite Hbest in E. now injection E as <-.
Qed.

Lemma rows_outcomes (W T : Q) (best_odds : Dict.t Odd) :
  map row_outcome (map (row_of W T) best_odds) = Dict.keys best_odds.
Proof.
  unfold Dict.keys. rewrite map_map. apply map_ext. now intros [o b].
Qed.

End RowFacts.

(** X3.  Every opportunity of a call is about a match and a market of the
    input, carries the total stake of the call, and has exactly one stake
    row per quoted outcome of that market, in the order the outcomes first
    appear in the quote list.  Each row names a quote of the market: its
    outcome, its bookmaker and its odds, and no quote of the market for
    that outcome has higher odds. *)
Theorem stake_rows_name_best_quotes
    (config : Config) (matches : list Match) (T : Q)
    (sbs : list SureBet) (sb : SureBet) :
  find_surebets config matches T = Ok sbs -> In sb sbs ->
  exists odds_list,
    In (sb_match sb) matches /\
    In (sb_market sb, odds_list) (odds (sb_match sb)) /\
    sb_total_stake sb = T /\
    map row_outcome (sb_stakes sb) = Dict.keys (group_by_outcome odds_list) /\
    NoDup (map row_outcome (sb_stakes sb)) /\
    (forall q, In q odds_list -> In (outcome q) (map row_outcome (sb_stakes sb))) /\
    (forall r, In r (sb_stakes sb) ->
       exists q, In q odds_list /\ outcome q = row_outcome r /\
                 bookmaker q = row_bookmaker r /\ value q = row_odds r /\
                 forall q', In q' odds_list -> outcome q' = row_outcome r ->
                            value q' <= row_odds r).
Proof.
  intros H Hin.
  destruct (EmittedFacts.emitted_inv config matches T sbs sb H Hin)
    as (m & market & ol & bo & Hm & Hmk & Hbest & _ & _ & _ & _ & _ & ->).
  exists ol. cbn [sb_match sb_market sb_total_stake sb_stakes surebet_of].
  assert (Hkeys : map row_outcome (map (row_of (reciprocal_sum bo) T) bo)
                  = Dict.keys (group_by_outcome ol)).
  { rewrite RowFacts.rows_outcomes. now apply RowFacts.best_keys. }
  split; [exact Hm|]. split; [exact Hmk|]. split; [reflexivity|].
  split; [exact Hkeys|]. rewrite Hkeys.
  split; [apply GroupFacts.NoDup_keys_group|].
  split.
  - intros q Hq. apply GroupFacts.In_keys_group. now exists q.
  - intros r Hr. apply in_map_iff in Hr as ([o b] & <- & Hb).
    destruct (GroupFacts.best_In ol bo o b Hbest Hb) as (Hbl & Hbo).
    exists b. cbn [row_of row_outcome row_bookmaker row_odds fst snd].
    split; [exact Hbl|]. split; [exact Hbo|]. split; [reflexivity|].
    split; [reflexivity|]. intros q' Hq' Ho'.
    exact (RowFacts.best_bounds ol bo o b Hbest Hb q' Hq' Ho').
Qed.

Lemma stake_rows_name_best_quotes_witness :
  exists odds_list,
    In (sb_match demo_surebet) [demo_match] /\
    In (sb_market demo_surebet, odds_list) (odds (sb_match demo_surebet)) /\
    map row_outcome (sb_stakes demo_surebet)
    = Dict.keys (group_by_outcome odds_list).
Proof.
  destruct (stake_rows_name_best_quotes
              SUREBET_CONFIG [demo_match] 10000 [demo_surebet] demo_surebet)
    as (ol & H1 & H2 & _ & H3 & _).
  - vm_compute. reflexivity.
  - now left.
  - exists ol. repeat split; assumption.
Defined.

(** ** The margin range and the total stake *)

Module FilterFacts.

Import DetectorFacts.

(** An analysis that returns no opportunity rejected the margin. *)
Lemma analyze_none_inv (config : Config) (m : Match) (market : string)
    (odds_list : list Odd) (T : Q) (best_odds : Dict.t Odd) :
  select_best (group_by_outcome odds_list) = Ok best_odds ->
  _analyze_market config m market odds_list T = Ok None ->
  nonzero_odds best_odds /\
  (margin_of (reciprocal_sum best_odds) < margen_minimo config \/
   margen_maximo config < margin_of (reciprocal_sum best_odds)).
Proof.
  intros Hbest H. unfold _analyze_market in H. rewrite Hbest in H.
  cbn [Py.bind] in H.
  destruct (_calculate_margin best_odds) as [margin|e] eqn:Em; [|discriminate].
  destruct (calculate_margin_Ok best_odds margin Em) as (Hnz & ->).
  split; [exact Hnz|]. cbn [Py.bind] in H.
  destruct (Qlt_le_dec _ _) as [Hlo|Hlo]; [now left|].
  destruct (Qlt_le_dec _ _) as [Hhi|Hhi]; [now right|].
  exfalso. inv_bind H. inv_bind H. inv_bind H. discriminate.
Qed.

(** What an accepted market yields does not depend on the range that
    accepts it. *)
Lemma accepted_under_wider (c1 c2 : Config) (m : Match) (market : string)
    (odds_list : list Odd) (T : Q) (sb : SureBet) :
  margen_minimo c2 <= margen_minimo c1 -> margen_maximo c1 <= margen_maximo c2 ->
  _analyze_market c1 m market odds_list T = Ok (Some sb) ->
  _analyze_market c2 m market odds_list T = Ok (Some sb).
Proof.
  intros Hlo Hhi H.
  destruct (GroupFacts.select_best_spec odds_list) as (bo & Hbest & _).
  destruct (AnalyzeFacts.analyze_accept_inv c1 m market odds_list T bo Hbest sb H)
    as (Hnz & Hne & HW & HT & (Ha & Hb) & ->).
  apply (AnalyzeFacts.analyze_accepts c2 m market odds_list T bo Hbest Hnz Hne HW HT).
  split; [eapply Qle_trans; eassumption | eapply Qle_trans; eassumption].
Qed.

Lemma market_result_wider (c1 c2 : Config) (T : Q) (m : Match)
    (item : string * list Odd) :
  margen_minimo c2 <= margen_minimo c1 -> margen_maximo c1 <= margen_maximo c2 ->
  market_result c1 T m item = [] \/
  market_result c1 T m item = market_result c2 T m item.
Proof.
  intros Hlo Hhi. unfold market_result.
  destruct (_analyze_market c1 m (fst item) (snd item) T) as [[sb|]|e] eqn:E;
    auto.
  right. now rewrite (accepted_under_wider c1 c2 m _ _ T sb Hlo Hhi E).
Qed.

Lemma scan_wider (c1 c2 : Config) (T : Q) (matches : list Match) :
  margen_minimo c2 <= margen_minimo c1 -> margen_maximo c1 <= margen_maximo c2 ->
  (forall sb, In sb (scan c1 T matches) -> In sb (scan c2 T matches)) /\
  (List.length (scan c1 T matches) <= List.length (scan c2 T matches))%nat.
Proof.
  intros Hlo Hhi. unfold scan. split.
  - intros sb Hin. apply in_flat_map in Hin as (m & Hm & Hin).
    apply in_flat_map in Hin as (item & Hitem & Hin).
    apply in_flat_map. exists m. split; [exact Hm|].
    apply in_flat_map. exists item. split; [exact Hitem|].
    destruct (market_result_wider c1 c2 T m item Hlo Hhi) as [E|E];
      rewrite E in Hin; [destruct Hin | exact Hin].
  - induction matches as [|m matches IH]; simpl; [lia|].
    rewrite !length_app.
    assert (H : (List.length (flat_map (market_result c1 T m) (odds m))
                 <= List.length (flat_map (market_result c2 T m) (odds m)))%nat).
    { induction (odds m) as [|item items IHi]; simpl; [lia|].
      rewrite !length_app.
      destruct (market_result_wider c1 c2 T m item Hlo Hhi) as [E|E];
        rewrite E; simpl; lia. }
    lia.
Qed.

End FilterFacts.

(** X4.  Widening the margin range (a lower minimum, as a smaller [--margen]
    gives, or a higher maximum) loses no opportunity: when both calls
    return, every opportunity found under the narrower range is found,
    unchanged, under the wider one. *)
Theorem wider_margin_range_keeps_opportunities
    (c1 c2 : Config) (matches : list Match) (T : Q) (s1 s2 : list SureBet) :
  margen_minimo c2 <= margen_minimo c1 -> margen_maximo c1 <= margen_maximo c2 ->
  find_surebets c1 matches T = Ok s1 -> find_surebets c2 matches T = Ok s2 ->
  (forall sb, In sb s1 -> In sb s2) /\ (List.length s1 <= List.length s2)%nat.
Proof.
  intros Hlo Hhi H1 H2.
  rewrite (ScanFacts.matches_scan c1 T matches s1 H1).
  rewrite (ScanFacts.matches_scan c2 T matches s2 H2).
  now apply FilterFacts.scan_wider.
Qed.

Lemma wider_margin_range_keeps_opportunities_witness :
  (forall sb, In sb [demo_surebet] ->
     In sb [demo_surebet; surebet_of fair_match "1X2" fair_best 10000]) /\
  (1 <= 2)%nat.
Proof.
  apply (wider_margin_range_keeps_opportunities
           SUREBET_CONFIG config_from_zero [demo_match; fair_match] 10000
           [demo_surebet]
           [demo_surebet; surebet_of fair_match "1X2" fair_best 10000]).
  - vm_compute. discriminate.
  - vm_compute. discriminate.
  - vm_compute. reflexivity.
  - vm_compute. reflexivity.
Defined.

Module StakeFacts.

Import DetectorFacts.

Lemma selection_surebet_of (m : Match) (market : string) (bo : Dict.t Odd)
    (T1 T2 : Q) :
  selection (surebet_of m market bo T1) = selection (surebet_of m market bo T2).
Proof.
  unfold selection, surebet_of. cbn [sb_match sb_market sb_margin sb_stakes].
  f_equal. rewrite !map_map. reflexivity.
Qed.

(** With another non-zero stake a market is accepted or rejected as
    before, with the same best quotes. *)
Lemma analyze_stake_change (config : Config) (m : Match) (market : string)
    (odds_list : list Odd) (T1 T2 : Q) (r1 : option SureBet) :
  ~ T2 == 0 -> _analyze_market config m market odds_list T1 = Ok r1 ->
  exists r2, _analyze_market config m market odds_list T2 = Ok r2 /\
             option_map selection r1 = option_map selection r2.
Proof.
  intros HT2 H.
  destruct (GroupFacts.select_best_spec odds_list) as (bo & Hbest & _).
  destruct r1 as [sb|].
  - destruct (AnalyzeFacts.analyze_accept_inv config m market odds_list T1 bo
                Hbest sb H) as (Hnz & Hne & HW & _ & Hrange & ->).
    exists (Some (surebet_of m market bo T2)). split.
    + exact (AnalyzeFacts.analyze_accepts config m market odds_list T2 bo Hbest
               Hnz Hne HW HT2 Hrange).
    + cbn [option_map]. f_equal. apply selection_surebet_of.
  - destruct (FilterFacts.analyze_none_inv config m market odds_list T1 bo
                Hbest H) as (Hnz & [Hlo|Hhi]).
    + exists None. split; [|reflexivity].
      exact (AnalyzeFacts.analyze_reject_low config m market odds_list T2 bo
               Hbest Hnz Hlo).
    + exists None. split; [|reflexivity].
      exact (AnalyzeFacts.analyze_reject_high config m market odds_list T2 bo
               Hbest Hnz Hhi).
Qed.

Lemma map_flat_map {A B C} (f : B -> C) (g : A -> list B) (l : list A) :
  map f (flat_map g l) = flat_map (fun x => map f (g x)) l.
Proof.
  induction l as [|x l IH]; simpl; [reflexivity|].
  now rewrite map_app, IH.
Qed.

Lemma flat_map_ext_in {A B} (f g : A -> list B) (l : list A) :
  (forall x, In x l -> f x = g x) -> flat_map f l = flat_map g l.
Proof.
  induction l as [|x l IH]; simpl; intros H; [reflexivity|].
  rewrite (H x (or_introl eq_refl)), IH; auto.
Qed.

(** A call that returns met no market whose analysis raises. *)
Lemma returned_markets (config : Config) (matches : list Match) (T : Q)
    (sbs : list SureBet) (m : Match) (market : string) (odds_list : list Odd) :
  find_surebets config matches T = Ok sbs ->
  In m matches -> In (market, odds_list) (odds m) ->
  exists r, _analyze_market config m market odds_list T = Ok r.
Proof.
  intros H Hm Hmk.
  destruct (_analyze_market config m market odds_list T) as [r|e] eqn:E;
    [now exists r|].
  pose proof (AnalyzeFacts.find_surebets_raises config T matches m market
                odds_list Hm Hmk) as Hr.
  rewrite E, H in Hr. destruct (Hr I).
Qed.

End StakeFacts.

(** X5.  The total stake decides neither which markets are reported nor what
    is selected in them.  When a call returns, the call with any other
    non-zero stake returns as well, and its opportunities are about the
    same matches and markets, in the same order, with the same margins
    and the same bookmaker and odds for every outcome. *)
Theorem selection_is_independent_of_stake
    (config : Config) (matches : list Match) (T1 T2 : Q) (s1 : list SureBet) :
  ~ T2 == 0 -> find_surebets config matches T1 = Ok s1 ->
  exists s2, find_surebets config matches T2 = Ok s2 /\
             map selection s1 = map selection s2.
Proof.
  intros HT2 H1.
  assert (Hall : forall m market odds_list, In m matches ->
            In (market, odds_list) (odds m) ->
            exists r1 r2,
              _analyze_market config m market odds_list T1 = Ok r1 /\
              _analyze_market config m market odds_list T2 = Ok r2 /\
              option_map selection r1 = option_map selection r2).
  { intros m market ol Hm Hmk.
    destruct (StakeFacts.returned_markets config matches T1 s1 m market ol
                H1 Hm Hmk) as (r1 & E1).
    destruct (StakeFacts.analyze_stake_change config m market ol T1 T2 r1
                HT2 E1) as (r2 & E2 & Hsel).
    now exists r1, r2. }
  assert (Hret : returns (find_surebets config matches T2)).
  { apply AnalyzeFacts.find_surebets_returns. intros m market ol Hm Hmk.
    destruct (Hall m market ol Hm Hmk) as (_ & r2 & _ & E2 & _).
    now rewrite E2. }
  destruct (find_surebets config matches T2) as [s2|e] eqn:H2; [|destruct Hret].
  exists s2. split; [reflexivity|].
  rewrite (ScanFacts.matches_scan config T1 matches s1 H1).
  rewrite (ScanFacts.matches_scan config T2 matches s2 H2).
  unfold scan. rewrite !StakeFacts.map_flat_map.
  apply StakeFacts.flat_map_ext_in. intros m Hm.
  rewrite !StakeFacts.map_flat_map.
  apply StakeFacts.flat_map_ext_in. intros [market ol] Hmk.
  destruct (Hall m market ol Hm Hmk) as (r1 & r2 & E1 & E2 & Hsel).
  unfold market_result. cbn [fst snd]. rewrite E1, E2.
  destruct r1 as [sb1|], r2 as [sb2|]; cbn in Hsel |- *; congruence.
Qed.

Lemma selection_is_independent_of_stake_witness :
  exists s2, find_surebets SUREBET_CONFIG [demo_match] (-250) = Ok s2 /\
             map selection [demo_surebet] = map selection s2.
Proof.
  apply (selection_is_independent_of_stake
           SUREBET_CONFIG [demo_match] 10000 (-250) [demo_surebet]).
  - vm_compute. discriminate.
  - vm_compute. reflexivity.
Defined.

(** ** Return on investment and margin *)

Module RoiFacts.

Import DetectorFacts.

(** The profit read from the rounded rows against the exact one. *)
Lemma profit_error (m : Match) (market : string) (bo : Dict.t Odd) (T : Q) :
  nonzero_odds bo -> bo <> [] -> ~ reciprocal_sum bo == 0 ->
  Qabs (profit_of (map (row_of (reciprocal_sum bo) T) bo)
        - (T / reciprocal_sum bo - T))
  <= (inject_Z (Z.of_nat (List.length bo)) + 1) * (1 # 200).
Proof.
  intros Hnz Hne HW.
  assert (Hsum := SplitFacts.stored_sum_error m market bo T HW).
  assert (Hval := SplitFacts.stored_values m market bo T).
  assert (Hex := SplitFacts.exact_return m market bo T Hnz HW).
  assert (Hc : common_return (surebet_of m market bo T) = T / reciprocal_sum bo).
  { unfold common_return. cbn [sb_total_stake sb_stakes surebet_of].
    now rewrite inverse_sum_rows. }
  assert (Hlen : List.length (sb_stakes (surebet_of m market bo T))
                 = List.length bo).
  { cbn [sb_stakes surebet_of]. apply length_map. }
  rewrite Hlen in Hsum. rewrite <- Hc.
  change (map (row_of (reciprocal_sum bo) T) bo)
    with (sb_stakes (surebet_of m market bo T)).
  set (sb := surebet_of m market bo T) in *.
  assert (Hrows : exists s0 rest, sb_stakes sb = s0 :: rest /\
            profit_of (sb_stakes sb)
            = row_expected_return s0 - Py.sum (map row_stake (sb_stakes sb))).
  { destruct bo as [|kv rest]; [congruence|].
    exists (row_of (reciprocal_sum (kv :: rest)) T kv),
           (map (row_of (reciprocal_sum (kv :: rest)) T) rest).
    split; reflexivity. }
  destruct Hrows as (s0 & rest & Hrows & ->).
  assert (Hs0 : In s0 (sb_stakes sb)) by (rewrite Hrows; now left).
  assert (Hr0 : Qabs (row_expected_return s0 - common_return sb) <= 1 # 200).
  { destruct (Hval s0 Hs0) as (_ & ->). rewrite <- (Hex s0 Hs0).
    apply PyFacts.round2_error. }
  apply Qabs_Qle_condition in Hr0. apply Qabs_Qle_condition in Hsum.
  revert Hsum. generalize (inject_Z (Z.of_nat (List.length bo))).
  intros n Hsum. apply Qabs_Qle_condition. split; lra.
Qed.

Lemma Qabs_scale (d c : Q) (e : Q) :
  Qabs d <= e -> Qabs (d * c) <= e * Qabs c.
Proof.
  intros H. rewrite Qabs_Qmult. apply Qmult_le_compat_r; [exact H|].
  apply Qabs_nonneg.
Qed.

End RoiFacts.

(** X6.  The return on investment of an opportunity is the margin divided by
    the sum [s] of the reciprocal best odds, up to the rounding of the
    stake rows: with [n] rows it is within (n + 1) / 2 / |T| of
    (1 / s - 1) * 100, which for s < 1 is margin / s.  Neither [s] nor
    the total stake of an opportunity is zero. *)
Theorem roi_is_margin_over_inverse_sum
    (config : Config) (matches : list Match) (T : Q)
    (sbs : list SureBet) (sb : SureBet) :
  find_surebets config matches T = Ok sbs -> In sb sbs ->
  let s := inverse_sum (sb_stakes sb) in
  let n := inject_Z (Z.of_nat (List.length (sb_stakes sb))) in
  ~ s == 0 /\ ~ T == 0 /\
  Qabs (sb_roi sb - (1 / s - 1) * 100) <= (n + 1) / 2 / Qabs T /\
  (s < 1 -> Qabs (sb_roi sb - sb_margin sb / s) <= (n + 1) / 2 / Qabs T).
Proof.
  intros H Hin.
  destruct (EmittedFacts.emitted_inv config matches T sbs sb H Hin)
    as (m & market & ol & bo & _ & _ & _ & Hnz & Hne & HW & HT & _ & ->).
  cbn [sb_stakes sb_roi sb_margin surebet_of].
  rewrite DetectorFacts.inverse_sum_rows, length_map. cbv zeta.
  pose proof (RoiFacts.profit_error m market bo T Hnz Hne HW) as Herr.
  set (W := reciprocal_sum bo) in *.
  set (p := profit_of (map (row_of W T) bo)) in *.
  set (n := inject_Z (Z.of_nat (List.length bo))) in *.
  assert (HaT : ~ Qabs T == 0).
  { intros E. apply HT. destruct (Qlt_le_dec T 0) as [Hneg|Hpos].
    - rewrite Qabs_neg in E by lra. lra.
    - rewrite Qabs_pos in E by lra. exact E. }
  assert (Hmain : Qabs (p / T * 100 - (1 / W - 1) * 100) <= (n + 1) / 2 / Qabs T).
  { assert (E : p / T * 100 - (1 / W - 1) * 100
                == (p - (T / W - T)) * (100 / T)) by (field; split; assumption).
    rewrite E.
    eapply Qle_trans; [apply (RoiFacts.Qabs_scale _ _ _ Herr)|].
    assert (E2 : Qabs (100 / T) == 100 / Qabs T).
    { unfold Qdiv. rewrite Qabs_Qmult, Qabs_Qinv. reflexivity. }
    rewrite E2. apply Qle_lteq. right. field. exact HaT. }
  split; [exact HW|]. split; [exact HT|]. split; [exact Hmain|].
  intros Hs. unfold margin_of.
  destruct (Qle_bool 1 W) eqn:Eb.
  - apply Qle_bool_iff in Eb. lra.
  - assert (E : (1 - W) * 100 / W == (1 / W - 1) * 100) by (field; exact HW).
    rewrite E. exact Hmain.
Qed.

Lemma roi_is_margin_over_inverse_sum_witness :
  Qabs (sb_roi demo_surebet
        - sb_margin demo_surebet / inverse_sum (sb_stakes demo_surebet))
  <= (inject_Z (Z.of_nat (List.length (sb_stakes demo_surebet))) + 1) / 2
     / Qabs 10000.
Proof.
  destruct (roi_is_margin_over_inverse_sum
              SUREBET_CONFIG [demo_match] 10000 [demo_surebet] demo_surebet)
    as (_ & _ & _ & Hroi).
  - vm_compute. reflexivity.
  - now left.
  - apply Hroi. vm_compute. reflexivity.
Defined.

(** ** Size and order of the stakes *)

Module RoundFacts.

(** Rounding to the nearest integer keeps the order. *)
Lemma round_half_even_mono (x y : Q) :
  x <= y -> (round_half_even x <= round_half_even y)%Z.
Proof.
  intros Hxy. unfold round_half_even.
  pose proof (Qfloor_resp_le _ _ Hxy) as Hf.
  pose proof (Qfloor_le x) as Hx1. pose proof (Qlt_floor x) as Hx2.
  pose proof (Qfloor_le y) as Hy1. pose proof (Qlt_floor y) as Hy2.
  destruct (Z.eq_dec (Qfloor x) (Qfloor y)) as [E|NE].
  - rewrite <- E in *. clear E Hf.
    revert Hx1 Hx2 Hy1 Hy2. generalize (Qfloor x). intros f Hx1 Hx2 Hy1 Hy2.
    destruct (Qcompare_spec (x - inject_Z f) (1 # 2)) as [Ex|Ex|Ex];
      destruct (Qcompare_spec (y - inject_Z f) (1 # 2)) as [Ey|Ey|Ey];
      try (destruct (Z.even f); lia); exfalso; lra.
  - assert (Hlt : (Qfloor x + 1 <= Qfloor y)%Z) by lia.
    destruct (Qcompare (x - inject_Z (Qfloor x)) (1 # 2));
      destruct (Qcompare (y - inject_Z (Qfloor y)) (1 # 2));
      try destruct (Z.even (Qfloor x)); try destruct (Z.even (Qfloor y)); lia.
Qed.

(** [round(_, 2)] keeps the order. *)
Lemma round2_mono (x y : Q) : x <= y -> round2 x <= round2 y.
Proof.
  intros Hxy. unfold round2.
  assert (H : (round_half_even (x * 100) <= round_half_even (y * 100))%Z)
    by (apply round_half_even_mono; lra).
  rewrite Zle_Qle in H. revert H.
  generalize (inject_Z (round_half_even (x * 100))).
  generalize (inject_Z (round_half_even (y * 100))).
  intros a b H. unfold Qdiv. change (/ 100) with (1 # 100). lra.
Qed.

Lemma round2_zero : round2 0 == 0.
Proof. vm_compute. reflexivity. Qed.

Lemma Qinv_le (a b : Q) : 0 < a -> a <= b -> 1 / b <= 1 / a.
Proof.
  intros Ha Hab. apply Qle_shift_div_r; [lra|].
  assert (E : 1 / a * b == b / a) by (field; lra).
  rewrite E. apply Qle_shift_div_l; [exact Ha | lra].
Qed.

Lemma sum_nonneg {A} (f : A -> Q) (l : list A) :
  (forall y, In y l -> 0 <= f y) -> 0 <= Py.sum (map f l).
Proof.
  induction l as [|x l IH]; intros H.
  - cbn [map]. rewrite PyFacts.sum_nil. lra.
  - cbn [map]. rewrite PyFacts.sum_cons.
    assert (0 <= f x) by (apply H; now left).
    assert (0 <= Py.sum (map f l)) by (apply IH; intros y Hy; apply H; now right).
    lra.
Qed.

(** A sum of non-negative numbers is at least each of them. *)
Lemma sum_ge_elem {A} (f : A -> Q) (l : list A) (x : A) :
  (forall y, In y l -> 0 <= f y) -> In x l -> f x <= Py.sum (map f l).
Proof.
  induction l as [|z l IH]; intros H Hin; [destruct Hin|].
  cbn [map]. rewrite PyFacts.sum_cons.
  assert (Hz : 0 <= f z) by (apply H; now left).
  assert (Hl : 0 <= Py.sum (map f l))
    by (apply sum_nonneg; intros y Hy; apply H; now right).
  destruct Hin as [->|Hin]; [lra|].
  assert (f x <= Py.sum (map f l)) by (apply IH; auto; intros y Hy; apply H; now right).
  lra.
Qed.

End RoundFacts.

(** X7.  With a positive total stake and positive best odds, no stake of an
    opportunity is negative and none is larger than the total stake
    rounded to cents; and of two outcomes the one with the higher odds
    never gets the larger stake. *)
Theorem stakes_are_bounded_and_ordered_by_odds
    (config : Config) (matches : list Match) (T : Q)
    (sbs : list SureBet) (sb : SureBet) :
  find_surebets config matches T = Ok sbs -> In sb sbs ->
  0 < T -> (forall r, In r (sb_stakes sb) -> 0 < row_odds r) ->
  (forall r, In r (sb_stakes sb) -> 0 <= row_stake r <= round2 T) /\
  (forall r r', In r (sb_stakes sb) -> In r' (sb_stakes sb) ->
     row_odds r <= row_odds r' -> row_stake r' <= row_stake r).
Proof.
  intros H Hin HT Hpos.
  destruct (EmittedFacts.emitted_inv config matches T sbs sb H Hin)
    as (m & market & ol & bo & _ & _ & _ & Hnz & Hne & HW & _ & _ & ->).
  cbn [sb_stakes surebet_of] in *.
  set (W := reciprocal_sum bo) in *.
  assert (Hv : forall kv, In kv bo -> 0 < value (snd kv)).
  { intros kv Hkv. apply (Hpos (row_of W T kv)). now apply in_map. }
  assert (Hinv : forall kv, In kv bo -> 0 < 1 / value (snd kv)).
  { intros kv Hkv. apply Qlt_shift_div_l; [now apply Hv | lra]. }
  assert (HWpos : 0 < W).
  { unfold W, reciprocal_sum. apply PyFacts.sum_pos; assumption. }
  assert (Hle : forall kv, In kv bo -> 1 / value (snd kv) <= W).
  { intros kv Hkv. unfold W, reciprocal_sum.
    apply (RoundFacts.sum_ge_elem (fun kv : string * Odd => 1 / value (snd kv)));
      [|exact Hkv].
    intros y Hy. apply Qlt_le_weak. now apply Hinv. }
  assert (HTW : 0 <= T / W).
  { apply Qle_shift_div_l; [exact HWpos | lra]. }
  split.
  - intros r Hr. apply in_map_iff in Hr as (kv & <- & Hkv).
    cbn [row_stake row_of].
    assert (Hvk := Hv kv Hkv).
    assert (E : 1 / value (snd kv) / W * T == 1 / value (snd kv) * (T / W))
      by (field; split; lra).
    assert (H0 : 0 <= 1 / value (snd kv) / W * T).
    { rewrite E. apply Qmult_le_0_compat; [|exact HTW].
      apply Qlt_le_weak. now apply Hinv. }
    assert (H1 : 1 / value (snd kv) / W * T <= T).
    { assert (Hq : 1 / value (snd kv) / W <= 1).
      { apply Qle_shift_div_r; [exact HWpos|]. rewrite Qmult_1_l. now apply Hle. }
      assert (Hm := Qmult_le_compat_r _ _ T Hq (Qlt_le_weak _ _ HT)).
      now rewrite Qmult_1_l in Hm. }
    split.
    + rewrite <- RoundFacts.round2_zero. now apply RoundFacts.round2_mono.
    + now apply RoundFacts.round2_mono.
  - intros r r' Hr Hr' Hodds.
    apply in_map_iff in Hr as (kv & <- & Hkv).
    apply in_map_iff in Hr' as (kv' & <- & Hkv').
    cbn [row_stake row_odds row_of] in *.
    apply RoundFacts.round2_mono.
    assert (E : forall v, ~ v == 0 -> 1 / v / W * T == 1 / v * (T / W))
      by (intros v Hv0; field; split; first [lra | exact Hv0]).
    rewrite (E (value (snd kv'))), (E (value (snd kv))).
    + apply Qmult_le_compat_r; [|exact HTW].
      apply RoundFacts.Qinv_le; [now apply Hv | exact Hodds].
    + intros E0. specialize (Hv _ Hkv). lra.
    + intros E0. specialize (Hv _ Hkv'). lra.
Qed.

Lemma stakes_are_bounded_and_ordered_by_odds_witness :
  Forall (fun r => 0 <= row_stake r <= round2 10000) (sb_stakes demo_surebet).
Proof.
  apply Forall_forall.
  destruct (stakes_are_bounded_and_ordered_by_odds
              SUREBET_CONFIG [demo_match] 10000 [demo_surebet] demo_surebet)
    as (Hb & _).
  - vm_compute. reflexivity.
  - now left.
  - reflexivity.
  - intros r Hr. cbn in Hr.
    destruct Hr as [<-|[<-|[<-|[]]]]; reflexivity.
  - exact Hb.
Defined.

(** ** More quotes for the same market *)

Module MergeFacts.

Lemma mem_keys {V} (k : string) (d : Dict.t V) :
  In k (Dict.keys d) -> Dict.mem k d = true.
Proof.
  intros Hin. unfold Dict.mem.
  destruct (Dict.get k d) as [v|] eqn:E; [reflexivity|].
  apply DictFacts.get_None_keys in E. contradiction.
Qed.

(** Quotes for outcomes that are already quoted add no outcome. *)
Lemma keys_group_app (l1 l2 : list Odd) :
  (forall q, In q l2 -> exists q', In q' l1 /\ outcome q' = outcome q) ->
  Dict.keys (group_by_outcome (l1 ++ l2)) = Dict.keys (group_by_outcome l1).
Proof.
  induction l2 as [|q l2 IH] using rev_ind; intros H.
  - now rewrite app_nil_r.
  - rewrite app_assoc, GroupFacts.group_snoc, GroupFacts.keys_group_step.
    assert (IH' : Dict.keys (group_by_outcome (l1 ++ l2))
                  = Dict.keys (group_by_outcome l1)).
    { apply IH. intros q0 Hq0. apply H. apply in_or_app. now left. }
    rewrite mem_keys; [exact IH'|].
    rewrite IH'. apply GroupFacts.In_keys_group.
    apply H. apply in_or_app. right. now left.
Qed.

(** Higher odds for every outcome give a smaller sum of reciprocals. *)
Lemma reciprocal_sum_mono (b1 b12 : Dict.t Odd) :
  Dict.keys b12 = Dict.keys b1 ->
  (forall o q12 q1, In (o, q12) b12 -> In (o, q1) b1 ->
     0 < value q1 /\ value q1 <= value q12) ->
  reciprocal_sum b12 <= reciprocal_sum b1.
Proof.
  revert b12. induction b1 as [|[o1 q1] b1 IH]; intros [|[o2 q2] b12] Hk H;
    unfold Dict.keys in Hk; cbn [map fst] in Hk;
    [apply Qle_refl | discriminate Hk | discriminate Hk |].
  injection Hk as Ho Hk. subst o2. unfold reciprocal_sum in *.
    cbn [map snd]. rewrite !PyFacts.sum_cons.
    destruct (H o1 q2 q1 (or_introl eq_refl) (or_introl eq_refl)) as (Hp & Hle).
    assert (H1 : 1 / value q2 <= 1 / value q1)
      by now apply RoundFacts.Qinv_le.
    assert (H2 := IH b12 Hk (fun o a b Ha Hb =>
                               H o a b (or_intror Ha) (or_intror Hb))).
    lra.
Qed.

Lemma margin_of_antitone (s s' : Q) : s' <= s -> margin_of s <= margin_of s'.
Proof.
  intros Hs. unfold margin_of.
  destruct (Qle_bool 1 s) eqn:E; destruct (Qle_bool 1 s') eqn:E'.
  - apply Qle_refl.
  - assert (~ 1 <= s') by (rewrite <- Qle_bool_iff; congruence). lra.
  - apply Qle_bool_iff in E'.
    assert (~ 1 <= s) by (rewrite <- Qle_bool_iff; congruence). lra.
  - lra.
Qed.

End MergeFacts.

(** X8.  Quotes appended to the quote list of a market, as the consolidation
    of a further bookmaker does, never lower the best odds of an outcome.
    When they bring no new outcome and the odds are positive, the outcomes
    stay as they are, the sum of the reciprocal best odds does not grow
    and the margin does not shrink. *)
Theorem more_quotes_never_lower_best_odds
    (l1 l2 : list Odd) (b1 b12 : Dict.t Odd) :
  select_best (group_by_outcome l1) = Ok b1 ->
  select_best (group_by_outcome (l1 ++ l2)) = Ok b12 ->
  (forall o q1, In (o, q1) b1 ->
     exists q12, In (o, q12) b12 /\ value q1 <= value q12) /\
  ((forall q, In q l2 -> exists q', In q' l1 /\ outcome q' = outcome q) ->
   (forall q, In q l1 -> 0 < value q) ->
   Dict.keys b12 = Dict.keys b1 /\
   reciprocal_sum b12 <= reciprocal_sum b1 /\
   margin_of (reciprocal_sum b1) <= margin_of (reciprocal_sum b12)).
Proof.
  intros H1 H12.
  assert (Hup : forall o q12 q1, In (o, q12) b12 -> In (o, q1) b1 ->
                  value q1 <= value q12).
  { intros o q12 q1 Hq12 Hq1.
    destruct (GroupFacts.best_In l1 b1 o q1 H1 Hq1) as (Hin & Ho).
    apply (RowFacts.best_bounds (l1 ++ l2) b12 o q12 H12 Hq12 q1);
      [apply in_or_app; now left | exact Ho]. }
  split.
  - intros o q1 Hq1.
    destruct (GroupFacts.best_In l1 b1 o q1 H1 Hq1) as (Hin & Ho).
    assert (Hk : In o (Dict.keys b12)).
    { rewrite (RowFacts.best_keys (l1 ++ l2) b12 H12).
      apply GroupFacts.In_keys_group. exists q1. split; [|exact Ho].
      apply in_or_app. now left. }
    apply in_map_iff in Hk as ([o' q12] & Eo & Hq12). cbn in Eo. subst o'.
    exists q12. split; [exact Hq12|]. now apply (Hup o).
  - intros Hsame Hpos.
    assert (Hk : Dict.keys b12 = Dict.keys b1).
    { rewrite (RowFacts.best_keys (l1 ++ l2) b12 H12),
              (RowFacts.best_keys l1 b1 H1).
      now apply MergeFacts.keys_group_app. }
    assert (Hs : reciprocal_sum b12 <= reciprocal_sum b1).
    { apply MergeFacts.reciprocal_sum_mono; [exact Hk|].
      intros o q12 q1 Hq12 Hq1. split; [|now apply (Hup o)].
      apply Hpos. now destruct (GroupFacts.best_In l1 b1 o q1 H1 Hq1). }
    split; [exact Hk|]. split; [exact Hs|].
    now apply MergeFacts.margin_of_antitone.
Qed.

Lemma more_quotes_never_lower_best_odds_witness :
  reciprocal_sum demo_best <= reciprocal_sum fair_best /\
  margin_of (reciprocal_sum fair_best) <= margin_of (reciprocal_sum demo_best).
Proof.
  destruct (more_quotes_never_lower_best_odds
              [ mkOdd "BetWarrior" "1" 2 1; mkOdd "Codere" "X" 2 2;
                mkOdd "Bplay" "2" 2 3 ]
              demo_odds
              [ ("1"%string, mkOdd "BetWarrior" "1" 2 1);
                ("X"%string, mkOdd "Codere" "X" 2 2);
                ("2"%string, mkOdd "Bplay" "2" 2 3) ]
              demo_best) as (_ & H).
  - vm_compute. reflexivity.
  - vm_compute. reflexivity.
  - split; vm_compute; discriminate.
Defined.

(** * Further properties of the consolidation *)

Module QuoteFacts.

Lemma extends_refl (d : Dict.t (list Odd)) : extends d d.
Proof. intros k l H. exists []. now rewrite app_nil_r. Qed.

Lemma extends_trans (d1 d2 d3 : Dict.t (list Odd)) :
  extends d1 d2 -> extends d2 d3 -> extends d1 d3.
Proof.
  intros H12 H23 k l H. destruct (H12 k l H) as (l2 & E2).
  destruct (H23 k _ E2) as (l3 & E3). exists (l2 ++ l3).
  now rewrite app_assoc.
Qed.

Lemma included_of_extends (d d' : Dict.t (list Odd)) :
  extends d d' -> included d d'.
Proof. intros H k l E. destruct (H k l E) as (l2 & E2). now exists [], l2. Qed.

Lemma included_extends (d1 d2 d3 : Dict.t (list Odd)) :
  included d1 d2 -> extends d2 d3 -> included d1 d3.
Proof.
  intros H12 H23 k l H. destruct (H12 k l H) as (l1 & l2 & E2).
  destruct (H23 k _ E2) as (l3 & E3). exists l1, (l2 ++ l3).
  rewrite E3. now rewrite <- !app_assoc.
Qed.

(** One market of the incoming match: its quotes go to the end of the
    list of that market, the other markets stay. *)
Lemma get_merge_step (target : Dict.t (list Odd)) (market : string)
    (quotes : list Odd) (k : string) :
  Dict.get k (merge_step target (market, quotes))
  = if String.eqb market k
    then Some (match Dict.get k target with Some l => l | None => [] end ++ quotes)
    else Dict.get k target.
Proof.
  unfold merge_step, Dict.mem.
  destruct (String.eqb market k) eqn:E.
  - apply String.eqb_eq in E. subst k.
    rewrite DictFacts.get_update_same.
    destruct (Dict.get market target) as [l|] eqn:Eg; cbn [negb].
    + now rewrite Eg.
    + now rewrite DictFacts.get_set_same.
  - apply String.eqb_neq in E.
    rewrite DictFacts.get_update_other by congruence.
    destruct (Dict.get market target); cbn [negb]; [reflexivity|].
    apply DictFacts.get_set_other. congruence.
Qed.

Lemma extends_merge_step (target : Dict.t (list Odd))
    (item : string * list Odd) :
  extends target (merge_step target item).
Proof.
  destruct item as [market quotes]. intros k l H.
  rewrite get_merge_step, H.
  destruct (String.eqb market k); [now exists quotes|].
  exists []. now rewrite app_nil_r.
Qed.

Lemma extends_merge (items target : Dict.t (list Odd)) :
  extends target (fold_left merge_step items target).
Proof.
  revert target. induction items as [|item items IH]; intros target; simpl.
  - apply extends_refl.
  - eapply extends_trans; [apply extends_merge_step | apply IH].
Qed.

(** Every quote list of the incoming match ends up in the target. *)
Lemma merged_in (items target : Dict.t (list Odd)) (market : string)
    (quotes : list Odd) :
  In (market, quotes) items ->
  exists l1 l2,
    Dict.get market (fold_left merge_step items target) = Some (l1 ++ quotes ++ l2).
Proof.
  revert target. induction items as [|item items IH]; intros target Hin;
    [destruct Hin|].
  destruct Hin as [->|Hin]; cbn [fold_left].
  - assert (E : Dict.get market (merge_step target (market, quotes))
                = Some (match Dict.get market target with
                        | Some l => l | None => [] end ++ quotes)).
    { rewrite get_merge_step. now rewrite String.eqb_refl. }
    destruct (extends_merge items _ market _ E) as (l2 & E2).
    eexists _, l2. rewrite E2. now rewrite <- app_assoc.
  - now apply IH.
Qed.

Lemma first_with_key_app (h : heap) (k : string) (refs1 refs2 : list ref) :
  first_with_key h k (refs1 ++ refs2)
  = match first_with_key h k refs1 with
    | Some e => Some e
    | None => first_with_key h k refs2
    end.
Proof.
  induction refs1 as [|r refs1 IH]; simpl; [reflexivity|].
  destruct (deref h r) as [m|]; [|exact IH].
  destruct (String.eqb (key m) k); [reflexivity | exact IH].
Qed.

Lemma In_values {V} (k : string) (v : V) (d : Dict.t V) :
  Dict.get k d = Some v -> In v (Dict.values d).
Proof.
  intros H. apply DictFacts.get_In in H.
  unfold Dict.values. apply in_map_iff. now exists (k, v).
Qed.

Lemma In_values_set {V} (k : string) (v v' : V) (d : Dict.t V) :
  Dict.get k d = None -> In v' (Dict.values d) ->
  In v' (Dict.values (Dict.set k v d)).
Proof.
  induction d as [|[k0 v0] d IH]; simpl; intros Hg Hin; [destruct Hin|].
  destruct (String.eqb k k0) eqn:E; [discriminate|].
  simpl. destruct Hin as [->|Hin]; [now left | right; now apply IH].
Qed.

Lemma set_odds_odds (m : Match) : set_odds m (odds m) = m.
Proof. now destruct m. Qed.

Lemma odds_set_odds (m : Match) (o : Dict.t (list Odd)) : odds (set_odds m o) = o.
Proof. reflexivity. Qed.

Lemma inv_quotes_init (h0 : heap) : quotes_inv h0 (h0, []) [].
Proof.
  split; [|split; [|split]]; cbn [fst snd].
  - intros r m0 H. exists m0. split; [exact H | apply extends_refl].
  - reflexivity.
  - reflexivity.
  - intros r m0 [].
Qed.

Lemma inv_quotes_step (h0 : heap) (st : heap * Dict.t ref) (seen : list ref)
    (r : ref) :
  Spec.consolidation_inv h0 st seen -> quotes_inv h0 st seen ->
  quotes_inv h0 (consolidate_step st r) (seen ++ [r]).
Proof.
  destruct st as [h cons].
  intros (Hobj & Hnone & Hnd & Hent & Hseen) (Hgrow & Hframe & Hfirst & Hkept).
  cbn [fst snd] in *. unfold consolidate_step.
  destruct (deref h r) as [m|] eqn:Er.
  2:{ assert (E0 : deref h0 r = None).
      { destruct (deref h0 r) as [m0|] eqn:E0; [|reflexivity].
        destruct (Hobj r m0 E0) as (o & Ho). congruence. }
      split; [|split; [|split]]; cbn [fst snd]; auto.
      - intros k. rewrite first_with_key_app, <- Hfirst. simpl. rewrite E0.
        now destruct (Dict.get k cons).
      - intros r1 m0 Hin Hr1.
        apply in_app_or in Hin as [Hin|[<-|[]]]; [eauto | congruence]. }
  assert (Hr : exists m0, deref h0 r = Some m0 /\ key m0 = key m /\
                          extends (odds m0) (odds m)).
  { destruct (deref h0 r) as [m0|] eqn:E0.
    - exists m0. split; [reflexivity|].
      destruct (Hobj r m0 E0) as (o & Ho). rewrite Er in Ho.
      injection Ho as ->. split; [reflexivity|].
      destruct (Hgrow r m0 E0) as (m' & Em' & Hext). rewrite Er in Em'.
      now injection Em' as <-.
    - rewrite (Hnone r E0) in Er. discriminate. }
  destruct Hr as (mr & Hmr & Hkr & Hextr).
  assert (Hone : forall k, first_with_key h0 k [r]
                           = if String.eqb (key m) k then Some r else None).
  { intros k. simpl. rewrite Hmr, Hkr. now destruct (String.eqb (key m) k). }
  destruct (Dict.get (key m) cons) as [r0|] eqn:Eg.
  - assert (Hin0 := DictFacts.get_In _ _ _ _ Eg).
    destruct (Hent _ _ Hin0) as (m00 & Hr0 & Hk0).
    destruct (Hgrow r0 m00 Hr0) as (m0 & Em0 & Hext0). rewrite Em0.
    set (o' := fold_left merge_step (odds m) (odds m0)).
    assert (Hext' : extends (odds m0) o') by apply extends_merge.
    split; [|split; [|split]]; cbn [fst snd].
    + intros r1 m1 H1. destruct (Nat.eq_dec r1 r0) as [->|Hne].
      * rewrite (ConsolidationFacts.deref_store_same h r0 m0 _ Em0).
        eexists. split; [reflexivity|]. rewrite odds_set_odds.
        rewrite Hr0 in H1. injection H1 as <-.
        now apply (extends_trans _ (odds m0)).
      * rewrite (ConsolidationFacts.deref_store_other h r0 r1 _ Hne).
        now apply Hgrow.
    + intros r1 Hr1. assert (Hne : r1 <> r0).
      { intros ->. apply Hr1. now apply (In_values (key m)). }
      rewrite (ConsolidationFacts.deref_store_other h r0 r1 _ Hne).
      now apply Hframe.
    + intros k. rewrite first_with_key_app, <- Hfirst, Hone.
      destruct (Dict.get k cons) as [e|] eqn:Ek; [reflexivity|].
      destruct (String.eqb (key m) k) eqn:E; [|reflexivity].
      apply String.eqb_eq in E. congruence.
    + intros r1 m1 Hin H1.
      assert (Hold : forall e me, deref h e = Some me ->
                exists me', deref (store h r0 (set_odds m0 o')) e = Some me' /\
                            extends (odds me) (odds me')).
      { intros e me He. destruct (Nat.eq_dec e r0) as [->|Hne].
        - rewrite (ConsolidationFacts.deref_store_same h r0 m0 _ Em0).
          eexists. split; [reflexivity|]. rewrite odds_set_odds.
          rewrite Em0 in He. now injection He as <-.
        - rewrite (ConsolidationFacts.deref_store_other h r0 e _ Hne).
          exists me. split; [exact He | apply extends_refl]. }
      apply in_app_or in Hin as [Hin|[<-|[]]].
      * destruct (Hkept r1 m1 Hin H1) as (e & me & Ee & Eme & Hinc).
        destruct (Hold e me Eme) as (me' & Eme' & Hext).
        exists e, me'. split; [exact Ee|]. split; [exact Eme'|].
        now apply (included_extends _ (odds me)).
      * rewrite Hmr in H1. injection H1 as <-. rewrite Hkr.
        exists r0, (set_odds m0 o'). split; [exact Eg|].
        split; [apply (ConsolidationFacts.deref_store_same h r0 m0 _ Em0)|].
        rewrite odds_set_odds. intros k l Hl.
        destruct (Hextr k l Hl) as (l2 & El2).
        destruct (merged_in (odds m) (odds m0) k (l ++ l2)
                    (DictFacts.get_In _ _ _ _ El2)) as (l1 & l3 & E).
        exists l1, (l2 ++ l3). fold o' in E. rewrite E.
        now rewrite <- !app_assoc.
  - split; [|split; [|split]]; cbn [fst snd].
    + exact Hgrow.
    + intros r1 Hr1. apply Hframe. intros Hin. apply Hr1.
      now apply In_values_set.
    + intros k. rewrite first_with_key_app, <- Hfirst, Hone.
      destruct (String.eqb (key m) k) eqn:E.
      * apply String.eqb_eq in E. subst k. rewrite Eg.
        apply DictFacts.get_set_same.
      * apply String.eqb_neq in E.
        rewrite DictFacts.get_set_other by congruence.
        now destruct (Dict.get k cons).
    + intros r1 m1 Hin H1.
      apply in_app_or in Hin as [Hin|[<-|[]]].
      * destruct (Hkept r1 m1 Hin H1) as (e & me & Ee & Eme & Hinc).
        exists e, me. split; [|now split].
        rewrite DictFacts.get_set_other; [exact Ee|]. congruence.
      * rewrite Hmr in H1. injection H1 as <-. rewrite Hkr.
        exists r, m. split; [apply DictFacts.get_set_same|].
        split; [exact Er|]. now apply included_of_extends.
Qed.

Lemma inv_quotes_fold (h0 : heap) (refs seen : list ref)
    (st : heap * Dict.t ref) :
  Spec.consolidation_inv h0 st seen -> quotes_inv h0 st seen ->
  Spec.consolidation_inv h0 (fold_left consolidate_step refs st) (seen ++ refs) /\
  quotes_inv h0 (fold_left consolidate_step refs st) (seen ++ refs).
Proof.
  revert seen st. induction refs as [|r refs IH]; intros seen st H1 H2; simpl.
  - rewrite app_nil_r. now split.
  - replace (seen ++ r :: refs) with ((seen ++ [r]) ++ refs)
      by now rewrite <- app_assoc.
    apply IH.
    + now apply ConsolidationFacts.inv_step.
    + now apply inv_quotes_step.
Qed.

Lemma inv_quotes_consolidate (h0 : heap) (all_matches : Dict.t (list ref)) :
  Spec.consolidation_inv h0 (consolidate h0 all_matches) (all_refs all_matches) /\
  quotes_inv h0 (consolidate h0 all_matches) (all_refs all_matches).
Proof.
  rewrite ConsolidationFacts.consolidate_flat.
  apply (inv_quotes_fold h0 (all_refs all_matches) [] (h0, [])).
  - apply ConsolidationFacts.inv_init.
  - apply inv_quotes_init.
Qed.

End QuoteFacts.

Module EntryFacts.

Lemma first_with_key_Some (h : heap) (k : string) (refs : list ref) (e : ref) :
  first_with_key h k refs = Some e ->
  In e refs /\ exists m0, deref h e = Some m0 /\ key m0 = k.
Proof.
  induction refs as [|r refs IH]; simpl; [discriminate|].
  destruct (deref h r) as [m|] eqn:Er.
  - destruct (String.eqb (key m) k) eqn:E.
    + intros [= <-]. apply String.eqb_eq in E. split; [now left|]. now exists m.
    + intros H. destruct (IH H) as (Hin & Hm). split; [now right | exact Hm].
  - intros H. destruct (IH H) as (Hin & Hm). split; [now right | exact Hm].
Qed.

Lemma first_with_key_None (h : heap) (k : string) (refs : list ref) :
  first_with_key h k refs = None <->
  forall r m0, In r refs -> deref h r = Some m0 -> key m0 <> k.
Proof.
  induction refs as [|r refs IH]; simpl.
  - split; [intros _ r m0 [] | reflexivity].
  - destruct (deref h r) as [m|] eqn:Er.
    + destruct (String.eqb (key m) k) eqn:E.
      * split; [discriminate|]. intros H. apply String.eqb_eq in E.
        destruct (H r m (or_introl eq_refl) Er E).
      * apply String.eqb_neq in E. rewrite IH. split.
        -- intros H r1 m1 [<-|Hin] H1; [congruence | eauto].
        -- intros H r1 m1 Hin H1. apply (H r1 m1); auto.
    + rewrite IH. split.
      * intros H r1 m1 [<-|Hin] H1; [congruence | eauto].
      * intros H r1 m1 Hin H1. apply (H r1 m1); auto.
Qed.

End EntryFacts.

(** X9.  The entry of [consolidated_matches] under a key is the first match of
    the input, in the order the loop visits the bookmakers and their
    matches, that has this key; there is no entry exactly when no match
    has the key.  The consolidated match is that first object: it keeps
    the league, the country and the match time the first source gave,
    whatever later sources say. *)
Theorem consolidated_entry_is_first_match_seen
    (h : heap) (all_matches : Dict.t (list ref)) (k : string) :
  let st := consolidate h all_matches in
  Dict.get k (snd st) = first_with_key h k (all_refs all_matches) /\
  (forall e, Dict.get k (snd st) = Some e ->
     In e (all_refs all_matches) /\
     exists m0 m,
       deref h e = Some m0 /\ key m0 = k /\ deref (fst st) e = Some m /\
       In m (match_list st) /\
       home_team m = home_team m0 /\ away_team m = away_team m0 /\
       league m = league m0 /\ country m = country m0 /\
       match_time m = match_time m0) /\
  (Dict.get k (snd st) = None <->
   forall r m0, In r (all_refs all_matches) -> deref h r = Some m0 ->
                key m0 <> k).
Proof.
  intros st.
  destruct (QuoteFacts.inv_quotes_consolidate h all_matches)
    as ((Hobj & _) & (_ & _ & Hfirst & _)).
  fold st in Hobj, Hfirst.
  split; [apply Hfirst|]. split.
  - intros e He. assert (Hf := He). rewrite Hfirst in Hf.
    destruct (EntryFacts.first_with_key_Some h k _ e Hf) as (Hin & m0 & Hm0 & Hk).
    split; [exact Hin|]. destruct (Hobj e m0 Hm0) as (o & Ho).
    exists m0, (set_odds m0 o). repeat (split; [solve [auto]|]).
    split; [|repeat split].
    unfold match_list. apply in_flat_map. exists e.
    split; [now apply (QuoteFacts.In_values k)|]. rewrite Ho. now left.
  - rewrite Hfirst. apply EntryFacts.first_with_key_None.
Qed.

(** X10.  Consolidation creates and removes no object and changes nothing but
    quote lists: every match of the input keeps its teams, league, country
    and match time, each of its quote lists is the list it had with quotes
    appended, and a match that is not an entry of [consolidated_matches]
    is exactly as it was. *)
Theorem consolidation_only_appends_quotes
    (h : heap) (all_matches : Dict.t (list ref)) (r : ref) (m0 : Match) :
  deref h r = Some m0 ->
  let st := consolidate h all_matches in
  exists m,
    deref (fst st) r = Some m /\
    home_team m = home_team m0 /\ away_team m = away_team m0 /\
    league m = league m0 /\ country m = country m0 /\
    match_time m = match_time m0 /\
    extends (odds m0) (odds m) /\
    (~ In r (Dict.values (snd st)) -> m = m0).
Proof.
  intros Hr st.
  destruct (QuoteFacts.inv_quotes_consolidate h all_matches)
    as ((Hobj & _) & (Hgrow & Hframe & _)).
  fold st in Hobj, Hgrow, Hframe.
  destruct (Hobj r m0 Hr) as (o & Ho).
  destruct (Hgrow r m0 Hr) as (m & Em & Hext).
  exists m. split; [exact Em|].
  rewrite Ho in Em. injection Em as <-.
  repeat (split; [reflexivity|]). split; [exact Hext|].
  intros Hnot. rewrite (Hframe r Hnot), Hr in Ho. now injection Ho.
Qed.

Lemma consolidation_only_appends_quotes_witness :
  exists m,
    deref (fst (consolidate fixture_heap two_sources)) 0%nat = Some m /\
    league m = league betwarrior_match /\
    extends (odds betwarrior_match) (odds m).
Proof.
  destruct (consolidation_only_appends_quotes
              fixture_heap two_sources 0%nat betwarrior_match eq_refl)
    as (m & H1 & _ & _ & H2 & _ & _ & H3 & _).
  exists m. repeat split; assumption.
Defined.

(** X11.  Consolidation loses no quote: every quote list of every match of the
    input is, as a whole and in its order, a segment of the quote list
    of the same market in the consolidated match of its key, and that
    match is in the list handed to the detector. *)
Theorem consolidation_keeps_every_quote
    (h : heap) (all_matches : Dict.t (list ref)) (r : ref) (m0 : Match)
    (market : string) (quotes : list Odd) :
  In r (all_refs all_matches) -> deref h r = Some m0 ->
  Dict.get market (odds m0) = Some quotes ->
  let st := consolidate h all_matches in
  exists e me l1 l2,
    Dict.get (key m0) (snd st) = Some e /\
    deref (fst st) e = Some me /\
    In me (match_list st) /\
    Dict.get market (odds me) = Some (l1 ++ quotes ++ l2).
Proof.
  intros Hin Hr Hq st.
  destruct (QuoteFacts.inv_quotes_consolidate h all_matches)
    as (_ & (_ & _ & _ & Hkept)).
  fold st in Hkept.
  destruct (Hkept r m0 Hin Hr) as (e & me & Ee & Eme & Hinc).
  destruct (Hinc market quotes Hq) as (l1 & l2 & E).
  exists e, me, l1, l2. repeat (split; [assumption|]). split; [|exact E].
  unfold match_list. apply in_flat_map. exists e.
  split; [now apply (QuoteFacts.In_values (key m0))|]. rewrite Eme. now left.
Qed.

Lemma consolidation_keeps_every_quote_witness :
  exists e me l1 l2,
    Dict.get (key codere_match) (snd (consolidate fixture_heap two_sources))
    = Some e /\
    deref (fst (consolidate fixture_heap two_sources)) e = Some me /\
    In me (match_list (consolidate fixture_heap two_sources)) /\
    Dict.get "1X2"%string (odds me) = Some (l1 ++ codere_quotes ++ l2).
Proof.
  apply (consolidation_keeps_every_quote
           fixture_heap two_sources 1%nat codere_match "1X2" codere_quotes).
  - right. now left.
  - reflexivity.
  - reflexivity.
Defined.

(** * Grouping the quotes of a market *)

Module PartitionFacts.

Lemma concat_values_set_new (k : string) (d : Dict.t (list Odd)) :
  Dict.get k d = None ->
  List.concat (Dict.values (Dict.set k [] d)) = List.concat (Dict.values d).
Proof.
  induction d as [|[k0 v0] d IH]; simpl; intros H; [reflexivity|].
  destruct (String.eqb k k0); [discriminate|]. simpl. now rewrite IH.
Qed.

Lemma concat_values_update (k : string) (q : Odd) (d : Dict.t (list Odd)) :
  Dict.mem k d = true ->
  Permutation (List.concat (Dict.values (Dict.update k (fun l => l ++ [q]) d)))
              (q :: List.concat (Dict.values d)).
Proof.
  unfold Dict.mem. induction d as [|[k0 v0] d IH]; simpl; [discriminate|].
  destruct (String.eqb k k0); simpl; intros H.
  - rewrite <- app_assoc. simpl. apply Permutation_sym, Permutation_middle.
  - eapply Permutation_trans; [apply Permutation_app_head, IH, H|].
    apply Permutation_sym, Permutation_middle.
Qed.

Lemma concat_group_step (d : Dict.t (list Odd)) (q : Odd) :
  Permutation (List.concat (Dict.values (group_step d q)))
              (q :: List.concat (Dict.values d)).
Proof.
  unfold group_step. destruct (Dict.mem (outcome q) d) eqn:E; cbn [negb].
  - now apply concat_values_update.
  - assert (Eg : Dict.get (outcome q) d = None).
    { unfold Dict.mem in E. now destruct (Dict.get (outcome q) d). }
    rewrite <- (concat_values_set_new (outcome q) d Eg).
    apply concat_values_update. unfold Dict.mem.
    now rewrite DictFacts.get_set_same.
Qed.

Lemma concat_group (l : list Odd) :
  Permutation (List.concat (Dict.values (group_by_outcome l))) l.
Proof.
  induction l as [|q l IH] using rev_ind; [reflexivity|].
  rewrite GroupFacts.group_snoc.
  eapply Permutation_trans; [apply concat_group_step|].
  eapply Permutation_trans; [apply perm_skip, IH|].
  apply Permutation_cons_append.
Qed.

(** The outcome of the first quote is the first key. *)
Lemma keys_group_head (q : Odd) (l : list Odd) :
  exists ks, Dict.keys (group_by_outcome (q :: l)) = outcome q :: ks.
Proof.
  induction l as [|x l IH] using rev_ind.
  - exists []. change (group_by_outcome [q]) with (group_by_outcome ([] ++ [q])).
    rewrite GroupFacts.group_snoc, GroupFacts.keys_group_step. reflexivity.
  - destruct IH as (ks & E). rewrite app_comm_cons, GroupFacts.group_snoc.
    rewrite GroupFacts.keys_group_step, E.
    destruct (Dict.mem (outcome x) (group_by_outcome (q :: l)));
      [now exists ks | now exists (ks ++ [outcome x])].
Qed.

End PartitionFacts.

(** X12.  Grouping the quotes of a market by outcome (the first step of the
    analysis) loses and repeats no quote: the groups together are a
    rearrangement of the quote list, there is one group per outcome that
    is quoted and none for another, the group of an outcome holds its
    quotes in the order of the list, and the first group is that of the
    first quote's outcome. *)
Theorem grouping_partitions_the_quotes (odds_list : list Odd) :
  let outcomes := group_by_outcome odds_list in
  NoDup (Dict.keys outcomes) /\
  (forall o, Dict.get o outcomes
             = match quotes_of o odds_list with [] => None | g => Some g end) /\
  (forall o, In o (Dict.keys outcomes) <->
             exists q, In q odds_list /\ outcome q = o) /\
  Permutation (List.concat (Dict.values outcomes)) odds_list /\
  (forall q rest, odds_list = q :: rest ->
                  exists ks, Dict.keys outcomes = outcome q :: ks).
Proof.
  intros outcomes. unfold outcomes.
  split; [apply GroupFacts.NoDup_keys_group|].
  split; [intros o; apply GroupFacts.get_group|].
  split; [intros o; apply GroupFacts.In_keys_group|].
  split; [apply PartitionFacts.concat_group|].
  intros q rest ->. apply PartitionFacts.keys_group_head.
Qed.

(** * The league option and the simulated extraction *)

Module SplitStrFacts.

Lemma split_nonempty (sep : ascii) (s : string) : Str.split sep s <> [].
Proof.
  destruct s as [|c s]; simpl; [discriminate|].
  destruct (Ascii.eqb c sep); [discriminate|].
  destruct (Str.split sep s); discriminate.
Qed.

Lemma join_split (sep : ascii) (s : string) :
  String.concat (String sep EmptyString) (Str.split sep s) = s.
Proof.
  induction s as [|c s IH]; [reflexivity|].
  cbn [Str.split]. pose proof (split_nonempty sep s) as Hne.
  destruct (Ascii.eqb c sep) eqn:E.
  - apply Ascii.eqb_eq in E. subst c.
    destruct (Str.split sep s) as [|f fs]; [congruence|].
    cbn [String.concat] in *. rewrite IH. reflexivity.
  - destruct (Str.split sep s) as [|f fs]; [congruence|].
    destruct fs as [|g gs]; cbn [String.concat] in *; now rewrite <- IH.
Qed.

Lemma split_fields_clean (sep : ascii) (s : string) (f : string) :
  In f (Str.split sep s) -> Str.contains sep f = false.
Proof.
  revert f. induction s as [|c s IH]; intros f; cbn [Str.split].
  - intros [<-|[]]. reflexivity.
  - destruct (Ascii.eqb c sep) eqn:E.
    + intros [<-|Hin]; [reflexivity | now apply IH].
    + destruct (Str.split sep s) as [|g gs].
      * intros [<-|[]]. cbn [Str.contains]. now rewrite E.
      * intros [<-|Hin].
        -- cbn [Str.contains]. rewrite E. apply IH. now left.
        -- apply IH. now right.
Qed.

Lemma split_clean (sep : ascii) (f : string) :
  Str.contains sep f = false -> Str.split sep f = [f].
Proof.
  induction f as [|c f IH]; [reflexivity|]. cbn [Str.contains Str.split].
  intros H. apply orb_false_iff in H as (Hc & Hf).
  rewrite Hc, (IH Hf). reflexivity.
Qed.

Lemma split_field_sep (sep : ascii) (f rest : string) :
  Str.contains sep f = false ->
  Str.split sep (f ++ String sep rest) = f :: Str.split sep rest.
Proof.
  induction f as [|c f IH]; cbn [Str.contains append Str.split].
  - intros _. now rewrite Ascii.eqb_refl.
  - intros H. apply orb_false_iff in H as (Hc & Hf).
    rewrite Hc, (IH Hf). reflexivity.
Qed.

Lemma split_join (sep : ascii) (fields : list string) :
  fields <> [] ->
  (forall f, In f fields -> Str.contains sep f = false) ->
  Str.split sep (String.concat (String sep EmptyString) fields) = fields.
Proof.
  induction fields as [|f fields IH]; [congruence|]. intros _ H.
  destruct fields as [|g gs].
  - cbn [String.concat]. apply split_clean. apply H. now left.
  - change (String.concat (String sep EmptyString) (f :: g :: gs))
      with (f ++ String sep (String.concat (String sep EmptyString) (g :: gs)))%string.
    rewrite split_field_sep by (apply H; now left).
    rewrite IH; [reflexivity | discriminate|].
    intros f' Hf'. apply H. now right.
Qed.

End SplitStrFacts.

(** X13.  [s.split(sep)] and [sep.join(fields)] are inverse to each other:
    splitting never gives an empty list, no field contains the separator,
    and joining the fields with the separator gives the string back;
    conversely a non-empty list of fields without separator is what the
    split of its join returns.  Nothing is trimmed or dropped: blanks and
    empty fields are kept. *)
Theorem split_and_join_are_inverse (sep : ascii) :
  (forall s, Str.split sep s <> [] /\
     (forall f, In f (Str.split sep s) -> Str.contains sep f = false) /\
     String.concat (String sep EmptyString) (Str.split sep s) = s) /\
  (forall fields, fields <> [] ->
     (forall f, In f fields -> Str.contains sep f = false) ->
     Str.split sep (String.concat (String sep EmptyString) fields) = fields).
Proof.
  split.
  - intros s. split; [apply SplitStrFacts.split_nonempty|].
    split; [apply SplitStrFacts.split_fields_clean | apply SplitStrFacts.join_split].
  - apply SplitStrFacts.split_join.
Qed.

(** X14.  The matches a scraper returns for a value of [--ligas]: without the
    option or with an empty value all sample matches, otherwise those
    whose league is, character for character, one of the comma-separated
    fields of the value, in the order of the sample.  A field is not
    trimmed: a blank after the comma makes it a different league. *)
Theorem league_option_selects_whole_fields
    (name : string) (now : nat -> Z) (ligas : option string) :
  let result := Scraper._extract_matches name now (Scraper.league_filter ligas) in
  let sample := Scraper._get_sample_data name now in
  (forall m, In m result <->
     In m sample /\
     match ligas with
     | None => True
     | Some s => s = ""%string \/ In (league m) (Str.split "," s)
     end) /\
  (ligas = None \/ ligas = Some ""%string -> result = sample) /\
  (forall s, ligas = Some s -> s <> ""%string ->
     result = filter (fun m => existsb (String.eqb (league m)) (Str.split "," s))
                     sample) /\
  Scraper._extract_matches name now
    (Scraper.league_filter (Some "Primera Division,La Liga"%string))
  = sample /\
  Scraper._extract_matches name now
    (Scraper.league_filter (Some "La Liga, Primera Division"%string))
  = [].
Proof.
  intros result sample.
  assert (Hfilter : forall s, s <> ""%string ->
            Scraper._extract_matches name now (Scraper.league_filter (Some s))
            = filter (fun m => existsb (String.eqb (league m)) (Str.split "," s))
                     sample).
  { intros s Hs. unfold Scraper.league_filter.
    destruct (String.eqb s "") eqn:E; [apply String.eqb_eq in E; congruence|].
    unfold Scraper._extract_matches.
    pose proof (SplitStrFacts.split_nonempty "," s) as Hne.
    destruct (Str.split "," s) as [|f fs]; [congruence | reflexivity]. }
  split; [|split; [|split; [|split]]].
  - intros m. unfold result. destruct ligas as [s|]; [|tauto].
    destruct (string_dec s "") as [->|Hs]; [cbn; tauto|].
    rewrite (Hfilter s Hs), filter_In. fold sample.
    split; intros (Hin & H); (split; [exact Hin|]).
    + right. apply existsb_exists in H as (f & Hf & E).
      apply String.eqb_eq in E. now subst f.
    + destruct H as [H|H]; [congruence|]. apply existsb_exists.
      exists (league m). split; [exact H | apply String.eqb_refl].
  - intros [->| ->]; reflexivity.
  - intros s -> Hs. now apply Hfilter.
  - reflexivity.
  - reflexivity.
Qed.

(** * The demo *)

(** X15.  [simulate_surebet_example] never returns [None]: for every total
    stake other than zero it returns the opportunity on the best quotes
    the comments of the source mark (BetWarrior 2.50 for the home win,
    Codere 3.60 for the draw, Bplay 3.30 for the away win) with the margin
    190/99, about 1.92 percent; for a total stake of zero it raises
    [ZeroDivisionError]. *)
Theorem demo_example_for_every_stake (now : nat -> Z) (T : Q) :
  (~ T == 0 ->
   exists sb,
     Demo.simulate_surebet_example now T = Ok (Some sb) /\
     sb_match sb = Demo.demo_match_at now /\ sb_market sb = "1X2"%string /\
     sb_margin sb == 190 # 99 /\ sb_total_stake sb = T /\
     map (fun r => (row_outcome r, row_bookmaker r, row_odds r)) (sb_stakes sb)
     = [ ("1", "BetWarrior", 250 # 100); ("X", "Codere", 360 # 100);
         ("2", "Bplay", 330 # 100) ]%string) /\
  (T == 0 -> Demo.simulate_surebet_example now T = Raise ZeroDivisionError).
Proof.
  set (ol := Scraper.odds_from now 0 Demo.demo_quotes).
  set (bo := [ ("1", mkOdd "BetWarrior" "1" (250 # 100) (now 0%nat));
               ("X", mkOdd "Codere" "X" (360 # 100) (now 4%nat));
               ("2", mkOdd "Bplay" "2" (330 # 100) (now 8%nat)) ]%string).
  assert (Hbest : select_best (group_by_outcome ol) = Ok bo)
    by (vm_compute; reflexivity).
  assert (Hnz : nonzero_odds bo).
  { intros kv [<-|[<-|[<-|[]]]]; q_differs. }
  assert (Hne : bo <> []) by discriminate.
  assert (HW : ~ reciprocal_sum bo == 0) by q_differs.
  assert (Hm : margin_of (reciprocal_sum bo) == 190 # 99)
    by (vm_compute; reflexivity).
  assert (Hrange : margen_minimo SUREBET_CONFIG <= margin_of (reciprocal_sum bo)
                   <= margen_maximo SUREBET_CONFIG).
  { rewrite Hm. split; vm_compute; discriminate. }
  assert (Hodds : odds (Demo.demo_match_at now) = [("1X2"%string, ol)])
    by reflexivity.
  assert (Hcall : forall r,
            _analyze_market SUREBET_CONFIG (Demo.demo_match_at now) "1X2" ol T = r ->
            Demo.simulate_surebet_example now T
            = (surebet <- r ;;
               Ok (match surebet with Some sb => Some sb | None => None end))).
  { intros r <-. unfold Demo.simulate_surebet_example, find_surebets.
    cbn [foldM]. unfold match_step. rewrite Hodds. cbn [foldM].
    unfold market_step.
    destruct (_analyze_market SUREBET_CONFIG (Demo.demo_match_at now) "1X2" ol T)
      as [[sb|]|e]; reflexivity. }
  split.
  - intros HT.
    rewrite (Hcall _ (AnalyzeFacts.analyze_accepts SUREBET_CONFIG
                        (Demo.demo_match_at now) "1X2" ol T bo Hbest Hnz Hne HW
                        HT Hrange)).
    eexists. split; [reflexivity|]. split; [reflexivity|].
    split; [reflexivity|]. split; [exact Hm|]. split; reflexivity.
  - intros HT.
    rewrite (Hcall _ (AnalyzeFacts.analyze_zero_stake SUREBET_CONFIG
                        (Demo.demo_match_at now) "1X2" ol T bo Hbest Hnz Hne HW
                        HT Hrange)).
    reflexivity.
Qed.

(** * Failure cases of the stake and margin computations *)

Module FailureFacts.

Import DetectorFacts.

(** A loop over steps that raise one kind of error raises that kind. *)
Lemma mapM_error_kind {A B} (f : A -> result B) (e : PyErr) (xs : list A)
    (v : PyErr) :
  (forall x v', In x xs -> f x = Raise v' -> v' = e) ->
  mapM f xs = Raise v -> v = e.
Proof.
  induction xs as [|x xs IH]; simpl; intros H; [discriminate|].
  destruct (f x) as [y|v'] eqn:E; simpl.
  - destruct (mapM f xs) as [ys|v'] eqn:E'; simpl; [discriminate|].
    intros [= <-]. apply IH; [|reflexivity]. intros x0 v0 Hin. apply H. now right.
  - intros [= <-]. apply (H x v'); [now left | exact E].
Qed.

Lemma truediv_error (a b : Q) (v : PyErr) :
  truediv a b = Raise v -> v = ZeroDivisionError.
Proof. unfold truediv. destruct (Qeq_bool b 0); [now intros [= <-] | discriminate]. Qed.

Lemma weights_error (best_odds : Dict.t Odd) (v : PyErr) :
  Dict.mapM (fun odd => truediv 1 (value odd)) best_odds = Raise v ->
  v = ZeroDivisionError.
Proof.
  unfold Dict.mapM. apply mapM_error_kind. intros kv v' _.
  destruct (truediv 1 (value (snd kv))) as [w|e] eqn:E; simpl; [discriminate|].
  intros [= <-]. now apply (truediv_error 1 (value (snd kv))).
Qed.

Lemma margin_error (best_odds : Dict.t Odd) (v : PyErr) :
  _calculate_margin best_odds = Raise v -> v = ZeroDivisionError.
Proof.
  unfold _calculate_margin, sum_inverse.
  destruct (mapM (fun odd => truediv 1 (value odd)) (Dict.values best_odds))
    as [invs|e] eqn:E; simpl.
  - destruct (Qle_bool 1 (Py.sum invs)); discriminate.
  - intros [= <-]. apply (mapM_error_kind _ ZeroDivisionError _ e) in E;
      [exact E|].
    intros x v' _. apply truediv_error.
Qed.

Lemma stakes_error (best_odds : Dict.t Odd) (T : Q) (v : PyErr) :
  NoDup (Dict.keys best_odds) ->
  _calculate_stakes best_odds T = Raise v -> v = ZeroDivisionError.
Proof.
  intros Hnd. unfold _calculate_stakes.
  destruct (Dict.mapM (fun odd => truediv 1 (value odd)) best_odds)
    as [ws|e] eqn:E; cbn [Py.bind].
  - pose proof (weights_Ok best_odds ws E) as Hnz.
    rewrite (weights_total best_odds Hnz) in E. injection E as <-.
    apply mapM_error_kind. intros [o odd] v' Hin. unfold stake_row.
    rewrite (get_weight best_odds o odd Hnd Hin).
    destruct (truediv (1 / value odd) _) as [q|e] eqn:Eq; simpl; [discriminate|].
    intros [= <-]. now apply truediv_error in Eq.
  - intros [= <-]. now apply weights_error in E.
Qed.

Lemma returns_Ok {A} (c : result A) : returns c <-> exists v, c = Ok v.
Proof.
  destruct c as [v|e]; simpl; split; try tauto.
  - intros _. now exists v.
  - intros (v & H). discriminate.
Qed.

End FailureFacts.

(** X16.  [_calculate_stakes] on a dict of best quotes: it returns exactly when
    no odds value is zero and the reciprocals do not add up to zero (or
    there is no outcome at all); whatever the total stake, zero included.
    It then gives one row per outcome, in the order of the dict.  When it
    fails the exception is [ZeroDivisionError]: the lookup of a weight
    never fails. *)
Theorem calculate_stakes_failure_cases (best_odds : Dict.t Odd) (T : Q) :
  NoDup (Dict.keys best_odds) ->
  (returns (_calculate_stakes best_odds T) <->
   nonzero_odds best_odds /\
   (best_odds = [] \/ ~ reciprocal_sum best_odds == 0)) /\
  (forall rows, _calculate_stakes best_odds T = Ok rows ->
     map row_outcome rows = Dict.keys best_odds /\
     map row_odds rows = map (fun kv => value (snd kv)) best_odds) /\
  (forall v, _calculate_stakes best_odds T = Raise v -> v = ZeroDivisionError).
Proof.
  intros Hnd. split; [|split].
  - rewrite FailureFacts.returns_Ok. split.
    + intros (rows & H).
      destruct (DetectorFacts.calculate_stakes_Ok best_odds T rows Hnd H)
        as (Hnz & HW & _).
      split; [exact Hnz|]. destruct best_odds as [|kv rest]; [now left|].
      right. apply HW. discriminate.
    + intros (Hnz & [->|HW]).
      * exists []. apply DetectorFacts.calculate_stakes_nil.
      * eexists. now apply DetectorFacts.calculate_stakes_total.
  - intros rows H.
    destruct (DetectorFacts.calculate_stakes_Ok best_odds T rows Hnd H)
      as (_ & _ & ->).
    split; [apply RowFacts.rows_outcomes|]. rewrite map_map. reflexivity.
  - intros v H. exact (FailureFacts.stakes_error best_odds T v Hnd H).
Qed.

Lemma calculate_stakes_failure_cases_witness :
  returns (_calculate_stakes demo_best 0) /\
  forall v, _calculate_stakes zero_best 100 = Raise v -> v = ZeroDivisionError.
Proof.
  split.
  - apply (calculate_stakes_failure_cases demo_best 0).
    + vm_compute. repeat constructor; simpl; intuition discriminate.
    + split.
      * intros kv [<-|[<-|[<-|[]]]]; q_differs.
      * right. q_differs.
  - apply (calculate_stakes_failure_cases zero_best 100).
    vm_compute. repeat constructor; simpl; intuition discriminate.
Defined.

(** X17.  [_calculate_margin] returns exactly when no odds value is zero, and
    otherwise raises [ZeroDivisionError].  The margin is never negative,
    and with positive odds it is at most 100. *)
Theorem margin_is_a_percentage (best_odds : Dict.t Odd) :
  (returns (_calculate_margin best_odds) <-> nonzero_odds best_odds) /\
  (forall v, _calculate_margin best_odds = Raise v -> v = ZeroDivisionError) /\
  (forall margin, _calculate_margin best_odds = Ok margin ->
     0 <= margin /\
     ((forall kv, In kv best_odds -> 0 < value (snd kv)) -> margin <= 100)).
Proof.
  split; [|split].
  - rewrite FailureFacts.returns_Ok. split.
    + intros (margin & H).
      now destruct (DetectorFacts.calculate_margin_Ok best_odds margin H).
    + intros Hnz. eexists. now apply DetectorFacts.calculate_margin_total.
  - intros v H. exact (FailureFacts.margin_error best_odds v H).
  - intros margin H.
    destruct (DetectorFacts.calculate_margin_Ok best_odds margin H) as (_ & ->).
    unfold margin_of.
    destruct (Qle_bool 1 (reciprocal_sum best_odds)) eqn:E.
    + split; [lra|]. intros _. lra.
    + assert (Hs : ~ 1 <= reciprocal_sum best_odds)
        by (rewrite <- Qle_bool_iff; congruence).
      split; [lra|]. intros Hpos.
      destruct best_odds as [|kv rest].
      * unfold reciprocal_sum. cbn [map]. rewrite PyFacts.sum_nil. lra.
      * assert (Hp : 0 < reciprocal_sum (kv :: rest)).
        { unfold reciprocal_sum. apply PyFacts.sum_pos; [discriminate|].
          intros x Hx. apply Qlt_shift_div_l; [now apply Hpos | lra]. }
        lra.
Qed.

(** * The live mode on the simulated extraction *)

Module LiveFacts.

(** A call in which every market is rejected returns the empty list. *)
Lemma all_rejected (config : Config) (matches : list Match) (T : Q) :
  (forall m market ol, In m matches -> In (market, ol) (odds m) ->
     _analyze_market config m market ol T = Ok None) ->
  find_surebets config matches T = Ok [].
Proof.
  intros H.
  assert (Hret : returns (find_surebets config matches T)).
  { apply AnalyzeFacts.find_surebets_returns. intros m market ol Hm Hmk.
    now rewrite (H m market ol Hm Hmk). }
  destruct (find_surebets config matches T) as [s|e] eqn:E; [|destruct Hret].
  rewrite (ScanFacts.matches_scan config T matches s E). f_equal.
  unfold scan. clear E Hret. induction matches as [|m matches IH]; [reflexivity|].
  cbn [flat_map]. rewrite IH by (intros; eapply H; eauto; now right).
  rewrite app_nil_r.
  assert (Hm : forall market ol, In (market, ol) (odds m) ->
                 _analyze_market config m market ol T = Ok None)
    by (intros; apply H; auto; now left).
  induction (odds m) as [|[market ol] items IHi]; [reflexivity|].
  cbn [flat_map]. unfold market_result at 1. cbn [fst snd].
  rewrite (Hm market ol (or_introl eq_refl)). cbn [app].
  apply IHi. intros. apply Hm. now right.
Qed.

(** A market whose reciprocals add up to 1 or more, under a positive
    minimum. *)
Lemma rejected_market (config : Config) (m : Match) (market : string)
    (ol : list Odd) (T : Q) (bo : Dict.t Odd) :
  select_best (group_by_outcome ol) = Ok bo -> nonzero_odds bo ->
  margin_of (reciprocal_sum bo) == 0 -> 0 < margen_minimo config ->
  _analyze_market config m market ol T = Ok None.
Proof.
  intros Hbest Hnz H0 Hmin.
  apply (AnalyzeFacts.analyze_reject_low config m market ol T bo Hbest Hnz).
  now rewrite H0.
Qed.

(** Every sample match is in "Primera Division": a filter keeps all of
    them or none, whatever the bookmaker. *)
Lemma extract_all_or_nothing (lf : option (list string)) :
  exists b : bool, forall name now,
    Scraper._extract_matches name now lf
    = if b then Scraper._get_sample_data name now else [].
Proof.
  destruct lf as [[|l ls]|]; try (exists true; reflexivity).
  exists (existsb (String.eqb "Primera Division") (l :: ls)).
  intros name now. unfold Scraper._extract_matches.
  change (Scraper._get_sample_data name now)
    with (Scraper.matches_from now 0 (Scraper.sample_data name)).
  cbn [Scraper.sample_data Scraper.matches_from Scraper.match_from
       Scraper.raw_odds Scraper.raw_home Scraper.raw_away Scraper.raw_league
       Scraper.raw_country fold_left Scraper.fill_market fst snd filter league].
  destruct (existsb (String.eqb "Primera Division") (l :: ls)); reflexivity.
Qed.

Ltac reject_markets :=
  let m := fresh "m" in
  let Hm := fresh "Hm" in
  let Hmk := fresh "Hmk" in
  intros m ? ? Hm Hmk; cbn [In] in Hm;
  repeat (destruct Hm as [<-|Hm]; [
    cbn [odds In] in Hmk; destruct Hmk as [Hmk|Hmk]; [|contradiction];
    injection Hmk as <- <-;
    eapply rejected_market;
    [ vm_compute; reflexivity
    | intros ? [<-|[<-|[<-|[]]]]; q_differs
    | vm_compute; reflexivity
    | assumption ] |]);
  contradiction.

End LiveFacts.

(** X18.  The live mode on the simulated extraction reports nothing: whatever
    the value of [--ligas], the total stake, the clock, and whichever
    bookmaker pages could be loaded, for every minimum margin above zero
    the detector returns the empty list, since every bookmaker delivers the
    same three matches with the same odds and their reciprocals add up
    to more than 1. *)
Theorem live_mode_on_sample_data_finds_nothing
    (playwright : bool) (page_loaded : string -> bool)
    (now : string -> nat -> Z) (ligas : option string) (margen stake : Q) :
  0 < margen ->
  Main.all_surebets playwright page_loaded now ligas margen stake = Ok [].
Proof.
  intros Hmargen. unfold Main.all_surebets. cbv zeta.
  destruct playwright; [|reflexivity].
  destruct (LiveFacts.extract_all_or_nothing (Scraper.league_filter ligas))
    as (b & Hb).
  cbv beta iota zeta delta [fold_left Main.BOOKMAKERS Main.scrape_step negb
                            Main.scrape_football_odds].
  rewrite !Hb. apply LiveFacts.all_rejected.
  destruct b;
    destruct (page_loaded "betwarrior"%string), (page_loaded "codere"%string),
             (page_loaded "bplay"%string), (page_loaded "betsson"%string);
    match goal with
    | |- forall m market ol, In m ?ml -> _ =>
        let ml' := eval vm_compute in ml in change ml with ml'
    end;
    LiveFacts.reject_markets.
Qed.

Lemma live_mode_on_sample_data_finds_nothing_witness :
  Main.all_surebets true (fun _ => true) (fun _ n => Z.of_nat n)
                    (Some "Primera Division"%string) 1 10000 = Ok [].
Proof.
  apply (live_mode_on_sample_data_finds_nothing
           true (fun _ => true) (fun _ n => Z.of_nat n)
           (Some "Primera Division"%string) 1 10000).
  reflexivity.
Defined.

(** * The odds export after the consolidation *)

(** X19.  [export_odds] runs on [all_matches] after the consolidation has
    appended quotes to some of its matches.  Every row the export would
    have written before the consolidation (bookmaker, market, quote) is
    still written after it: the consolidation only adds rows to the odds
    file, it removes none. *)
Theorem odds_export_after_consolidation_keeps_rows
    (h : heap) (all_matches : Dict.t (list ref)) :
  (forall r m, In r (all_refs all_matches) -> deref h r = Some m ->
     NoDup (Dict.keys (odds m))) ->
  forall row, In row (export_odds_rows h all_matches) ->
    In row (export_odds_rows (fst (consolidate h all_matches)) all_matches).
Proof.
  intros Hnd row Hrow. unfold export_odds_rows in *.
  apply in_flat_map in Hrow as (item & Hitem & Hrow).
  apply in_flat_map in Hrow as (r & Hr & Hrow).
  destruct (deref h r) as [m|] eqn:Em; [|destruct Hrow].
  apply in_flat_map in Hrow as ([market quotes] & Hmk & Hrow).
  apply in_map_iff in Hrow as (odd & <- & Hodd). cbn [fst snd] in *.
  assert (Hall : In r (all_refs all_matches)).
  { unfold all_refs. apply in_flat_map. now exists item. }
  destruct (QuoteFacts.inv_quotes_consolidate h all_matches)
    as (_ & (Hgrow & _)).
  destruct (Hgrow r m Em) as (m' & Em' & Hext).
  pose proof (DictFacts.In_get _ market quotes (odds m) (Hnd r m Hall Em) Hmk)
    as Hget.
  destruct (Hext market quotes Hget) as (l2 & Hget').
  apply in_flat_map. exists item. split; [exact Hitem|].
  apply in_flat_map. exists r. split; [exact Hr|]. rewrite Em'.
  apply in_flat_map. exists (market, quotes ++ l2).
  split; [now apply DictFacts.get_In|].
  apply in_map_iff. exists odd. split; [reflexivity|].
  apply in_or_app. now left.
Qed.

Lemma odds_export_after_consolidation_keeps_rows_witness :
  Forall (fun row =>
            In row (export_odds_rows (fst (consolidate fixture_heap two_sources))
                                     two_sources))
         (export_odds_rows fixture_heap two_sources).
Proof.
  apply Forall_forall.
  apply (odds_export_after_consolidation_keeps_rows fixture_heap two_sources).
  intros r m Hin Hr. cbn in Hin.
  destruct Hin as [<-|[<-|[]]]; cbn in Hr; injection Hr as <-;
    cbn; repeat constructor; intros [].
Defined.

(** * The exceptions of the detector *)

Module ErrorFacts.

Import DetectorFacts.

Lemma foldM_error {A S} (f : S -> A -> result S) (xs : list A) (s : S)
    (v : PyErr) :
  foldM f xs s = Raise v -> exists x s', In x xs /\ f s' x = Raise v.
Proof.
  revert s. induction xs as [|x xs IH]; intros s; simpl; [discriminate|].
  destruct (f s x) as [s'|e] eqn:E; simpl.
  - intros H. destruct (IH s' H) as (x0 & s0 & Hin & H0).
    exists x0, s0. split; [now right | exact H0].
  - intros [= <-]. exists x, s. split; [now left | exact E].
Qed.

(** The analysis of a market with no quote. *)
Lemma analyze_empty (config : Config) (m : Match) (market : string) (T : Q) :
  _analyze_market config m market [] T
  = if Qlt_le_dec ((1 - 0) * 100) (margen_minimo config) then Ok None
    else if Qlt_le_dec (margen_maximo config) ((1 - 0) * 100) then Ok None
    else Raise IndexError.
Proof.
  unfold _analyze_market. cbn.
  destruct (Qlt_le_dec _ _); [reflexivity|].
  destruct (Qlt_le_dec _ _); reflexivity.
Qed.

Lemma analyze_error (config : Config) (m : Match) (market : string)
    (ol : list Odd) (T : Q) (v : PyErr) :
  ol <> [] -> _analyze_market config m market ol T = Raise v ->
  v = ZeroDivisionError.
Proof.
  intros Hne H.
  destruct (GroupFacts.select_best_spec ol) as (bo & Hbest & _).
  assert (Hbo : bo <> [])
    by (intros E; apply Hne; exact (GroupFacts.best_nil ol bo Hbest E)).
  unfold _analyze_market in H. rewrite Hbest in H. cbn [Py.bind] in H.
  destruct (_calculate_margin bo) as [margin|e] eqn:Em; cbn [Py.bind] in H.
  2:{ injection H as <-. exact (FailureFacts.margin_error bo e Em). }
  destruct (Qlt_le_dec _ _); [discriminate|].
  destruct (Qlt_le_dec _ _); [discriminate|].
  destruct (_calculate_stakes bo T) as [rows|e] eqn:Es; cbn [Py.bind] in H.
  2:{ injection H as <-.
      exact (FailureFacts.stakes_error bo T e
               (GroupFacts.NoDup_keys_best ol bo Hbest) Es). }
  destruct (calculate_stakes_Ok bo T rows
              (GroupFacts.NoDup_keys_best ol bo Hbest) Es) as (_ & _ & ->).
  destruct bo as [|kv rest]; [congruence|].
  rewrite AnalyzeFacts.profit_rows in H. cbn [Py.bind] in H.
  destruct (truediv _ T) as [quot|e] eqn:Eq; cbn [Py.bind] in H; [discriminate|].
  injection H as <-. exact (FailureFacts.truediv_error _ T e Eq).
Qed.

End ErrorFacts.

(** X20.  A call of the detector that fails was stopped by the analysis of one
    of its markets, and the exception is of one of two kinds:
    [ZeroDivisionError], on a market that has quotes, or [IndexError], on
    a market without any quote when the margin range contains 100.  The
    [max] over the quotes of an outcome never fails and no dict lookup
    does. *)
Theorem detector_raises_division_or_index_error
    (config : Config) (matches : list Match) (T : Q) (v : PyErr) :
  find_surebets config matches T = Raise v ->
  exists m market ol,
    In m matches /\ In (market, ol) (odds m) /\
    _analyze_market config m market ol T = Raise v /\
    ((v = ZeroDivisionError /\ ol <> []) \/
     (v = IndexError /\ ol = [] /\
      margen_minimo config <= 100 <= margen_maximo config)).
Proof.
  intros H. unfold find_surebets in H.
  destruct (ErrorFacts.foldM_error _ matches [] v H) as (m & s & Hm & Hs).
  unfold match_step in Hs.
  destruct (ErrorFacts.foldM_error _ (odds m) s v Hs)
    as ([market ol] & s' & Hmk & Hs').
  unfold market_step in Hs'.
  destruct (_analyze_market config m market ol T) as [[sb|]|e] eqn:E;
    cbn [Py.bind] in Hs'; try discriminate.
  injection Hs' as ->.
  exists m, market, ol. split; [exact Hm|]. split; [exact Hmk|].
  split; [exact E|].
  destruct ol as [|q ol].
  - right. rewrite ErrorFacts.analyze_empty in E.
    destruct (Qlt_le_dec _ _) as [Hlo|Hlo]; [discriminate|].
    destruct (Qlt_le_dec _ _) as [Hhi|Hhi]; [discriminate|].
    injection E as <-. split; [reflexivity|]. split; [reflexivity|].
    split; lra.
  - left. split; [|discriminate].
    apply (ErrorFacts.analyze_error config m market (q :: ol) T v);
      [discriminate | exact E].
Qed.

Lemma detector_raises_division_or_index_error_witness :
  exists m market ol,
    In m [demo_match; zero_match] /\ In (market, ol) (odds m) /\
    _analyze_market SUREBET_CONFIG m market ol 100 = Raise ZeroDivisionError /\
    ((ZeroDivisionError = ZeroDivisionError /\ ol <> []) \/
     (ZeroDivisionError = IndexError /\ ol = [] /\
      margen_minimo SUREBET_CONFIG <= 100 <= margen_maximo SUREBET_CONFIG)).
Proof.
  apply (detector_raises_division_or_index_error
           SUREBET_CONFIG [demo_match; zero_match] 100 ZeroDivisionError).
  vm_compute. reflexivity.
Defined.

(** * Consolidation of fixtures that are all different *)

Module DistinctFacts.

Lemma set_absent {V} (k : string) (v : V) (d : Dict.t V) :
  ~ In k (Dict.keys d) -> Dict.set k v d = d ++ [(k, v)].
Proof.
  induction d as [|[k0 v0] d IH]; simpl; intros H; [reflexivity|].
  destruct (String.eqb k k0) eqn:E.
  - apply String.eqb_eq in E. subst k0. exfalso. apply H. now left.
  - rewrite IH; [reflexivity|]. intros Hin. apply H. now right.
Qed.

Lemma fold_distinct (h : heap) (refs : list ref) (ms : list Match)
    (cm : Dict.t ref) :
  Forall2 (fun r m => deref h r = Some m) refs ms ->
  NoDup (map key ms) ->
  (forall m, In m ms -> ~ In (key m) (Dict.keys cm)) ->
  fold_left consolidate_step refs (h, cm)
  = (h, cm ++ combine (map key ms) refs).
Proof.
  intros HF. revert cm.
  induction HF as [|r m refs ms Hr HF IH]; intros cm Hnd Hcm; simpl.
  - now rewrite app_nil_r.
  - rewrite Hr.
    assert (Hk : ~ In (key m) (Dict.keys cm)) by (apply Hcm; now left).
    apply DictFacts.get_None_keys in Hk as Hg. rewrite Hg.
    rewrite (set_absent (key m) r cm Hk).
    inversion Hnd as [|k ks Hnot Hnd']; subst.
    rewrite IH; [now rewrite <- app_assoc | exact Hnd'|].
    intros m' Hm' Hin. unfold Dict.keys in Hin. rewrite map_app in Hin.
    apply in_app_or in Hin as [Hin|[E|[]]].
    + apply (Hcm m'); [now right | exact Hin].
    + cbn in E. apply Hnot. rewrite E. now apply in_map.
Qed.

Lemma match_list_combine (h : heap) (refs : list ref) (ms : list Match) :
  Forall2 (fun r m => deref h r = Some m) refs ms ->
  match_list (h, combine (map key ms) refs) = ms.
Proof.
  unfold match_list. cbn [fst snd].
  induction 1 as [|r m refs ms Hr HF IH]; [reflexivity|].
  cbn [map combine Dict.values flat_map snd]. rewrite Hr.
  cbn [app]. f_equal. exact IH.
Qed.

End DistinctFacts.

(** X21.  When no two matches of the input have the same key (one
    bookmaker alone, or bookmakers with different fixtures), the
    consolidation changes no object, and [match_list] is the list of the
    input matches in the order the loop visits them. *)
Theorem consolidation_of_distinct_fixtures_changes_nothing
    (h : heap) (all_matches : Dict.t (list ref)) (ms : list Match) :
  Forall2 (fun r m => deref h r = Some m) (all_refs all_matches) ms ->
  NoDup (map key ms) ->
  fst (consolidate h all_matches) = h /\
  snd (consolidate h all_matches) = combine (map key ms) (all_refs all_matches) /\
  match_list (consolidate h all_matches) = ms.
Proof.
  intros HF Hnd.
  assert (E : consolidate h all_matches
              = (h, combine (map key ms) (all_refs all_matches))).
  { rewrite ConsolidationFacts.consolidate_flat.
    exact (DistinctFacts.fold_distinct h (all_refs all_matches) ms [] HF Hnd
             (fun m _ H => H)). }
  rewrite E. cbn [fst snd]. split; [reflexivity|]. split; [reflexivity|].
  now apply DistinctFacts.match_list_combine.
Qed.

Lemma consolidation_of_distinct_fixtures_changes_nothing_witness :
  List.length Fixtures.fixtures_heap = 3%nat /\
  fst (consolidate Fixtures.fixtures_heap Fixtures.fixtures_sources)
  = Fixtures.fixtures_heap /\
  Dict.keys (snd (consolidate Fixtures.fixtures_heap Fixtures.fixtures_sources))
  = ["Boca Juniors|River Plate"; "Racing Club|Independiente";
     "San Lorenzo|Huracán"]%string /\
  match_list (consolidate Fixtures.fixtures_heap Fixtures.fixtures_sources)
  = Fixtures.fixtures_heap.
Proof.
  split; [reflexivity|].
  destruct (consolidation_of_distinct_fixtures_changes_nothing
              Fixtures.fixtures_heap Fixtures.fixtures_sources
              Fixtures.fixtures_heap)
    as (Hheap & Hdict & Hlist).
  - repeat constructor.
  - repeat constructor; cbn; intuition discriminate.
  - split; [exact Hheap|]. split; [|exact Hlist].
    rewrite Hdict. reflexivity.
Defined.

(** * The order of the quotes *)

Module OrderInvariance.

Section Reordered.
Variables (l1 l2 : list Odd) (b1 b2 : Dict.t Odd).
Hypothesis Hperm : Permutation l1 l2.
Hypothesis H1 : select_best (group_by_outcome l1) = Ok b1.
Hypothesis H2 : select_best (group_by_outcome l2) = Ok b2.

Lemma keys_iff (o : string) : In o (Dict.keys b1) <-> In o (Dict.keys b2).
Proof.
  rewrite (RowFacts.best_keys l1 b1 H1), (RowFacts.best_keys l2 b2 H2).
  rewrite !GroupFacts.In_keys_group.
  split; intros (q & Hq & Ho); exists q; (split; [|exact Ho]).
  - now apply (Permutation_in _ Hperm).
  - now apply (Permutation_in _ (Permutation_sym Hperm)).
Qed.

Lemma keys_perm : Permutation (Dict.keys b1) (Dict.keys b2).
Proof.
  apply NoDup_Permutation.
  - exact (GroupFacts.NoDup_keys_best l1 b1 H1).
  - exact (GroupFacts.NoDup_keys_best l2 b2 H2).
  - exact keys_iff.
Qed.

Lemma best_values (o : string) (q1 q2 : Odd) :
  In (o, q1) b1 -> In (o, q2) b2 -> value q1 == value q2.
Proof.
  intros Hq1 Hq2.
  destruct (GroupFacts.best_In l1 b1 o q1 H1 Hq1) as (Hin1 & Ho1).
  destruct (GroupFacts.best_In l2 b2 o q2 H2 Hq2) as (Hin2 & Ho2).
  apply Qle_antisym.
  - apply (RowFacts.best_bounds l2 b2 o q2 H2 Hq2 q1); [|exact Ho1].
    now apply (Permutation_in _ Hperm).
  - apply (RowFacts.best_bounds l1 b1 o q1 H1 Hq1 q2); [|exact Ho2].
    now apply (Permutation_in _ (Permutation_sym Hperm)).
Qed.

Lemma best_entry (o : string) (q1 : Odd) :
  In (o, q1) b1 -> exists q2, In (o, q2) b2.
Proof.
  intros Hq1. assert (Hk : In o (Dict.keys b2)).
  { apply keys_iff. unfold Dict.keys. apply in_map_iff. now exists (o, q1). }
  unfold Dict.keys in Hk. apply in_map_iff in Hk as ([o' q2] & E & Hin).
  cbn in E. subst o'. now exists q2.
Qed.

End Reordered.

Lemma nonzero_perm (l1 l2 : list Odd) (b1 b2 : Dict.t Odd) :
  Permutation l1 l2 ->
  select_best (group_by_outcome l1) = Ok b1 ->
  select_best (group_by_outcome l2) = Ok b2 ->
  nonzero_odds b1 -> nonzero_odds b2.
Proof.
  intros Hperm H1 H2 Hnz [o q2] Hq2. cbn [snd].
  destruct (best_entry l2 l1 b2 b1 (Permutation_sym Hperm) H2 H1 o q2 Hq2)
    as (q1 & Hq1).
  rewrite <- (best_values l1 l2 b1 b2 Hperm H1 H2 o q1 q2 Hq1 Hq2).
  exact (Hnz (o, q1) Hq1).
Qed.

End OrderInvariance.

(** X22.  The best odds of a market do not depend on the order of its
    quotes (the order in which the bookmakers were consolidated): grouping
    and [max] never fail, and for a rearranged quote list they give the
    same outcomes, for every outcome the same best odds value, and a zero
    among the best odds of the one list exactly when there is one among
    those of the other.  Only the bookmaker named for tied odds and the
    order of the outcomes can differ. *)
Theorem best_odds_do_not_depend_on_quote_order
    (l1 l2 : list Odd) (b1 : Dict.t Odd) :
  Permutation l1 l2 ->
  select_best (group_by_outcome l1) = Ok b1 ->
  exists b2,
    select_best (group_by_outcome l2) = Ok b2 /\
    Permutation (Dict.keys b1) (Dict.keys b2) /\
    (forall o q1, In (o, q1) b1 ->
       exists q2, In (o, q2) b2 /\ value q1 == value q2) /\
    (forall o q2, In (o, q2) b2 ->
       exists q1, In (o, q1) b1 /\ value q1 == value q2) /\
    (nonzero_odds b1 <-> nonzero_odds b2).
Proof.
  intros Hperm H1.
  destruct (GroupFacts.select_best_spec l2) as (b2 & H2 & _).
  exists b2. split; [exact H2|].
  split; [exact (OrderInvariance.keys_perm l1 l2 b1 b2 Hperm H1 H2)|].
  split; [|split].
  - intros o q1 Hq1.
    destruct (OrderInvariance.best_entry l1 l2 b1 b2 Hperm H1 H2 o q1 Hq1)
      as (q2 & Hq2).
    exists q2. split; [exact Hq2|].
    exact (OrderInvariance.best_values l1 l2 b1 b2 Hperm H1 H2 o q1 q2 Hq1 Hq2).
  - intros o q2 Hq2.
    destruct (OrderInvariance.best_entry l2 l1 b2 b1 (Permutation_sym Hperm)
                H2 H1 o q2 Hq2) as (q1 & Hq1).
    exists q1. split; [exact Hq1|].
    exact (OrderInvariance.best_values l1 l2 b1 b2 Hperm H1 H2 o q1 q2 Hq1 Hq2).
  - split.
    + exact (OrderInvariance.nonzero_perm l1 l2 b1 b2 Hperm H1 H2).
    + exact (OrderInvariance.nonzero_perm l2 l1 b2 b1 (Permutation_sym Hperm)
               H2 H1).
Qed.

Lemma best_odds_do_not_depend_on_quote_order_witness :
  exists b2,
    select_best (group_by_outcome (rev demo_odds)) = Ok b2 /\
    Permutation (Dict.keys demo_best) (Dict.keys b2) /\
    (forall o q1, In (o, q1) demo_best ->
       exists q2, In (o, q2) b2 /\ value q1 == value q2).
Proof.
  destruct (best_odds_do_not_depend_on_quote_order demo_odds (rev demo_odds)
              demo_best) as (b2 & E & Hk & Hv & _).
  - apply Permutation_rev.
  - vm_compute. reflexivity.
  - exists b2. split; [exact E|]. split; [exact Hk | exact Hv].
Defined.

(** * When a call fails *)

Module RaiseFacts.

Import DetectorFacts.

Lemma zero_or_nonzero (best_odds : Dict.t Odd) :
  (exists kv, In kv best_odds /\ value (snd kv) == 0) \/ nonzero_odds best_odds.
Proof.
  induction best_odds as [|kv rest IH].
  - right. intros kv [].
  - destruct (Qeq_dec (value (snd kv)) 0) as [Hz|Hz].
    + left. exists kv. split; [now left | exact Hz].
    + destruct IH as [(kv' & Hin & Hz')|Hnz].
      * left. exists kv'. split; [now right | exact Hz'].
      * right. intros kv' [<-|Hin]; [exact Hz | now apply Hnz].
Qed.

Lemma best_of_nil (best_odds : Dict.t Odd) :
  select_best (group_by_outcome []) = Ok best_odds -> best_odds = [].
Proof. intros H. cbn in H. now injection H as <-. Qed.

Section Market.
Variables (config : Config) (m : Match) (market : string)
          (odds_list : list Odd) (T : Q) (best_odds : Dict.t Odd).
Hypothesis Hbest : select_best (group_by_outcome odds_list) = Ok best_odds.

(** The three ways the analysis of a market raises once the margin is
    within the range. *)
Lemma accepted_raises (s margin : Q) :
  sum_inverse best_odds = Ok s ->
  _calculate_margin best_odds = Ok margin ->
  ~ margin < margen_minimo config /\ ~ margen_maximo config < margin ->
  odds_list = [] \/ s == 0 \/ T == 0 ->
  raises (_analyze_market config m market odds_list T).
Proof.
  intros Hs Hm (Hlo & Hhi) Hcase.
  destruct (sum_inverse_Ok best_odds s Hs) as (Hnz & ->).
  destruct (calculate_margin_Ok best_odds margin Hm) as (_ & ->).
  assert (Hrange : margen_minimo config <= margin_of (reciprocal_sum best_odds)
                                        <= margen_maximo config)
    by (split; now apply Qnot_lt_le).
  pose proof (GroupFacts.NoDup_keys_best odds_list best_odds Hbest) as Hnd.
  rewrite (AnalyzeFacts.analyze_in_range config m market odds_list T best_odds
             Hbest Hnz Hrange).
  destruct best_odds as [|kv rest] eqn:Eb.
  - rewrite calculate_stakes_nil. exact I.
  - assert (Hne : kv :: rest <> []) by discriminate.
    destruct (Qeq_dec (reciprocal_sum (kv :: rest)) 0) as [HW|HW].
    + now rewrite (calculate_stakes_zero_weight (kv :: rest) T Hnd Hnz Hne HW).
    + destruct Hcase as [E|[E|HT]].
      * subst odds_list. now apply best_of_nil in Hbest.
      * contradiction.
      * rewrite <- Eb in *.
        rewrite <- (AnalyzeFacts.analyze_in_range config m market odds_list T
                      best_odds Hbest Hnz Hrange).
        now rewrite (AnalyzeFacts.analyze_zero_stake config m market odds_list T
                       best_odds Hbest Hnz ltac:(congruence) HW HT Hrange).
Qed.

Lemma analyze_raises_iff :
  raises (_analyze_market config m market odds_list T) <->
  (exists kv, In kv best_odds /\ value (snd kv) == 0) \/
  (exists s margin,
     sum_inverse best_odds = Ok s /\ _calculate_margin best_odds = Ok margin /\
     (~ margin < margen_minimo config /\ ~ margen_maximo config < margin) /\
     (odds_list = [] \/ s == 0 \/ T == 0)).
Proof.
  split.
  - intros Hr. destruct (zero_or_nonzero best_odds) as [Hz|Hnz]; [now left|].
    right. exists (reciprocal_sum best_odds), (margin_of (reciprocal_sum best_odds)).
    split; [now apply sum_inverse_total|].
    split; [now apply calculate_margin_total|].
    destruct (Qlt_le_dec (margin_of (reciprocal_sum best_odds))
                         (margen_minimo config)) as [Hlo|Hlo].
    { rewrite (AnalyzeFacts.analyze_reject_low config m market odds_list T
                 best_odds Hbest Hnz Hlo) in Hr. destruct Hr. }
    destruct (Qlt_le_dec (margen_maximo config)
                         (margin_of (reciprocal_sum best_odds))) as [Hhi|Hhi].
    { rewrite (AnalyzeFacts.analyze_reject_high config m market odds_list T
                 best_odds Hbest Hnz Hhi) in Hr. destruct Hr. }
    split; [split; now apply Qle_not_lt|].
    destruct odds_list as [|q ol] eqn:El; [now left | right].
    destruct (Qeq_dec (reciprocal_sum best_odds) 0) as [HW|HW]; [now left | right].
    destruct (Qeq_dec T 0) as [HT|HT]; [exact HT|].
    exfalso.
    assert (Hne : best_odds <> []).
    { intros E. now apply (GroupFacts.best_nil (q :: ol) best_odds Hbest) in E. }
    rewrite (AnalyzeFacts.analyze_accepts config m market (q :: ol) T best_odds
               Hbest Hnz Hne HW HT (conj Hlo Hhi)) in Hr.
    destruct Hr.
  - intros [(kv & Hkv & Hz)|(s & margin & Hs & Hm & Hrange & Hcase)].
    + now rewrite (AnalyzeFacts.analyze_zero_odd config m market odds_list T
                     best_odds Hbest kv Hkv Hz).
    + exact (accepted_raises s margin Hs Hm Hrange Hcase).
Qed.

End Market.

Lemma find_surebets_raises_iff (config : Config) (matches : list Match) (T : Q) :
  raises (find_surebets config matches T) <->
  exists m market odds_list,
    In m matches /\ In (market, odds_list) (odds m) /\
    raises (_analyze_market config m market odds_list T).
Proof.
  split.
  - destruct (find_surebets config matches T) as [sbs|v] eqn:H; [intros []|].
    intros _. unfold find_surebets in H.
    destruct (ErrorFacts.foldM_error _ matches [] v H) as (m & s & Hm & Hs).
    unfold match_step in Hs.
    destruct (ErrorFacts.foldM_error _ (odds m) s v Hs)
      as ([market ol] & s' & Hmk & Hs').
    unfold market_step in Hs'.
    exists m, market, ol. split; [exact Hm|]. split; [exact Hmk|].
    destruct (_analyze_market config m market ol T) as [[sb|]|e];
      cbn [Py.bind] in Hs'; try discriminate.
    exact I.
  - intros (m & market & ol & Hm & Hmk & Hr).
    exact (AnalyzeFacts.find_surebets_raises config T matches m market ol
             Hm Hmk Hr).
Qed.

Lemma find_surebets_error_kind (config : Config) (matches : list Match) (T : Q)
    (v : PyErr) :
  find_surebets config matches T = Raise v ->
  v = ZeroDivisionError \/ v = IndexError.
Proof.
  intros H. unfold find_surebets in H.
  destruct (ErrorFacts.foldM_error _ matches [] v H) as (m & s & Hm & Hs).
  unfold match_step in Hs.
  destruct (ErrorFacts.foldM_error _ (odds m) s v Hs)
    as ([market ol] & s' & Hmk & Hs').
  unfold market_step in Hs'.
  destruct (_analyze_market config m market ol T) as [[sb|]|e] eqn:E;
    cbn [Py.bind] in Hs'; try discriminate.
  injection Hs' as ->.
  destruct ol as [|q ol].
  - right. rewrite ErrorFacts.analyze_empty in E.
    destruct (Qlt_le_dec _ _); [discriminate|].
    destruct (Qlt_le_dec _ _); [discriminate|].
    now injection E as <-.
  - left. apply (ErrorFacts.analyze_error config m market (q :: ol) T v);
      [discriminate | exact E].
Qed.

End RaiseFacts.

(** C4, amended.  The detector validates nothing and has no error of its
    own for invalid input.  A call fails as a whole, with
    [ZeroDivisionError] or [IndexError] and no list at all, exactly when
    the analysis of one of its markets raises.  The analysis of a market
    raises exactly when a best quote has odds value zero, or when the
    margin passes the filter (it is neither below the minimum nor above
    the maximum) and the market has no quote, or the reciprocals of its
    best odds add up to zero, or the total stake is zero.  When every
    market has a quote, every odds value is positive and the total stake
    is not zero, the call returns. *)
Theorem detector_failure_semantics
    (config : Config) (matches : list Match) (T : Q) :
  (raises (find_surebets config matches T) <->
   exists m market odds_list,
     In m matches /\ In (market, odds_list) (odds m) /\
     raises (_analyze_market config m market odds_list T)) /\
  (forall v, find_surebets config matches T = Raise v ->
     v = ZeroDivisionError \/ v = IndexError) /\
  (forall m market odds_list,
     exists best_odds,
       select_best (group_by_outcome odds_list) = Ok best_odds /\
       (raises (_analyze_market config m market odds_list T) <->
        (exists kv, In kv best_odds /\ value (snd kv) == 0) \/
        (exists s margin,
           sum_inverse best_odds = Ok s /\
           _calculate_margin best_odds = Ok margin /\
           (~ margin < margen_minimo config /\
            ~ margen_maximo config < margin) /\
           (odds_list = [] \/ s == 0 \/ T == 0)))) /\
  ((forall m market odds_list, In m matches ->
      In (market, odds_list) (odds m) ->
      odds_list <> [] /\ forall q, In q odds_list -> 0 < value q) ->
   ~ T == 0 ->
   returns (find_surebets config matches T)).
Proof.
  split; [apply RaiseFacts.find_surebets_raises_iff|].
  split; [intros v; apply RaiseFacts.find_surebets_error_kind|].
  split.
  - intros m market ol.
    destruct (GroupFacts.select_best_spec ol) as (bo & Hbo & _).
    exists bo. split; [exact Hbo|].
    exact (RaiseFacts.analyze_raises_iff config m market ol T bo Hbo).
  - intros Hall HT. apply AnalyzeFacts.find_surebets_returns.
    intros m' market' ol' Hm' Hitem'.
    destruct (Hall m' market' ol' Hm' Hitem') as (Hne & Hpos).
    destruct (GroupFacts.select_best_spec ol') as (bo & Hbo & _).
    now destruct (EmittedFacts.positive_market config m' market' ol' T bo
                    Hbo Hne Hpos HT) as (_ & _ & Hret).
Qed.

Lemma detector_failure_semantics_witness :
  raises (find_surebets SUREBET_CONFIG [demo_match; zero_match] 100) /\
  returns (find_surebets SUREBET_CONFIG [single_match; demo_match] (-100)).
Proof.
  destruct (detector_failure_semantics SUREBET_CONFIG [demo_match; zero_match] 100)
    as (Hiff & _).
  destruct (detector_failure_semantics SUREBET_CONFIG [single_match; demo_match]
              (-100)) as (_ & _ & _ & Hret).
  split.
  - apply Hiff. exists zero_match, "1X2"%string, zero_odds.
    split; [right; now left|]. split; [now left|]. vm_compute. exact I.
  - apply Hret; [|intros H; vm_compute in H; discriminate H].
    intros m market ol [<-|[<-|[]]] [E|[]]; injection E as <- <-;
      (split; [discriminate|]);
      intros q Hq; cbn in Hq;
      repeat (destruct Hq as [<-|Hq]; [reflexivity|]); destruct Hq.
Defined.

(** * Which events are merged *)

(** C8, amended.  Two raw events are merged into the same consolidated
    event if and only if their keys [home_team|away_team] are the same
    string; the league label plays no part.  For home names without the
    separator "|" this is: if and only if the ordered participant pair
    (home team, away team) matches.  The consolidated event of a key is
    the first event seen with that key: it keeps its league, country and
    time, and its quote lists contain, market by market, the quotes of
    every event with that key.  Each key has exactly one entry. *)
Theorem events_merge_by_participant_key
    (h : heap) (all_matches : Dict.t (list ref)) (r1 r2 : ref) (m1 m2 : Match) :
  In r1 (all_refs all_matches) -> In r2 (all_refs all_matches) ->
  deref h r1 = Some m1 -> deref h r2 = Some m2 ->
  let st := consolidate h all_matches in
  NoDup (Dict.keys (snd st)) /\
  exists e1 e2 f1 f2 me1 me2,
    Dict.get (key m1) (snd st) = Some e1 /\
    Dict.get (key m2) (snd st) = Some e2 /\
    Relations.first_with_key h (key m1) (all_refs all_matches) = Some e1 /\
    Relations.first_with_key h (key m2) (all_refs all_matches) = Some e2 /\
    deref h e1 = Some f1 /\ deref h e2 = Some f2 /\
    deref (fst st) e1 = Some me1 /\ deref (fst st) e2 = Some me2 /\
    me1 = set_odds f1 (odds me1) /\ me2 = set_odds f2 (odds me2) /\
    Relations.included (odds m1) (odds me1) /\
    Relations.included (odds m2) (odds me2) /\
    (e1 = e2 <-> key m1 = key m2) /\
    (no_bar (home_team m1) -> no_bar (home_team m2) ->
     (e1 = e2 <-> home_team m1 = home_team m2 /\ away_team m1 = away_team m2)).
Proof.
  intros Hin1 Hin2 Hm1 Hm2 st.
  destruct (QuoteFacts.inv_quotes_consolidate h all_matches)
    as ((Hobj & _ & Hnd & Hent & _) & (_ & _ & Hfirst & Hquotes)).
  fold st in Hobj, Hnd, Hent, Hfirst, Hquotes. split; [exact Hnd|].
  destruct (Hquotes r1 m1 Hin1 Hm1) as (e1 & me1 & He1 & Hd1 & Hi1).
  destruct (Hquotes r2 m2 Hin2 Hm2) as (e2 & me2 & He2 & Hd2 & Hi2).
  destruct (Hent _ _ (DictFacts.get_In _ _ _ _ He1)) as (f1 & Hf1 & Hk1).
  destruct (Hent _ _ (DictFacts.get_In _ _ _ _ He2)) as (f2 & Hf2 & Hk2).
  exists e1, e2, f1, f2, me1, me2.
  split; [exact He1|]. split; [exact He2|].
  split; [now rewrite <- Hfirst|]. split; [now rewrite <- Hfirst|].
  split; [exact Hf1|]. split; [exact Hf2|].
  split; [exact Hd1|]. split; [exact Hd2|].
  split.
  { destruct (Hobj e1 f1 Hf1) as (o & Ho). rewrite Ho in Hd1.
    injection Hd1 as <-. reflexivity. }
  split.
  { destruct (Hobj e2 f2 Hf2) as (o & Ho). rewrite Ho in Hd2.
    injection Hd2 as <-. reflexivity. }
  split; [exact Hi1|]. split; [exact Hi2|].
  assert (Hiff : e1 = e2 <-> key m1 = key m2).
  { split.
    - intros ->. congruence.
    - intros E. rewrite E in He1. congruence. }
  split; [exact Hiff|]. intros Hb1 Hb2. rewrite Hiff. split.
  - intros E. now apply (ConsolidationFacts.key_pair _ _ _ _ Hb1 Hb2).
  - intros (Eh & Ea). unfold key. now rewrite Eh, Ea.
Qed.

Lemma events_merge_by_participant_key_witness :
  league betwarrior_match <> league codere_cup_match /\
  exists e me,
    Dict.get (key betwarrior_match) (snd (consolidate league_heap two_sources))
    = Some e /\
    Dict.get (key codere_cup_match) (snd (consolidate league_heap two_sources))
    = Some e /\
    Relations.first_with_key league_heap (key codere_cup_match)
      (all_refs two_sources) = Some e /\
    deref (fst (consolidate league_heap two_sources)) e = Some me /\
    Relations.included (odds betwarrior_match) (odds me) /\
    Relations.included (odds codere_cup_match) (odds me).
Proof.
  split; [discriminate|].
  destruct (events_merge_by_participant_key league_heap two_sources 0%nat 1%nat
              betwarrior_match codere_cup_match)
    as (_ & e1 & e2 & f1 & f2 & me1 & me2 & He1 & He2 & Hf1 & Hf2 & _ & _
        & Hd1 & Hd2 & _ & _ & Hi1 & Hi2 & Hiff & _).
  - now left.
  - right; now left.
  - reflexivity.
  - reflexivity.
  - assert (E : e1 = e2) by (apply Hiff; reflexivity).
    subst e2. exists e1, me1.
    split; [exact He1|]. split; [exact He2|]. split; [exact Hf2|].
    split; [exact Hd1|]. split; [exact Hi1|].
    assert (Em : me2 = me1) by congruence. now rewrite <- Em.
Defined.
